(** * timer.h: the GET_TIME macro, its two platform variants

    [timer.h] defines one macro, [GET_TIME(now)], which stores into the
    caller's [double] variable [now] the number of seconds elapsed since some
    point in the past.  Under [_WIN32] it divides the performance counter by a
    lazily cached [static double frequency]; otherwise it combines the two
    fields of [gettimeofday]'s [struct timeval].  Being a macro, it is
    compiled where it is used: the names in its body are resolved in the
    scope of each call.

    The macro bodies are embedded once, over an interface of [double]
    operations, and read at two instances: IEEE 754 binary64 (what the C
    program computes) and exact rational arithmetic. *)

From Stdlib Require Import ZArith QArith Qpower Lia Lqa Bool.
From Stdlib Require Import Floats.SpecFloat.
From stdpp Require Import base strings gmap.

Local Open Scope Z_scope.

(** ** The [double] operations the macro uses *)

Class DoubleOps (D : Type) := {
  (** [(double) z] for a 64-bit signed integer [z] *)
  of_long : Z -> D;
  (** [x + y], [x - y], [x / y] *)
  fadd : D -> D -> D;
  fsub : D -> D -> D;
  fdiv : D -> D -> D;
  (** [x == 0] and [x >= 0] *)
  feq0 : D -> bool;
  fge0 : D -> bool;
  (** the value of a [static double] without initialiser *)
  dzero : D
}.

(** The literal [1000000.0]: ten to the sixth is below [2^53], so the literal
    is the conversion of the integer. *)
Definition d1000000 {D} `{DoubleOps D} : D := of_long 1000000.

(** What the lazy initialisation relies on: a static starts as zero, and an
    integer converts to zero only if it is zero. *)
Class DoubleLaws (D : Type) `{DoubleOps D} : Prop := {
  feq0_dzero : feq0 dzero = true;
  feq0_of_long : forall z : Z, feq0 (of_long z) = (z =? 0)
}.

(** *** IEEE 754 binary64

    The C [double], with the operations of the standard library's
    [SpecFloat] at precision 53 and maximal exponent 1024, in the default
    rounding mode (to nearest, ties to even). *)
Module Binary64.
Definition prec : Z := 53.
Definition emax : Z := 1024.
Definition double : Type := spec_float.

(** [(double) z]: the integer [z * 2^0], rounded. *)
Definition b64_of_long (z : Z) : double := binary_normalize prec emax z 0 false.
(** [x == 0]: true of both zeros, false of NaN. *)
Definition b64_eq0 (x : double) : bool := SFeqb x (S754_zero false).
(** [x >= 0], that is [0 <= x]: false of NaN. *)
Definition b64_ge0 (x : double) : bool := SFleb (S754_zero false) x.

#[export] Instance b64_ops : DoubleOps double := {|
  of_long := b64_of_long;
  fadd := SFadd prec emax;
  fsub := SFsub prec emax;
  fdiv := SFdiv prec emax;
  feq0 := b64_eq0;
  fge0 := b64_ge0;
  dzero := S754_zero false
|}.
End Binary64.

(** *** Exact rational arithmetic

    The same operations without rounding.  ([Qdiv] by zero is zero; the
    statements over [Q] divide by the nonzero literal only.) *)
Module Exact.
#[export] Instance exact_ops : DoubleOps Q := {|
  of_long := inject_Z;
  fadd := Qplus;
  fsub := Qminus;
  fdiv := Qdiv;
  feq0 := fun x => Qeq_bool x 0;
  fge0 := fun x => Qle_bool 0 x;
  dzero := 0%Q
|}.
End Exact.

(** ** The caller's variables

  [GET_TIME(now)] is a macro: its argument is an lvalue of type [double]
  in the caller's scope, not a pointer.  The caller's [double] variables are
  a finite map from their names; the macro assigns to one of them.  (The
  block-local names of the macro bodies, [t] and [li], are not of type
  [double]: passed as argument they do not compile, and a variable of the
  caller with such a name is merely hidden inside the block.) *)

(** ** Wall-clock variant ([#else] branch) *)

(** [struct timeval] *)
Record timeval := { tv_sec : Z; tv_usec : Z }.

Module Posix.
Section Macro.
Context {D : Type} `{DoubleOps D}.

(** The platform clock as a test double: the [n]-th call of
    [gettimeofday(&t, NULL)] returns [fst] and leaves [snd] in [t]
    (on failure, whatever [t] then holds). *)
Variable gettimeofday : nat -> Z * timeval.

Record state := {
  vars : gmap string D;   (* the caller's double variables *)
  clock_calls : nat       (* calls of gettimeofday so far *)
}.

Definition gettimeofday_call (s : state) : Z * timeval * state :=
  let '(rc, t) := gettimeofday (clock_calls s) in
  (rc, t, {| vars := vars s; clock_calls := S (clock_calls s) |}).

Definition assign (now : string) (v : D) (s : state) : state :=
  {| vars := <[now := v]> (vars s); clock_calls := clock_calls s |}.

(** [now = t.tv_sec + t.tv_usec / 1000000.0] *)
Definition timestamp (t : timeval) : D :=
  fadd (of_long (tv_sec t)) (fdiv (of_long (tv_usec t)) d1000000).

(** [#define GET_TIME(now) { struct timeval t; gettimeofday(&t, NULL);
     now = t.tv_sec + t.tv_usec / 1000000.0; }] *)
Definition GET_TIME (now : string) (s : state) : state :=
  let '(_, t, s1) := gettimeofday_call s in
  assign now (timestamp t) s1.

(** A sequence of macro calls, in program order. *)
Definition run (nows : list string) (s : state) : state :=
  fold_left (fun s now => GET_TIME now s) nows s.

(** The platform reading the next call will obtain. *)
Definition next_reading (s : state) : timeval := snd (gettimeofday (clock_calls s)).
End Macro.
End Posix.

(** ** Counter-with-frequency variant ([#ifdef _WIN32] branch)

    [timer.h] is a header: every translation unit that includes it has a
    [static double frequency] and an [init_frequency] of its own.  And
    [GET_TIME] is a macro: its body is compiled where it is used, so the
    identifiers [now] and [frequency] in it are looked up in the scope of
    the call.  There [frequency] is the unit's static, unless the caller has
    a variable of that name in scope, which hides the static; and an
    argument spelled [frequency] is whichever of the two is visible.
    (In the body of [init_frequency], at file scope, [frequency] is always
    the static.)

    Translation units are numbered.  A call is written in one unit and names
    its argument.  The calls of one run are made where the same variables of
    the caller are in scope, under the same names; calls whose scopes differ
    belong to separate runs. *)

Module Win32.
Section Macro.
Context {D : Type} `{DoubleOps D}.

(** The platform as a test double: the [n]-th call of
    [QueryPerformanceFrequency(&li)] (resp. [QueryPerformanceCounter(&li)])
    in the process returns the BOOL [fst] and leaves [snd] in
    [li.QuadPart]. *)
Variable QueryPerformanceFrequency : nat -> Z * Z.
Variable QueryPerformanceCounter : nat -> Z * Z.

Record state := {
  statics : gmap nat D;   (* static double frequency, by unit; no entry: not written yet *)
  vars : gmap string D;   (* the caller's double variables in scope at the calls *)
  qpf_calls : nat;        (* calls of QueryPerformanceFrequency so far *)
  qpc_calls : nat         (* calls of QueryPerformanceCounter so far *)
}.

(** Program start: no static has been written, nothing has been called. *)
Definition initial (vs : gmap string D) : state :=
  {| statics := ∅; vars := vs; qpf_calls := 0; qpc_calls := 0 |}.

(** [static double frequency] of unit [u]: a static without initialiser
    starts as zero. *)
Definition static_frequency (u : nat) (s : state) : D :=
  default dzero (statics s !! u).

(** Name lookup where the macro is expanded.  The identifier [x] denotes the
    unit's static when it is spelled [frequency] and no variable of the
    caller has that name; otherwise it denotes the caller's variable [x].
    (An entry [frequency] of [vars] is such a variable of the caller, with
    its value; a variable that holds no value yet cannot be read and is not
    modelled.) *)
Definition denotes_static (x : string) (s : state) : bool :=
  match vars s !! "frequency" with
  | Some _ => false
  | None => bool_decide (x = "frequency")
  end.

(** What the variable [x] holds, read at a call site of unit [u]. *)
Definition value (u : nat) (x : string) (s : state) : option D :=
  if denotes_static x s then Some (static_frequency u s) else vars s !! x.

(** The identifier [frequency] evaluated at a call site of unit [u]. *)
Definition frequency (u : nat) (s : state) : D :=
  match vars s !! "frequency" with
  | Some v => v
  | None => static_frequency u s
  end.

(** [static void init_frequency() { LARGE_INTEGER li;
     QueryPerformanceFrequency(&li); frequency = (double)li.QuadPart; }]
    of unit [u]. *)
Definition init_frequency (u : nat) (s : state) : state :=
  let '(_, li) := QueryPerformanceFrequency (qpf_calls s) in
  {| statics := <[u := of_long li]> (statics s); vars := vars s;
     qpf_calls := S (qpf_calls s); qpc_calls := qpc_calls s |}.

(** [if (frequency == 0) init_frequency();] *)
Definition lazy_init (u : nat) (s : state) : state :=
  if feq0 (frequency u s) then init_frequency u s else s.

Definition QueryPerformanceCounter_call (s : state) : Z * Z * state :=
  let '(rc, li) := QueryPerformanceCounter (qpc_calls s) in
  (rc, li, {| statics := statics s; vars := vars s;
              qpf_calls := qpf_calls s; qpc_calls := S (qpc_calls s) |}).

(** [now = v;] at a call site of unit [u]. *)
Definition assign (u : nat) (now : string) (v : D) (s : state) : state :=
  if denotes_static now s
  then {| statics := <[u := v]> (statics s); vars := vars s;
          qpf_calls := qpf_calls s; qpc_calls := qpc_calls s |}
  else {| statics := statics s; vars := <[now := v]> (vars s);
          qpf_calls := qpf_calls s; qpc_calls := qpc_calls s |}.

(** [#define GET_TIME(now) { LARGE_INTEGER li;
     if (frequency == 0) init_frequency();
     QueryPerformanceCounter(&li);
     now = (double)li.QuadPart / frequency; }]
    used in unit [u]. *)
Definition GET_TIME (u : nat) (now : string) (s : state) : state :=
  let s1 := lazy_init u s in
  let '(_, li, s2) := QueryPerformanceCounter_call s1 in
  assign u now (fdiv (of_long li) (frequency u s2)) s2.

(** A sequence of macro calls in program order, each with the unit it is
    written in and its argument. *)
Definition run (calls : list (nat * string)) (s : state) : state :=
  fold_left (fun s c => GET_TIME (fst c) (snd c) s) calls s.

(** The calls [GET_TIME(now)], for [now] in [nows], all written in unit [u]. *)
Definition calls_in (u : nat) (nows : list string) : list (nat * string) :=
  pair u <$> nows.

(** The tick count the next call will read, and the divisor of its
    division: the value of [frequency] when [now = ... / frequency] runs. *)
Definition next_ticks (u : nat) (s : state) : Z :=
  snd (QueryPerformanceCounter (qpc_calls (lazy_init u s))).
Definition divisor (u : nat) (s : state) : D :=
  frequency u (snd (QueryPerformanceCounter_call (lazy_init u s))).
End Macro.
End Win32.

Import Binary64 Exact.

(** * Definitions for the proofs

    The rational value of a finite double, the position of a real number
    between two multiples of a power of two, and the relation "[x] rounds to
    [v]" in terms of SpecFloat's own [round_nearest_even]. *)

(** [2^e] for an integer exponent. *)
Definition pow2 (e : Z) : Q := (2 ^ e)%Q.

(** A double that is a number: a zero or a finite value. *)
Definition SFfinite (r : spec_float) : bool :=
  match r with S754_zero _ | S754_finite _ _ _ => true | _ => false end.

(** Sign bit, magnitude and value of a double; infinities and NaN count as
    zero here and are excluded by [SFfinite] where it matters. *)
Definition SFsign (r : spec_float) : bool :=
  match r with
  | S754_zero s | S754_infinity s | S754_finite s _ _ => s
  | S754_nan => false
  end.

Definition SFmag (r : spec_float) : Q :=
  match r with
  | S754_finite _ m e => inject_Z (Zpos m) * pow2 e
  | _ => 0
  end.

Definition SF2Q (r : spec_float) : Q := if SFsign r then (- SFmag r)%Q else SFmag r.

(** [inbetween x m e l]: the real [x] lies in [[m * 2^e, (m+1) * 2^e)], at
    the position [l] says: on the lower end, below, at or above the middle.
    This is the reading of the pairs (mantissa, location) that SpecFloat's
    [shr], [round_nearest_even] and [binary_round_aux] compute with. *)
Definition inbetween (x : Q) (m e : Z) (l : location) : Prop :=
  match l with
  | loc_Exact => x == inject_Z m * pow2 e
  | loc_Inexact Lt => inject_Z m * pow2 e < x /\ x < (inject_Z m + (1#2)) * pow2 e
  | loc_Inexact Eq => x == (inject_Z m + (1#2)) * pow2 e
  | loc_Inexact Gt => (inject_Z m + (1#2)) * pow2 e < x /\ x < (inject_Z m + 1) * pow2 e
  end%Q.

(** The same for a shift record: mantissa with round and sticky bits. *)
Definition located (x : Q) (e : Z) (mrs : shr_record) : Prop :=
  0 <= shr_m mrs /\ inbetween x (shr_m mrs) e (loc_of_shr_record mrs).

(** The exponent at which a nonnegative [x] is rounded: [fexp] of its
    magnitude, that is [-1074 = emin] for subnormal [x] and otherwise the [e]
    with [2^(e+52) <= x < 2^(e+53)]. *)
Definition canonic_exp (x : Q) (e : Z) : Prop :=
  -1074 <= e /\ (x < pow2 (e + 53))%Q /\ (e = -1074 \/ (pow2 (e + 52) <= x)%Q).

(** What [binary_round_aux] returns once the rounded mantissa [M] at
    exponent [e] is known ([971 = emax - prec]). *)
Definition round_result (sx : bool) (M e : Z) : spec_float :=
  if M =? 2 ^ 53 then
    if e + 1 <=? 971 then S754_finite sx (2 ^ 52)%positive (e + 1) else S754_infinity sx
  else
    match M with
    | Z0 => S754_zero sx
    | Zpos p => if e <=? 971 then S754_finite sx p e else S754_infinity sx
    | Zneg _ => S754_nan
    end.

(** [Rnd x v]: the nonnegative [x] rounds to [v] (nearest representable
    binary64 magnitude, ties to even, no overflow considered). *)
Definition Rnd (x v : Q) : Prop :=
  exists e m l,
    canonic_exp x e /\ 0 <= m /\ inbetween x m e l /\
    (v == inject_Z (round_nearest_even m l) * pow2 e)%Q.

(** Rounding of a real of either sign: symmetric around zero. *)
Definition RndS (x v : Q) : Prop :=
  ((0 <= x)%Q /\ Rnd x v) \/ ((x < 0)%Q /\ Rnd (- x) (- v)).

(** [r] is a finite double and is what the real number [x] rounds to. *)
Definition rounds_to (x : Q) (r : spec_float) : Prop :=
  SFfinite r = true /\ RndS x (SF2Q r).

(** [r] is a finite double in canonical form. *)
Definition representable (r : spec_float) : Prop := rounds_to (SF2Q r) r.

(** ** Platform readings *)

(** The range of [LONGLONG], [time_t] and [long]. *)
Definition int64 (z : Z) : Prop := - 2 ^ 63 <= z < 2 ^ 63.

(** The readings of the wall clock compared as microsecond counts. *)
Definition micros (t : timeval) : Z := tv_sec t * 1000000 + tv_usec t.


(** A reading of the years 1970 to 2106: seconds below [2^32]. *)
Definition realistic_reading (t : timeval) : Prop :=
  0 <= tv_sec t < 2 ^ 32 /\ 0 <= tv_usec t <= 999999.

(** ** The header's example

    [GET_TIME(start); /* code to be timed */ GET_TIME(finish);
     elapsed = finish - start;] with the three [double] variables of the
    example.  The code to be timed only lets time pass: the second call
    obtains the platform's next reading.  (Both variables have just been
    assigned when they are read, so the second branch of the [match] is
    never taken.) *)
Definition posix_example {D : Type} `{DoubleOps D}
    (gettimeofday : nat -> Z * timeval) (s : Posix.state) : Posix.state :=
  let s2 := Posix.GET_TIME gettimeofday "finish" (Posix.GET_TIME gettimeofday "start" s) in
  match Posix.vars s2 !! "finish", Posix.vars s2 !! "start" with
  | Some finish, Some start => Posix.assign "elapsed" (fsub finish start) s2
  | _, _ => s2
  end.

Definition win32_example {D : Type} `{DoubleOps D}
    (QPF QPC : nat -> Z * Z) (u : nat) (s : Win32.state) : Win32.state :=
  let s2 := Win32.GET_TIME QPF QPC u "finish" (Win32.GET_TIME QPF QPC u "start" s) in
  match Win32.value u "finish" s2, Win32.value u "start" s2 with
  | Some finish, Some start => Win32.assign u "elapsed" (fsub finish start) s2
  | _, _ => s2
  end.

(** [x > 0] in binary64. *)
Definition b64_gt0 (x : double) : bool := SFltb (S754_zero false) x.

(** ** Concrete platforms *)

(** A wall clock stuck within one second of 2023, a counter ticking at
    10 MHz, and a platform without a high-resolution counter, whose
    frequency query fails and stores zero. *)
Definition clock_2023 (n : nat) : Z * timeval :=
  (0, {| tv_sec := 1700000000; tv_usec := Z.min (Z.of_nat n * 1000) 999999 |}).
Definition qpf_10MHz (n : nat) : Z * Z := (1, 10000000).
Definition qpc_ticks (n : nat) : Z * Z := (1, Z.min (Z.of_nat n * 2500000) 1000000000000).
Definition qpf_unsupported (n : nat) : Z * Z := (0, 0).
(** A platform whose frequency query changes its reply after the first call. *)
Definition qpf_drifting (n : nat) : Z * Z :=
  (1, match n with O => 10000000 | S _ => 3579545 end).
(** The 10 MHz counter after three years of uptime, read tick by tick. *)
Definition qpc_long_uptime (n : nat) : Z * Z := (1, 1000000000000000 + Z.of_nat n).
(** Two translation units that include [timer.h]. *)
Definition main_c : nat := 0.
Definition worker_c : nat := 1.

(** ** Side conditions at concrete inputs *)

(** Membership in a concrete list, by evaluation. *)
Ltac by_evaluation :=
  match goal with |- ?P => apply (bool_decide_unpack P); vm_compute; exact I end.

(** A closed arithmetic side condition, by evaluation. *)
Ltac by_arithmetic := vm_compute; repeat split; first [reflexivity | discriminate].

(** * Rounding in binary64

    [SpecFloat] gives the operations; what follows relates them to the
    rational numbers they approximate: every operation the macro uses returns
    the correctly rounded value of the exact result (round to nearest, ties
    to even), and rounding is monotone. *)

(** ** Powers of two *)

Lemma pow2_pos e : (0 < pow2 e)%Q.
Proof. apply Qpower_0_lt; reflexivity. Qed.

Lemma pow2_add a b : (pow2 (a + b) == pow2 a * pow2 b)%Q.
Proof. apply Qpower_plus; discriminate. Qed.

Lemma pow2_succ e : (pow2 (e + 1) == 2 * pow2 e)%Q.
Proof. rewrite pow2_add; change (pow2 1) with 2%Q; ring. Qed.

Lemma pow2_le a b : a <= b -> (pow2 a <= pow2 b)%Q.
Proof. intros; apply Qpower_le_compat_l; [assumption|discriminate]. Qed.

Lemma pow2_lt a b : a < b -> (pow2 a < pow2 b)%Q.
Proof. intros; apply Qpower_lt_compat_l; [assumption|reflexivity]. Qed.

Lemma pow2_lt_inv a b : (pow2 a < pow2 b)%Q -> a < b.
Proof. intros; apply (Qpower_lt_compat_l_inv 2); [assumption|reflexivity]. Qed.

Lemma pow2_Z n : 0 <= n -> (pow2 n == inject_Z (2 ^ n))%Q.
Proof. intros; symmetry; apply (Zpower_Qpower 2); assumption. Qed.

Lemma pow2_split a b : (pow2 a == pow2 (a - b) * pow2 b)%Q.
Proof. rewrite <- pow2_add; replace (a - b + b) with a by lia; reflexivity. Qed.

(** An integer bound from a bound on the scaled value. *)
Lemma scaled_lt_pow2 m e k :
  0 <= k -> (inject_Z m * pow2 e < pow2 (e + k))%Q -> m < 2 ^ k.
Proof.
  intros Hk H. rewrite pow2_add, (pow2_Z k) in H by assumption.
  pose proof (pow2_pos e) as Hp.
  rewrite Zlt_Qlt. revert H Hp. generalize (inject_Z m) (inject_Z (2 ^ k)) (pow2 e).
  intros a b p H Hp. nra.
Qed.

(** ** Binary digit counts *)

Lemma digits2_pos_bounds p :
  2 ^ (Zpos (digits2_pos p) - 1) <= Zpos p < 2 ^ Zpos (digits2_pos p).
Proof.
  induction p as [p IH|p IH|]; simpl digits2_pos; [| |simpl; lia];
    rewrite Pos2Z.inj_succ;
    replace (Z.succ (Zpos (digits2_pos p)) - 1) with (Z.succ (Zpos (digits2_pos p) - 1)) by lia;
    rewrite !Z.pow_succ_r by lia; lia.
Qed.

Lemma Zdigits2_bounds m :
  0 < m -> 2 ^ (Zdigits2 m - 1) <= m < 2 ^ Zdigits2 m.
Proof. destruct m as [|p|p]; try lia; intros _; apply digits2_pos_bounds. Qed.

Lemma Zdigits2_pos m : 0 < m -> 0 < Zdigits2 m.
Proof. destruct m; simpl; lia. Qed.

Lemma Zdigits2_unique m d :
  0 < d -> 2 ^ (d - 1) <= m < 2 ^ d -> Zdigits2 m = d.
Proof.
  intros Hd Hm.
  assert (0 < m) as Hpos by (pose proof (Z.pow_pos_nonneg 2 (d - 1)); lia).
  pose proof (Zdigits2_bounds m Hpos) as Hb. pose proof (Zdigits2_pos m Hpos) as Hdp.
  destruct (Z.lt_trichotomy (Zdigits2 m) d) as [Hlt|[Heq|Hgt]]; [|exact Heq|].
  - assert (2 ^ Zdigits2 m <= 2 ^ (d - 1)) by (apply Z.pow_le_mono_r; lia). lia.
  - assert (2 ^ d <= 2 ^ (Zdigits2 m - 1)) by (apply Z.pow_le_mono_r; lia). lia.
Qed.

(** ** Locations *)

Lemma inbetween_bounds x m e l :
  inbetween x m e l -> (inject_Z m * pow2 e <= x /\ x < (inject_Z m + 1) * pow2 e)%Q.
Proof.
  pose proof (pow2_pos e) as Hp.
  destruct l as [|[| |]]; cbn [inbetween]; revert Hp;
    generalize (pow2 e) (inject_Z m); intros p a Hp H; split; lra.
Qed.

Lemma loc_of_shr_record_of_loc m l : loc_of_shr_record (shr_record_of_loc m l) = l.
Proof. destruct l as [|[| |]]; reflexivity. Qed.

Lemma shr_m_shr_record_of_loc m l : shr_m (shr_record_of_loc m l) = m.
Proof. destruct l as [|[| |]]; reflexivity. Qed.

Lemma inject_Z_xI p : inject_Z (Zpos p~1) = (2 * inject_Z (Zpos p) + 1)%Q.
Proof. rewrite Pos2Z.inj_xI, inject_Z_plus, inject_Z_mult; reflexivity. Qed.

Lemma inject_Z_xO p : inject_Z (Zpos p~0) = (2 * inject_Z (Zpos p))%Q.
Proof. rewrite Pos2Z.inj_xO, inject_Z_mult; reflexivity. Qed.

Lemma shr_1_inbetween x mrs e :
  0 <= shr_m mrs ->
  inbetween x (shr_m mrs) e (loc_of_shr_record mrs) ->
  0 <= shr_m (shr_1 mrs) /\
  inbetween x (shr_m (shr_1 mrs)) (e + 1) (loc_of_shr_record (shr_1 mrs)).
Proof.
  destruct mrs as [m r s]; simpl shr_m at 1 2.
  intros Hm Hx.
  pose proof (pow2_pos e) as Hp.
  destruct m as [|[p|p|]|p]; try lia; destruct r, s;
    cbn [shr_1 shr_m loc_of_shr_record inbetween orb] in *;
    (split; [lia|]);
    change (inject_Z 0) with 0%Q in *; change (inject_Z 1) with 1%Q in *;
    rewrite ?inject_Z_xI, ?inject_Z_xO in Hx;
    rewrite ?pow2_succ;
    revert Hp Hx; generalize (pow2 e); try generalize (inject_Z (Zpos p));
    intros; try split; lra.
Qed.

(** ** Shifting a located mantissa to its rounding exponent *)

Lemma fexp_eq e : fexp prec emax e = Z.max (e - 53) (-1074).
Proof. reflexivity. Qed.

Lemma iter_pos_inv {A} (f : A -> A) (I : Z -> A -> Prop) :
  (forall k a, I k a -> I (k + 1) (f a)) ->
  forall p k a, I k a -> I (k + Zpos p) (SpecFloat.iter_pos f p a).
Proof.
  intros Hstep; induction p as [p IH|p IH|]; intros k a Ha; cbn [SpecFloat.iter_pos].
  - replace (k + Zpos p~1) with (k + 1 + Zpos p + Zpos p) by lia.
    apply IH, IH, Hstep, Ha.
  - replace (k + Zpos p~0) with (k + Zpos p + Zpos p) by lia.
    apply IH, IH, Ha.
  - apply Hstep, Ha.
Qed.

Lemma shr_located x mrs e n :
  located x e mrs ->
  snd (shr mrs e n) = e + Z.max n 0 /\ located x (snd (shr mrs e n)) (fst (shr mrs e n)).
Proof.
  intros Hx; destruct n as [|p|p]; cbn [shr fst snd].
  - split; [lia|]. exact Hx.
  - split; [lia|].
    apply (iter_pos_inv shr_1 (located x)); [|exact Hx].
    intros k a [Hm Ha]; apply shr_1_inbetween; assumption.
  - split; [lia|]. exact Hx.
Qed.

Lemma shr_fexp_located x m e l :
  0 <= m -> inbetween x m e l -> e <= fexp prec emax (Zdigits2 m + e) ->
  snd (shr_fexp prec emax m e l) = fexp prec emax (Zdigits2 m + e) /\
  located x (snd (shr_fexp prec emax m e l)) (fst (shr_fexp prec emax m e l)).
Proof.
  intros Hm Hx He. unfold shr_fexp.
  destruct (shr_located x (shr_record_of_loc m l) e
              (fexp prec emax (Zdigits2 m + e) - e)) as [H1 H2].
  - split; rewrite shr_m_shr_record_of_loc; [exact Hm|].
    rewrite loc_of_shr_record_of_loc; exact Hx.
  - split; [lia|exact H2].
Qed.

Lemma inject_Z_pow2 k e : 0 <= k -> (inject_Z (2 ^ k) * pow2 e == pow2 (k + e))%Q.
Proof. intros Hk; rewrite pow2_add, (pow2_Z k Hk); reflexivity. Qed.

Lemma inject_Z_succ_le m n : m + 1 <= n -> (inject_Z m + 1 <= inject_Z n)%Q.
Proof.
  intros H. change 1%Q with (inject_Z 1).
  rewrite <- inject_Z_plus, <- Zle_Qle. exact H.
Qed.

Lemma inject_Z_le m n : m <= n -> (inject_Z m <= inject_Z n)%Q.
Proof. intros H; rewrite <- Zle_Qle; exact H. Qed.

Lemma canonic_exp_digits x m e l :
  0 <= m -> inbetween x m e l -> e <= fexp prec emax (Zdigits2 m + e) ->
  canonic_exp x (fexp prec emax (Zdigits2 m + e)).
Proof.
  intros Hm Hx He. apply inbetween_bounds in Hx. rewrite fexp_eq in *.
  destruct (Z.eq_dec m 0) as [->|Hnz].
  - cbn [Zdigits2] in *. change (inject_Z 0) with 0%Q in Hx.
    assert (e <= -1074) as He' by lia.
    replace (Z.max (0 + e - 53) (-1074)) with (-1074) by lia.
    pose proof (pow2_le e (-1074 + 53) ltac:(lia)).
    split; [lia|split; [lra|left; reflexivity]].
  - assert (0 < m) as Hpos by lia.
    pose proof (Zdigits2_bounds m Hpos) as [Hlo Hhi].
    pose proof (Zdigits2_pos m Hpos) as Hd.
    set (d := Zdigits2 m) in *.
    assert (inject_Z m + 1 <= inject_Z (2 ^ d))%Q as Hhi'
      by (apply inject_Z_succ_le; lia).
    assert (inject_Z (2 ^ (d - 1)) <= inject_Z m)%Q as Hlo'
      by (apply inject_Z_le; lia).
    pose proof (inject_Z_pow2 d e ltac:(lia)) as E1.
    pose proof (inject_Z_pow2 (d - 1) e ltac:(lia)) as E2.
    pose proof (pow2_pos e) as Hp.
    split; [lia|split].
    + pose proof (pow2_le (d + e) (Z.max (d + e - 53) (-1074) + 53) ltac:(lia)).
      revert Hx Hhi' E1 H Hp.
      generalize (pow2 (Z.max (d + e - 53) (-1074) + 53)) (pow2 (d + e)) (pow2 e)
        (inject_Z m) (inject_Z (2 ^ d)). intros; nra.
    + destruct (Z.eq_dec (Z.max (d + e - 53) (-1074)) (-1074)) as [E|E]; [left; exact E|right].
      replace (Z.max (d + e - 53) (-1074) + 52) with (d - 1 + e) by lia.
      revert Hx Hlo' E2 Hp.
      generalize (pow2 (d - 1 + e)) (pow2 e) (inject_Z m) (inject_Z (2 ^ (d - 1))).
      intros; nra.
Qed.

Lemma canonic_exp_mono x1 x2 e1 e2 :
  canonic_exp x1 e1 -> canonic_exp x2 e2 -> (x1 <= x2)%Q -> e1 <= e2.
Proof.
  intros (L1 & U1 & B1) (L2 & U2 & B2) Hx.
  destruct (Z_le_gt_dec e1 e2) as [|Hgt]; [assumption|exfalso].
  destruct B1 as [->|B1]; [lia|].
  pose proof (pow2_le (e2 + 53) (e1 + 52) ltac:(lia)). lra.
Qed.

(** ** Round to nearest, ties to even *)

Lemma rne_bounds m l : m <= round_nearest_even m l <= m + 1.
Proof. destruct l as [|[| |]]; cbn [round_nearest_even]; try destruct (Z.even m); lia. Qed.

Lemma rne_mono x1 x2 m1 m2 e l1 l2 :
  inbetween x1 m1 e l1 -> inbetween x2 m2 e l2 -> (x1 <= x2)%Q ->
  round_nearest_even m1 l1 <= round_nearest_even m2 l2.
Proof.
  intros H1 H2 Hx.
  pose proof (rne_bounds m1 l1). pose proof (rne_bounds m2 l2).
  destruct (Z.lt_trichotomy m1 m2) as [Hlt|[->|Hgt]]; [lia| |exfalso].
  - pose proof (pow2_pos e) as Hp.
    destruct l1 as [|[| |]], l2 as [|[| |]];
      cbn [round_nearest_even]; try destruct (Z.even m2); try lia;
      exfalso; cbn [inbetween] in H1, H2; revert H1 H2 Hp;
      generalize (pow2 e) (inject_Z m2); intros; lra.
  - apply inbetween_bounds in H1, H2.
    assert (inject_Z m2 + 1 <= inject_Z m1)%Q
      by (apply inject_Z_succ_le; lia).
    pose proof (pow2_pos e) as Hp. revert H1 H2 H1 Hp H3.
    generalize (pow2 e) (inject_Z m1) (inject_Z m2); intros; nra.
Qed.

(** ** [binary_round_aux]

    After the first shift the mantissa has at most 53 bits; rounding may
    carry into a 54th, which the second shift removes. *)

Lemma shr_fexp_no_shift M e :
  -1074 <= e -> 0 <= M < 2 ^ 53 ->
  shr_fexp prec emax M e loc_Exact = (Build_shr_record M false false, e).
Proof.
  intros He HM. unfold shr_fexp. rewrite fexp_eq. cbn [shr_record_of_loc].
  assert (Z.max (Zdigits2 M + e - 53) (-1074) - e <= 0) as Hn.
  { destruct (Z.eq_dec M 0) as [->|Hnz]; [cbn [Zdigits2]; lia|].
    assert (0 < M) as Hpos by lia.
    pose proof (Zdigits2_bounds M Hpos) as [Hlo _].
    pose proof (Zdigits2_pos M Hpos).
    assert (Zdigits2 M <= 53); [|lia].
    destruct (Z_le_gt_dec (Zdigits2 M) 53) as [|Hgt]; [assumption|exfalso].
    assert (2 ^ 53 <= 2 ^ (Zdigits2 M - 1)) by (apply Z.pow_le_mono_r; lia). lia. }
  destruct (Z.max (Zdigits2 M + e - 53) (-1074) - e) as [|p|p]; [reflexivity|lia|reflexivity].
Qed.

Lemma shr_fexp_carry e :
  -1074 <= e ->
  shr_fexp prec emax (2 ^ 53) e loc_Exact = (Build_shr_record (2 ^ 52) false false, e + 1).
Proof.
  intros He. unfold shr_fexp. rewrite fexp_eq.
  change (Zdigits2 (2 ^ 53)) with 54.
  replace (Z.max (54 + e - 53) (-1074) - e) with 1 by lia.
  reflexivity.
Qed.

Lemma binary_round_aux_spec sx mx ex lx x :
  0 <= mx -> inbetween x mx ex lx -> ex <= fexp prec emax (Zdigits2 mx + ex) ->
  exists e m l,
    canonic_exp x e /\ 0 <= m /\ inbetween x m e l /\
    binary_round_aux prec emax sx mx ex lx = round_result sx (round_nearest_even m l) e.
Proof.
  intros Hm Hx He.
  pose proof (canonic_exp_digits x mx ex lx Hm Hx He) as Hc.
  destruct (shr_fexp_located x mx ex lx Hm Hx He) as [He' [Hm' Hx']].
  unfold binary_round_aux.
  destruct (shr_fexp prec emax mx ex lx) as [mrs' e']; cbn [fst snd] in *.
  rewrite <- He' in Hc.
  exists e', (shr_m mrs'), (loc_of_shr_record mrs').
  split; [exact Hc|split; [exact Hm'|split; [exact Hx'|]]].
  set (M := round_nearest_even (shr_m mrs') (loc_of_shr_record mrs')).
  pose proof (rne_bounds (shr_m mrs') (loc_of_shr_record mrs')) as HM; fold M in HM.
  destruct Hc as (Hlo & Hhi & _).
  assert (shr_m mrs' < 2 ^ 53) as Hlt.
  { apply (scaled_lt_pow2 _ e'); [lia|].
    apply inbetween_bounds in Hx'. lra. }
  unfold round_result.
  destruct (Z.eqb_spec M (2 ^ 53)) as [E|E].
  - rewrite E, shr_fexp_carry by exact Hlo. cbn [shr_m].
    change (2 ^ 52) with (Zpos (2 ^ 52)). cbv iota beta.
    change (emax - prec) with 971. reflexivity.
  - rewrite shr_fexp_no_shift by lia. cbn [shr_m].
    change (emax - prec) with 971. reflexivity.
Qed.

(** ** Rounding is monotone *)

Lemma Rnd_nonneg x v : Rnd x v -> (0 <= x /\ 0 <= v)%Q.
Proof.
  intros (e & m & l & Hc & Hm & Hx & Hv).
  pose proof (rne_bounds m l) as HM.
  apply inbetween_bounds in Hx.
  pose proof (inject_Z_le 0 m Hm) as H0. change (inject_Z 0) with 0%Q in H0.
  pose proof (inject_Z_le 0 (round_nearest_even m l) ltac:(lia)) as H1.
  change (inject_Z 0) with 0%Q in H1.
  pose proof (pow2_pos e) as Hp.
  revert Hx Hv H0 H1 Hp.
  generalize (pow2 e) (inject_Z m) (inject_Z (round_nearest_even m l)); intros; nra.
Qed.

Lemma Rnd_mono x1 x2 v1 v2 :
  Rnd x1 v1 -> Rnd x2 v2 -> (x1 <= x2)%Q -> (v1 <= v2)%Q.
Proof.
  intros (e1 & m1 & l1 & Hc1 & Hm1 & Hx1 & Hv1) (e2 & m2 & l2 & Hc2 & Hm2 & Hx2 & Hv2) Hx.
  pose proof (canonic_exp_mono _ _ _ _ Hc1 Hc2 Hx) as He.
  destruct (Z.eq_dec e1 e2) as [->|Hne].
  - pose proof (rne_mono _ _ _ _ _ _ _ Hx1 Hx2 Hx) as HM.
    apply inject_Z_le in HM. pose proof (pow2_pos e2) as Hp.
    revert Hv1 Hv2 HM Hp.
    generalize (pow2 e2) (inject_Z (round_nearest_even m1 l1))
      (inject_Z (round_nearest_even m2 l2)); intros; nra.
  - (* the exponents differ: a power of two lies in between *)
    assert (v1 <= pow2 (e1 + 53))%Q as Hv1'.
    { destruct Hc1 as (_ & Hhi & _).
      assert (m1 < 2 ^ 53) as Hlt.
      { apply (scaled_lt_pow2 _ e1); [lia|]. apply inbetween_bounds in Hx1. lra. }
      pose proof (rne_bounds m1 l1) as HM.
      assert (inject_Z (round_nearest_even m1 l1) <= inject_Z (2 ^ 53))%Q as HM'
        by (apply inject_Z_le; lia).
      pose proof (inject_Z_pow2 53 e1 ltac:(lia)) as E. rewrite Z.add_comm in E.
      pose proof (pow2_pos e1) as Hp. revert Hv1 HM' E Hp.
      generalize (pow2 (e1 + 53)) (pow2 e1) (inject_Z (round_nearest_even m1 l1))
        (inject_Z (2 ^ 53)); intros; nra. }
    assert (pow2 (e2 + 52) <= v2)%Q as Hv2'.
    { destruct Hc2 as (Hlo & _ & [->|Hb]); [destruct Hc1; lia|].
      assert (2 ^ 52 <= m2) as Hge.
      { pose proof (inbetween_bounds _ _ _ _ Hx2) as [_ Hu].
        assert (2 ^ 52 < m2 + 1); [|lia].
        rewrite Zlt_Qlt. pose proof (inject_Z_pow2 52 e2 ltac:(lia)) as E.
        rewrite Z.add_comm in E. rewrite inject_Z_plus. change (inject_Z 1) with 1%Q.
        pose proof (pow2_pos e2) as Hp. revert Hu Hb E Hp.
        generalize (pow2 (e2 + 52)) (pow2 e2) (inject_Z m2) (inject_Z (2 ^ 52)) x2.
        intros; nra. }
      pose proof (rne_bounds m2 l2) as HM.
      assert (inject_Z (2 ^ 52) <= inject_Z (round_nearest_even m2 l2))%Q as HM'
        by (apply inject_Z_le; lia).
      pose proof (inject_Z_pow2 52 e2 ltac:(lia)) as E. rewrite Z.add_comm in E.
      pose proof (pow2_pos e2) as Hp. revert Hv2 HM' E Hp.
      generalize (pow2 (e2 + 52)) (pow2 e2) (inject_Z (round_nearest_even m2 l2))
        (inject_Z (2 ^ 52)); intros; nra. }
    pose proof (pow2_le (e1 + 53) (e2 + 52) ltac:(lia)). lra.
Qed.

Lemma Rnd_unique x v1 v2 : Rnd x v1 -> Rnd x v2 -> (v1 == v2)%Q.
Proof.
  intros H1 H2. apply Qle_antisym.
  - apply (Rnd_mono x x); [assumption..|apply Qle_refl].
  - apply (Rnd_mono x x); [assumption..|apply Qle_refl].
Qed.

(** ** Finite doubles as rationals *)

Lemma SFmag_nonneg r : (0 <= SFmag r)%Q.
Proof.
  destruct r as [s|s| |s m e]; cbn [SFmag]; try apply Qle_refl.
  pose proof (pow2_pos e) as Hp.
  assert (0 < inject_Z (Zpos m))%Q as Hm by (change 0%Q with (inject_Z 0); rewrite <- Zlt_Qlt; lia).
  revert Hp Hm; generalize (pow2 e) (inject_Z (Zpos m)); intros; nra.
Qed.

Lemma SFmag_finite_pos s m e : (0 < SFmag (S754_finite s m e))%Q.
Proof.
  cbn [SFmag]. pose proof (pow2_pos e) as Hp.
  assert (0 < inject_Z (Zpos m))%Q as Hm by (change 0%Q with (inject_Z 0); rewrite <- Zlt_Qlt; lia).
  revert Hp Hm; generalize (pow2 e) (inject_Z (Zpos m)); intros; nra.
Qed.

Lemma round_result_value sx M e :
  0 <= M <= 2 ^ 53 -> e <= 970 ->
  SFfinite (round_result sx M e) = true /\
  SFsign (round_result sx M e) = sx /\
  (SFmag (round_result sx M e) == inject_Z M * pow2 e)%Q.
Proof.
  intros HM He. unfold round_result.
  destruct (Z.eqb_spec M (2 ^ 53)) as [->|Hne].
  - destruct (Z.leb_spec (e + 1) 971) as [_|]; [|lia].
    cbn [SFfinite SFsign SFmag]. split; [reflexivity|split; [reflexivity|]].
    rewrite pow2_succ. change (inject_Z (2 ^ 53)) with (2 * inject_Z (Zpos (2 ^ 52)))%Q. ring.
  - destruct M as [|p|p]; [| |lia].
    + cbn [SFfinite SFsign SFmag]. split; [reflexivity|split; [reflexivity|]].
      change (inject_Z 0) with 0%Q. ring.
    + destruct (Z.leb_spec e 971) as [_|]; [|lia].
      cbn [SFfinite SFsign SFmag]. split; [reflexivity|split; reflexivity].
Qed.

Lemma canonic_exp_bounded x e :
  canonic_exp x e -> (x < pow2 1023)%Q -> e <= 970.
Proof.
  intros (_ & _ & [->|Hb]) Hx; [lia|].
  assert (e + 52 < 1023); [|lia].
  apply pow2_lt_inv. lra.
Qed.

Lemma canonic_exp_mantissa x e m l :
  canonic_exp x e -> inbetween x m e l -> m < 2 ^ 53 /\ (e = -1074 \/ 2 ^ 52 <= m).
Proof.
  intros (Hlo & Hhi & Hb) Hx. apply inbetween_bounds in Hx. split.
  - apply (scaled_lt_pow2 _ e); [lia|lra].
  - destruct Hb as [->|Hb]; [left; reflexivity|right].
    assert (2 ^ 52 < m + 1); [|lia].
    rewrite Zlt_Qlt. pose proof (inject_Z_pow2 52 e ltac:(lia)) as E.
    rewrite Z.add_comm in E. rewrite inject_Z_plus. change (inject_Z 1) with 1%Q.
    pose proof (pow2_pos e) as Hp. destruct Hx as [_ Hu]. revert Hu Hb E Hp.
    generalize (pow2 (e + 52)) (pow2 e) (inject_Z m) (inject_Z (2 ^ 52)) x.
    intros; nra.
Qed.

Lemma binary_round_aux_Rnd sx mx ex lx x :
  0 <= mx -> inbetween x mx ex lx -> ex <= fexp prec emax (Zdigits2 mx + ex) ->
  (x < pow2 1023)%Q ->
  SFfinite (binary_round_aux prec emax sx mx ex lx) = true /\
  SFsign (binary_round_aux prec emax sx mx ex lx) = sx /\
  Rnd x (SFmag (binary_round_aux prec emax sx mx ex lx)).
Proof.
  intros Hm Hx He Hb.
  destruct (binary_round_aux_spec sx mx ex lx x Hm Hx He) as (e & m & l & Hc & Hm' & Hx' & ->).
  pose proof (canonic_exp_bounded _ _ Hc Hb) as He'.
  pose proof (canonic_exp_mantissa _ _ _ _ Hc Hx') as [Hlt _].
  pose proof (rne_bounds m l) as HM.
  destruct (round_result_value sx (round_nearest_even m l) e ltac:(lia) He') as (F & S & V).
  split; [exact F|split; [exact S|]].
  exists e, m, l. auto.
Qed.

(** [Rnd] respects equality of rationals. *)
Lemma inbetween_compat x x' m e l : (x == x')%Q -> inbetween x m e l -> inbetween x' m e l.
Proof.
  intros E; destruct l as [|[| |]]; cbn [inbetween]; intros H;
    revert H; generalize (inject_Z m) (pow2 e); intros a p H; try split; lra.
Qed.

Lemma canonic_exp_compat x x' e : (x == x')%Q -> canonic_exp x e -> canonic_exp x' e.
Proof.
  intros E (Hlo & Hhi & Hb). split; [exact Hlo|split; [lra|]].
  destruct Hb as [Hb|Hb]; [left; exact Hb|right; lra].
Qed.

Lemma Rnd_compat x x' v v' : (x == x')%Q -> (v == v')%Q -> Rnd x v -> Rnd x' v'.
Proof.
  intros Ex Ev (e & m & l & Hc & Hm & Hx & Hv).
  exists e, m, l. split; [eapply canonic_exp_compat; eassumption|].
  split; [exact Hm|split; [eapply inbetween_compat; eassumption|]].
  rewrite <- Ev; exact Hv.
Qed.

(** A value with at most 53 significant bits at an admissible exponent
    rounds to itself. *)
Lemma Rnd_exact M e :
  -1074 <= e -> 0 <= M < 2 ^ 53 -> (e = -1074 \/ 2 ^ 52 <= M) ->
  Rnd (inject_Z M * pow2 e) (inject_Z M * pow2 e).
Proof.
  intros He HM Hn. exists e, M, loc_Exact.
  split; [|split; [lia|split; cbn [inbetween round_nearest_even]; reflexivity]].
  split; [exact He|split].
  - pose proof (inject_Z_pow2 53 e ltac:(lia)) as E. rewrite Z.add_comm in E.
    assert (inject_Z M + 1 <= inject_Z (2 ^ 53))%Q by (apply inject_Z_succ_le; lia).
    pose proof (pow2_pos e) as Hp. revert E H Hp.
    generalize (pow2 (e + 53)) (pow2 e) (inject_Z M) (inject_Z (2 ^ 53)); intros; nra.
  - destruct Hn as [Hn|Hn]; [left; exact Hn|right].
    pose proof (inject_Z_pow2 52 e ltac:(lia)) as E. rewrite Z.add_comm in E.
    assert (inject_Z (2 ^ 52) <= inject_Z M)%Q by (apply inject_Z_le; lia).
    pose proof (pow2_pos e) as Hp. revert E H Hp.
    generalize (pow2 (e + 52)) (pow2 e) (inject_Z M) (inject_Z (2 ^ 52)); intros; nra.
Qed.

Lemma Rnd_idem x v : Rnd x v -> Rnd v v.
Proof.
  intros (e & m & l & Hc & Hm & Hx & Hv).
  pose proof (canonic_exp_mantissa _ _ _ _ Hc Hx) as [Hlt Hn].
  pose proof (rne_bounds m l) as HM.
  destruct Hc as (Hlo & _ & _).
  set (M := round_nearest_even m l) in *.
  destruct (Z.eq_dec M (2 ^ 53)) as [E|E].
  - assert (v == inject_Z (2 ^ 52) * pow2 (e + 1))%Q as Ev.
    { rewrite Hv, E, pow2_succ.
      change (inject_Z (2 ^ 53)) with (2 * inject_Z (2 ^ 52))%Q. ring. }
    apply (Rnd_compat (inject_Z (2 ^ 52) * pow2 (e + 1)) _ (inject_Z (2 ^ 52) * pow2 (e + 1)));
      [symmetry; exact Ev|symmetry; exact Ev|].
    apply Rnd_exact; lia.
  - apply (Rnd_compat (inject_Z M * pow2 e) _ (inject_Z M * pow2 e));
      [symmetry; exact Hv|symmetry; exact Hv|].
    apply Rnd_exact; lia.
Qed.

Lemma Rnd_0 : Rnd 0 0.
Proof.
  apply (Rnd_compat (inject_Z 0 * pow2 (-1074)) _ (inject_Z 0 * pow2 (-1074)));
    [change (inject_Z 0) with 0%Q; ring..|].
  apply Rnd_exact; lia.
Qed.

(** ** Signed rounding *)

Lemma RndS_mono x1 x2 v1 v2 :
  RndS x1 v1 -> RndS x2 v2 -> (x1 <= x2)%Q -> (v1 <= v2)%Q.
Proof.
  intros [[P1 R1]|[N1 R1]] [[P2 R2]|[N2 R2]] Hx.
  - exact (Rnd_mono _ _ _ _ R1 R2 Hx).
  - lra.
  - apply Rnd_nonneg in R1, R2. lra.
  - assert (- v2 <= - v1)%Q; [|lra].
    apply (Rnd_mono _ _ _ _ R2 R1). lra.
Qed.

Lemma RndS_compat x x' v v' : (x == x')%Q -> (v == v')%Q -> RndS x v -> RndS x' v'.
Proof.
  intros Ex Ev [[P R]|[N R]]; [left|right]; (split; [lra|]).
  - exact (Rnd_compat _ _ _ _ Ex Ev R).
  - apply (Rnd_compat (- x) _ (- v)); [lra|lra|exact R].
Qed.

Lemma RndS_idem x v : RndS x v -> RndS v v.
Proof.
  intros [[P R]|[N R]].
  - left; split; [apply Rnd_nonneg in R; lra|exact (Rnd_idem _ _ R)].
  - pose proof (Rnd_nonneg _ _ R) as [_ Hv].
    destruct (Qlt_le_dec v 0) as [Hlt|Hge].
    + right; split; [exact Hlt|exact (Rnd_idem _ _ R)].
    + left; split; [exact Hge|].
      apply (Rnd_compat 0 _ 0); [lra|lra|exact Rnd_0].
Qed.

Lemma RndS_sign x v : RndS x v -> ((0 <= x)%Q -> (0 <= v)%Q) /\ ((x <= 0)%Q -> (v <= 0)%Q).
Proof.
  intros [[P R]|[N R]]; pose proof (Rnd_nonneg _ _ R) as [Hx Hv]; split; intros H; try lra.
  assert (x == 0)%Q as E by lra.
  pose proof (Rnd_unique 0 v 0 (Rnd_compat _ _ _ _ E (Qeq_refl v) R) Rnd_0). lra.
Qed.

Lemma rounds_to_representable x r : rounds_to x r -> representable r.
Proof. intros [F R]; split; [exact F|exact (RndS_idem _ _ R)]. Qed.

Lemma rounds_to_mono x1 x2 r1 r2 :
  rounds_to x1 r1 -> rounds_to x2 r2 -> (x1 <= x2)%Q -> (SF2Q r1 <= SF2Q r2)%Q.
Proof. intros [_ R1] [_ R2]; exact (RndS_mono _ _ _ _ R1 R2). Qed.

Lemma rounds_to_compat x x' r : (x == x')%Q -> rounds_to x r -> rounds_to x' r.
Proof. intros E [F R]; split; [exact F|exact (RndS_compat _ _ _ _ E (Qeq_refl _) R)]. Qed.

(** Packaging a result of [binary_round_aux]. *)
Lemma rounds_to_intro x r (s : bool) :
  SFfinite r = true -> SFsign r = s -> Rnd (if s then - x else x)%Q (SFmag r) ->
  (if s then x <= 0 else 0 <= x)%Q ->
  rounds_to x r.
Proof.
  intros F S R Hs. split; [exact F|]. unfold SF2Q. rewrite S.
  destruct s.
  - destruct (Qlt_le_dec x 0) as [Hlt|Hge].
    + right. split; [exact Hlt|].
      apply (Rnd_compat (- x) _ (SFmag r)); [lra|lra|exact R].
    + left. split; [exact Hge|].
      assert (x == 0)%Q as E by lra.
      assert (SFmag r == 0)%Q as E'.
      { apply (Rnd_unique 0); [|exact Rnd_0].
        apply (Rnd_compat (- x) _ (SFmag r)); [lra|lra|exact R]. }
      apply (Rnd_compat 0 _ 0); [lra|lra|exact Rnd_0].
  - left. split; [exact Hs|exact R].
Qed.

(** ** [binary_round] and [binary_normalize] *)

Lemma Pos_iter_xO mx d : Zpos (Pos.iter xO mx d) = Zpos mx * 2 ^ Zpos d.
Proof.
  induction d as [|d IH] using Pos.peano_ind.
  - cbn [Pos.iter]. lia.
  - rewrite Pos.iter_succ, Pos2Z.inj_xO, IH, Pos2Z.inj_succ, Z.pow_succ_r by lia. ring.
Qed.

Lemma shl_align_spec mx ex ex' :
  snd (shl_align mx ex ex') = Z.min ex ex' /\
  Zpos (fst (shl_align mx ex ex')) = Zpos mx * 2 ^ (ex - Z.min ex ex').
Proof.
  unfold shl_align. destruct (ex' - ex) as [|d|d] eqn:E; cbn [fst snd].
  - replace (Z.min ex ex') with ex by lia. rewrite Z.sub_diag. split; lia.
  - replace (Z.min ex ex') with ex by lia. rewrite Z.sub_diag. split; lia.
  - replace (Z.min ex ex') with ex' by lia. split; [reflexivity|].
    rewrite Pos_iter_xO. f_equal. f_equal. lia.
Qed.

Lemma Zdigits2_shift m k : 0 < m -> 0 <= k -> Zdigits2 (m * 2 ^ k) = Zdigits2 m + k.
Proof.
  intros Hm Hk. pose proof (Zdigits2_bounds m Hm) as [Hlo Hhi].
  pose proof (Zdigits2_pos m Hm) as Hd.
  apply Zdigits2_unique; [lia|].
  replace (Zdigits2 m + k - 1) with (Zdigits2 m - 1 + k) by lia.
  rewrite !Z.pow_add_r by lia.
  assert (0 < 2 ^ k) by (apply Z.pow_pos_nonneg; lia). nia.
Qed.

(** The aligned mantissa still denotes [mx * 2^ex], and sits at or below
    the exponent it will be rounded at. *)
Lemma shl_align_fexp mx ex :
  let mz := fst (shl_align mx ex (fexp prec emax (Zpos (digits2_pos mx) + ex))) in
  let ez := snd (shl_align mx ex (fexp prec emax (Zpos (digits2_pos mx) + ex))) in
  (inject_Z (Zpos mz) * pow2 ez == inject_Z (Zpos mx) * pow2 ex)%Q /\
  ez <= fexp prec emax (Zdigits2 (Zpos mz) + ez).
Proof.
  intros mz ez.
  destruct (shl_align_spec mx ex (fexp prec emax (Zpos (digits2_pos mx) + ex))) as [He Hm].
  fold mz in Hm; fold ez in He.
  set (k := ex - Z.min ex (fexp prec emax (Zpos (digits2_pos mx) + ex))) in *.
  assert (0 <= k) as Hk by lia.
  split.
  - rewrite Hm, inject_Z_mult, (pow2_split ex ez).
    replace (ex - ez) with k by lia. rewrite (pow2_Z k Hk). ring.
  - rewrite Hm, Zdigits2_shift by lia. cbn [Zdigits2].
    subst k. rewrite !fexp_eq in *. lia.
Qed.

Lemma binary_round_correct sx mx ex :
  (inject_Z (Zpos mx) * pow2 ex < pow2 1023)%Q ->
  SFfinite (binary_round prec emax sx mx ex) = true /\
  SFsign (binary_round prec emax sx mx ex) = sx /\
  Rnd (inject_Z (Zpos mx) * pow2 ex) (SFmag (binary_round prec emax sx mx ex)).
Proof.
  intros Hb. unfold binary_round.
  destruct (shl_align_fexp mx ex) as [Hv He].
  destruct (shl_align mx ex (fexp prec emax (Zpos (digits2_pos mx) + ex))) as [mz ez].
  cbn [fst snd] in *.
  apply binary_round_aux_Rnd; [lia| |exact He|exact Hb].
  cbn [inbetween]. symmetry; exact Hv.
Qed.

(** Without a bound, the result may be an infinity, but a value of one or
    more never rounds to zero. *)
Lemma binary_round_nonzero sx mx ex :
  (1 <= inject_Z (Zpos mx) * pow2 ex)%Q ->
  SFeqb (binary_round prec emax sx mx ex) (S754_zero false) = false.
Proof.
  intros Hx. unfold binary_round.
  destruct (shl_align_fexp mx ex) as [Hv He].
  destruct (shl_align mx ex (fexp prec emax (Zpos (digits2_pos mx) + ex))) as [mz ez].
  cbn [fst snd] in *.
  destruct (binary_round_aux_spec sx (Zpos mz) ez loc_Exact (inject_Z (Zpos mx) * pow2 ex))
    as (e & m & l & Hc & Hm & Hin & ->); [lia|cbn [inbetween]; symmetry; exact Hv|exact He|].
  pose proof (canonic_exp_mantissa _ _ _ _ Hc Hin) as [Hlt Hn].
  pose proof (rne_bounds m l) as HM.
  assert (0 < m) as Hpos.
  { destruct Hn as [->|Hn]; [|lia].
    destruct (Z.eq_dec m 0) as [->|]; [exfalso|lia].
    apply inbetween_bounds in Hin. change (inject_Z 0) with 0%Q in Hin.
    pose proof (pow2_lt (-1074) 0 ltac:(lia)) as Hp. change (pow2 0) with 1%Q in Hp. lra. }
  unfold round_result.
  destruct (Z.eqb_spec (round_nearest_even m l) (2 ^ 53)) as [E|E].
  - destruct (e + 1 <=? 971), sx; reflexivity.
  - destruct (round_nearest_even m l) as [|p|p] eqn:EM; [lia| |lia].
    destruct (e <=? 971), sx; reflexivity.
Qed.

Lemma binary_normalize_correct m e sz :
  (inject_Z (Z.abs m) * pow2 e < pow2 1023)%Q ->
  rounds_to (inject_Z m * pow2 e) (binary_normalize prec emax m e sz).
Proof.
  intros Hb. pose proof (pow2_pos e) as Hp.
  destruct m as [|p|p]; cbn [binary_normalize Z.abs] in *.
  - split; [reflexivity|]. unfold SF2Q; cbn [SFmag SFsign].
    apply (RndS_compat 0 _ 0); [change (inject_Z 0) with 0%Q; ring|destruct sz; lra|].
    left; split; [lra|exact Rnd_0].
  - destruct (binary_round_correct false p e Hb) as (F & S & R).
    apply (rounds_to_intro _ _ false); [exact F|exact S|exact R|].
    apply Rnd_nonneg in R. lra.
  - destruct (binary_round_correct true p e Hb) as (F & S & R).
    apply (rounds_to_intro _ _ true); [exact F|exact S| |].
    + apply (Rnd_compat (inject_Z (Zpos p) * pow2 e) _ (SFmag (binary_round prec emax true p e)));
        [|reflexivity|exact R].
      change (Zneg p) with (- Zpos p). rewrite inject_Z_opp. ring.
    + apply Rnd_nonneg in R. change (Zneg p) with (- Zpos p). rewrite inject_Z_opp. lra.
Qed.

(** ** [(double) z] *)

Lemma of_long_correct z :
  Z.abs z < 2 ^ 1023 -> rounds_to (inject_Z z) (b64_of_long z).
Proof.
  intros Hz. apply (rounds_to_compat (inject_Z z * pow2 0)); [change (pow2 0) with 1%Q; ring|].
  apply binary_normalize_correct.
  change (pow2 0) with 1%Q. rewrite (pow2_Z 1023) by lia.
  rewrite Qmult_1_r, <- Zlt_Qlt. exact Hz.
Qed.

Lemma of_long_eq0 z : b64_eq0 (b64_of_long z) = (z =? 0).
Proof.
  unfold b64_eq0, b64_of_long.
  destruct z as [|p|p]; cbn [binary_normalize Z.eqb]; [reflexivity| |];
    apply binary_round_nonzero; change (pow2 0) with 1%Q;
    rewrite Qmult_1_r; change 1%Q with (inject_Z 1); rewrite <- Zle_Qle; lia.
Qed.


Lemma b64_eq0_spec r : SFfinite r = true -> (b64_eq0 r = true <-> (SF2Q r == 0)%Q).
Proof.
  destruct r as [s|s| |s m e]; cbn [SFfinite]; try discriminate; intros _.
  - unfold SF2Q; cbn [SFsign SFmag]. split; [destruct s; lra|reflexivity].
  - pose proof (SFmag_finite_pos s m e) as Hp.
    cbn [SFmag] in Hp. unfold b64_eq0, SF2Q; cbn [SFsign SFmag SFeqb SFcompare].
    destruct s; split; intros H; try discriminate; exfalso; lra.
Qed.

(** ** Division *)

Lemma new_location_spec n k :
  0 <= k < n ->
  new_location n k = if k =? 0 then loc_Exact else loc_Inexact (2 * k ?= n).
Proof.
  intros Hk. unfold new_location, new_location_even, new_location_odd.
  destruct (Z.even n) eqn:En; [reflexivity|].
  destruct (Z.eqb_spec k 0) as [|Hnz]; [reflexivity|].
  assert (Z.odd n = true) as Ho by (rewrite <- Z.negb_even, En; reflexivity).
  apply Z.odd_spec in Ho as [j Hj].
  f_equal.
  destruct (Z.compare_spec (2 * k + 1) n), (Z.compare_spec (2 * k) n); try reflexivity; lia.
Qed.

Lemma SFdiv_core_binary_spec mx ex my ey :
  exists q e' r s,
    SFdiv_core_binary prec emax (Zpos mx) ex (Zpos my) ey =
      (q, e', if r =? 0 then loc_Exact else loc_Inexact (2 * r ?= Zpos my)) /\
    0 <= s /\ ex - ey = s + e' /\
    Zpos mx * 2 ^ s = Zpos my * q + r /\ 0 <= r < Zpos my /\
    0 <= q /\ e' <= fexp prec emax (Zdigits2 q + e').
Proof.
  unfold SFdiv_core_binary.
  set (d1 := Zdigits2 (Zpos mx)). set (d2 := Zdigits2 (Zpos my)).
  set (e' := Z.min (fexp prec emax (d1 + ex - (d2 + ey))) (ex - ey)).
  set (s := ex - ey - e').
  assert (0 <= s) as Hs by (subst s e'; lia).
  set (m' := match s with Zpos _ => Z.shiftl (Zpos mx) s | Z0 => Zpos mx | Zneg _ => 0 end).
  assert (m' = Zpos mx * 2 ^ s) as Hm'.
  { subst m'. destruct s as [|p|p] eqn:E; [rewrite Z.pow_0_r; lia| |lia].
    apply Z.shiftl_mul_pow2; lia. }
  pose proof (Z_div_mod m' (Zpos my) ltac:(lia)) as Hdiv.
  destruct (Z.div_eucl m' (Zpos my)) as [q r]. destruct Hdiv as [Hqr Hr].
  exists q, e', r, s.
  rewrite new_location_spec by exact Hr.
  assert (0 < 2 ^ s) as Hps by (apply Z.pow_pos_nonneg; lia).
  assert (0 <= q) as Hq by nia.
  split; [reflexivity|]. split; [exact Hs|]. split; [subst s; lia|].
  split; [lia|]. split; [exact Hr|]. split; [exact Hq|].
  (* enough digits in the quotient *)
  pose proof (Zdigits2_bounds (Zpos mx) ltac:(lia)) as [Hlo1 _].
  pose proof (Zdigits2_bounds (Zpos my) ltac:(lia)) as [_ Hhi2].
  pose proof (Zdigits2_pos (Zpos mx) ltac:(lia)) as Hd1.
  pose proof (Zdigits2_pos (Zpos my) ltac:(lia)) as Hd2.
  fold d1 in Hlo1, Hd1. fold d2 in Hhi2, Hd2.
  assert (d1 - d2 + s <= Zdigits2 q) as Hdq.
  { destruct (Z_le_gt_dec (d1 - d2 + s) 0) as [Hle|Hgt].
    - destruct q as [|p|p]; cbn [Zdigits2]; lia.
    - assert (2 ^ (d1 - d2 + s - 1) <= q) as Hq'.
      { assert (2 ^ (d1 - 1) * 2 ^ s = 2 ^ (d1 - d2 + s - 1) * 2 ^ d2) as E.
        { rewrite <- !Z.pow_add_r by lia. f_equal. lia. }
        assert (0 < 2 ^ (d1 - d2 + s - 1)) by (apply Z.pow_pos_nonneg; lia).
        nia. }
      assert (0 < q) as Hqpos.
      { assert (0 < 2 ^ (d1 - d2 + s - 1)) by (apply Z.pow_pos_nonneg; lia). lia. }
      pose proof (Zdigits2_bounds q Hqpos) as [_ Hhi].
      destruct (Z_le_gt_dec (d1 - d2 + s) (Zdigits2 q)) as [|Hlt]; [assumption|exfalso].
      assert (2 ^ Zdigits2 q <= 2 ^ (d1 - d2 + s - 1)).
      { apply Z.pow_le_mono_r; [lia|]. lia. }
      lia. }
  subst e' s. rewrite !fexp_eq in *. lia.
Qed.

Lemma div_located_algebra (A B Ps Pe Pey q r : Q) :
  (0 < B -> 0 < Pey -> A * Ps == B * q + r ->
   A * (Ps * Pe * Pey) / (B * Pey) == (q + r / B) * Pe)%Q.
Proof.
  intros HB HP H.
  setoid_replace (A * (Ps * Pe * Pey) / (B * Pey))%Q with ((A * Ps) * Pe / B)%Q
    using relation Qeq by (field; split; lra).
  rewrite H. field. lra.
Qed.

Lemma inbetween_quotient (B q r Pe x : Q) (mq mr mB e : Z) :
  B = inject_Z mB -> q = inject_Z mq -> r = inject_Z mr -> Pe = pow2 e ->
  0 <= mr < mB ->
  (x == (q + r / B) * Pe)%Q ->
  inbetween x mq e (if mr =? 0 then loc_Exact else loc_Inexact (2 * mr ?= mB)).
Proof.
  intros -> -> -> -> Hr Hx.
  pose proof (pow2_pos e) as Hp.
  assert (0 < inject_Z mB)%Q as HB by (change 0%Q with (inject_Z 0); rewrite <- Zlt_Qlt; lia).
  destruct (Z.eqb_spec mr 0) as [->|Hnz].
  - cbn [inbetween]. rewrite Hx. change (inject_Z 0) with 0%Q. field. lra.
  - assert (0 < inject_Z mr / inject_Z mB)%Q as Hpos.
    { apply Qlt_shift_div_l; [exact HB|].
      rewrite Qmult_0_l. change 0%Q with (inject_Z 0); rewrite <- Zlt_Qlt; lia. }
    assert (inject_Z mr / inject_Z mB < 1)%Q as Hlt1.
    { apply Qlt_shift_div_r; [exact HB|]. rewrite Qmult_1_l, <- Zlt_Qlt; lia. }
    destruct (Z.compare_spec (2 * mr) mB) as [E|L|G]; cbn [inbetween].
    + assert (inject_Z mr / inject_Z mB == 1 # 2)%Q as Eh.
      { rewrite <- E, inject_Z_mult. change (inject_Z 2) with 2%Q. field.
        intros H0. rewrite <- E, inject_Z_mult in HB. change (inject_Z 2) with 2%Q in HB. lra. }
      rewrite <- Eh. exact Hx.
    + assert (inject_Z mr / inject_Z mB < 1 # 2)%Q as Hh.
      { apply Qlt_shift_div_r; [exact HB|].
        assert (2 * inject_Z mr < inject_Z mB)%Q; [|lra].
        change 2%Q with (inject_Z 2). rewrite <- inject_Z_mult, <- Zlt_Qlt. exact L. }
      revert Hx Hpos Hh Hp.
      generalize (inject_Z mr / inject_Z mB)%Q (pow2 e) (inject_Z mq); intros; split; nra.
    + assert ((1 # 2) < inject_Z mr / inject_Z mB)%Q as Hh.
      { apply Qlt_shift_div_l; [exact HB|].
        assert (inject_Z mB < 2 * inject_Z mr)%Q; [|lra].
        change 2%Q with (inject_Z 2). rewrite <- inject_Z_mult, <- Zlt_Qlt. exact G. }
      revert Hx Hlt1 Hh Hp.
      generalize (inject_Z mr / inject_Z mB)%Q (pow2 e) (inject_Z mq); intros; split; nra.
Qed.

Lemma SFdiv_finite_correct sx mx ex sy my ey :
  (SFmag (S754_finite sx mx ex) / SFmag (S754_finite sy my ey) < pow2 1023)%Q ->
  rounds_to (SF2Q (S754_finite sx mx ex) / SF2Q (S754_finite sy my ey))
            (SFdiv prec emax (S754_finite sx mx ex) (S754_finite sy my ey)).
Proof.
  intros Hb. cbn [SFdiv].
  destruct (SFdiv_core_binary_spec mx ex my ey)
    as (q & e' & r & s & -> & Hs & He & Hqr & Hr & Hq & Hpre).
  pose proof (SFmag_finite_pos sx mx ex) as Ha.
  pose proof (SFmag_finite_pos sy my ey) as Hb'.
  cbn [SFmag] in *.
  pose proof (pow2_pos ex) as Hpx. pose proof (pow2_pos ey) as Hpy.
  assert (0 < inject_Z (Zpos my))%Q as HB
    by (change 0%Q with (inject_Z 0); rewrite <- Zlt_Qlt; lia).
  assert (inbetween (inject_Z (Zpos mx) * pow2 ex / (inject_Z (Zpos my) * pow2 ey)) q e'
            (if r =? 0 then loc_Exact else loc_Inexact (2 * r ?= Zpos my))) as Hin.
  { apply (inbetween_quotient (inject_Z (Zpos my)) (inject_Z q) (inject_Z r) (pow2 e') _ q r (Zpos my) e');
      try reflexivity; [exact Hr|].
    assert (pow2 ex == pow2 s * pow2 e' * pow2 ey)%Q as ->.
    { rewrite <- !pow2_add. replace (s + e' + ey) with ex by lia. reflexivity. }
    apply div_located_algebra; [exact HB|exact Hpy|].
    rewrite (pow2_Z s Hs), <- !inject_Z_mult, <- inject_Z_plus, Hqr. reflexivity. }
  destruct (binary_round_aux_Rnd (xorb sx sy) q e' _ _ Hq Hin Hpre Hb) as (F & S & R).
  assert (0 < inject_Z (Zpos mx) * pow2 ex / (inject_Z (Zpos my) * pow2 ey))%Q as Hquot.
  { apply Qlt_shift_div_l; [exact Hb'|]. lra. }
  apply (rounds_to_intro _ _ (xorb sx sy)); [exact F|exact S| |].
  - unfold SF2Q; cbn [SFsign SFmag].
    eapply Rnd_compat; [|reflexivity|exact R].
    destruct sx, sy; cbn [xorb]; field; lra.
  - unfold SF2Q; cbn [SFsign SFmag].
    destruct sx, sy; cbn [xorb].
    + setoid_replace (- (inject_Z (Z.pos mx) * pow2 ex) / - (inject_Z (Z.pos my) * pow2 ey))%Q
        with (inject_Z (Zpos mx) * pow2 ex / (inject_Z (Zpos my) * pow2 ey))%Q using relation Qeq by (field; lra).
      lra.
    + setoid_replace (- (inject_Z (Z.pos mx) * pow2 ex) / (inject_Z (Z.pos my) * pow2 ey))%Q
        with (- (inject_Z (Zpos mx) * pow2 ex / (inject_Z (Zpos my) * pow2 ey)))%Q using relation Qeq by (field; lra).
      lra.
    + setoid_replace ((inject_Z (Z.pos mx) * pow2 ex) / - (inject_Z (Z.pos my) * pow2 ey))%Q
        with (- (inject_Z (Zpos mx) * pow2 ex / (inject_Z (Zpos my) * pow2 ey)))%Q using relation Qeq by (field; lra).
      lra.
    + lra.
Qed.

(** ** Addition and subtraction *)

Lemma SF2Q_zero s : (SF2Q (S754_zero s) == 0)%Q.
Proof. destruct s; reflexivity. Qed.

Lemma SF2Q_finite s m e :
  (SF2Q (S754_finite s m e) == inject_Z (cond_Zopp s (Zpos m)) * pow2 e)%Q.
Proof.
  unfold SF2Q; cbn [SFsign SFmag]. destruct s; cbn [cond_Zopp]; [|reflexivity].
  rewrite inject_Z_opp. ring.
Qed.

Lemma aligned_value s m e ez :
  ez <= e ->
  (inject_Z (cond_Zopp s (Zpos (fst (shl_align m e ez)))) * pow2 ez
   == SF2Q (S754_finite s m e))%Q.
Proof.
  intros He. destruct (shl_align_spec m e ez) as [_ Hm].
  replace (Z.min e ez) with ez in Hm by lia.
  rewrite SF2Q_finite, (pow2_split e ez), (pow2_Z (e - ez)) by lia.
  destruct s; cbn [cond_Zopp]; rewrite ?inject_Z_opp, Hm, inject_Z_mult; ring.
Qed.

Lemma abs_scaled_bound m e (B : Q) :
  (- B < inject_Z m * pow2 e < B)%Q -> (inject_Z (Z.abs m) * pow2 e < B)%Q.
Proof.
  intros H. destruct (Z.abs_spec m) as [[_ ->]|[_ ->]]; [lra|].
  rewrite inject_Z_opp. lra.
Qed.

Lemma RndS_0 : RndS 0 0.
Proof. left; split; [lra|exact Rnd_0]. Qed.

Lemma RndS_opp x v : RndS x v -> RndS (- x) (- v).
Proof.
  intros H. pose proof (RndS_sign _ _ H) as [Hp Hn].
  destruct H as [[P R]|[N R]].
  - destruct (Qlt_le_dec 0 x) as [Hlt|Hle].
    + right; split; [lra|]. apply (Rnd_compat x _ v); [lra|lra|exact R].
    + left; split; [lra|].
      assert (x == 0)%Q as Ex by lra. assert (v == 0)%Q as Ev by lra.
      apply (Rnd_compat 0 _ 0); [lra|lra|exact Rnd_0].
  - left; split; [lra|exact R].
Qed.

Lemma rounds_to_zero s x : (x == 0)%Q -> rounds_to x (S754_zero s).
Proof.
  intros E; split; [reflexivity|].
  apply (RndS_compat 0 _ 0); [lra|rewrite SF2Q_zero; reflexivity|exact RndS_0].
Qed.

Lemma representable_opp s m e :
  representable (S754_finite s m e) -> representable (S754_finite (negb s) m e).
Proof.
  intros [_ R]; split; [reflexivity|].
  apply RndS_opp in R.
  eapply RndS_compat; [| |exact R];
    unfold SF2Q; cbn [SFsign SFmag]; destruct s; cbn [negb]; ring.
Qed.

Lemma SFadd_correct a b :
  representable a -> representable b ->
  (- pow2 1023 < SF2Q a + SF2Q b < pow2 1023)%Q ->
  rounds_to (SF2Q a + SF2Q b) (SFadd prec emax a b).
Proof.
  intros Ra Rb Hb.
  destruct a as [sa|sa| |sa ma ea]; try (destruct Ra as [F _]; discriminate F);
  destruct b as [sb|sb| |sb mb eb]; try (destruct Rb as [F _]; discriminate F);
  cbn [SFadd].
  - assert (rounds_to (SF2Q (S754_zero sa) + SF2Q (S754_zero sb)) (S754_zero false)) as H0
      by (apply rounds_to_zero; rewrite !SF2Q_zero; ring).
    destruct sa, sb; try exact H0; apply rounds_to_zero; rewrite !SF2Q_zero; ring.
  - eapply rounds_to_compat; [|exact Rb]. rewrite SF2Q_zero; ring.
  - eapply rounds_to_compat; [|exact Ra]. rewrite SF2Q_zero; ring.
  - set (ez := Z.min ea eb).
    pose proof (aligned_value sa ma ea ez ltac:(subst ez; lia)) as Va.
    pose proof (aligned_value sb mb eb ez ltac:(subst ez; lia)) as Vb.
    eapply rounds_to_compat; [|apply binary_normalize_correct].
    + rewrite inject_Z_plus, Qmult_plus_distr_l, Va, Vb. reflexivity.
    + apply abs_scaled_bound.
      rewrite inject_Z_plus, Qmult_plus_distr_l, Va, Vb. exact Hb.
Qed.

Lemma SFsub_correct a b :
  representable a -> representable b ->
  (- pow2 1023 < SF2Q a - SF2Q b < pow2 1023)%Q ->
  rounds_to (SF2Q a - SF2Q b) (SFsub prec emax a b).
Proof.
  intros Ra Rb Hb.
  destruct a as [sa|sa| |sa ma ea]; try (destruct Ra as [F _]; discriminate F);
  destruct b as [sb|sb| |sb mb eb]; try (destruct Rb as [F _]; discriminate F);
  cbn [SFsub].
  - assert (rounds_to (SF2Q (S754_zero sa) - SF2Q (S754_zero sb)) (S754_zero false)) as H0
      by (apply rounds_to_zero; rewrite !SF2Q_zero; ring).
    destruct sa, sb; try exact H0; apply rounds_to_zero; rewrite !SF2Q_zero; ring.
  - eapply rounds_to_compat; [|exact (representable_opp _ _ _ Rb)].
    rewrite SF2Q_zero. unfold SF2Q; cbn [SFsign SFmag]. destruct sb; cbn [negb]; ring.
  - eapply rounds_to_compat; [|exact Ra]. rewrite SF2Q_zero; ring.
  - set (ez := Z.min ea eb).
    pose proof (aligned_value sa ma ea ez ltac:(subst ez; lia)) as Va.
    pose proof (aligned_value sb mb eb ez ltac:(subst ez; lia)) as Vb.
    assert (forall u v, inject_Z (u - v) = (inject_Z u - inject_Z v)%Q) as Hsub.
    { intros u v. unfold Z.sub, Qminus. rewrite inject_Z_plus, inject_Z_opp. reflexivity. }
    eapply rounds_to_compat; [|apply binary_normalize_correct].
    + rewrite Hsub. unfold Qminus. rewrite Qmult_plus_distr_l.
      setoid_replace (- inject_Z (cond_Zopp sb (Zpos (fst (shl_align mb eb ez)))) * pow2 ez)%Q
        with (- (inject_Z (cond_Zopp sb (Zpos (fst (shl_align mb eb ez)))) * pow2 ez))%Q using relation Qeq by ring.
      rewrite Va, Vb. reflexivity.
    + apply abs_scaled_bound.
      rewrite Hsub. unfold Qminus in *. rewrite Qmult_plus_distr_l.
      setoid_replace (- inject_Z (cond_Zopp sb (Zpos (fst (shl_align mb eb ez)))) * pow2 ez)%Q
        with (- (inject_Z (cond_Zopp sb (Zpos (fst (shl_align mb eb ez)))) * pow2 ez))%Q using relation Qeq by ring.
      rewrite Va, Vb. exact Hb.
Qed.

Lemma SFdiv_correct a b :
  SFfinite a = true -> SFfinite b = true -> (0 < SFmag b)%Q ->
  (SFmag a / SFmag b < pow2 1023)%Q ->
  rounds_to (SF2Q a / SF2Q b) (SFdiv prec emax a b).
Proof.
  intros Fa Fb Hnz Hb.
  destruct a as [sa|sa| |sa ma ea]; try discriminate Fa;
  destruct b as [sb|sb| |sb mb eb]; try discriminate Fb.
  - cbn [SFmag] in Hnz; lra.
  - cbn [SFdiv]. apply rounds_to_zero. rewrite SF2Q_zero.
    unfold Qdiv. ring.
  - cbn [SFmag] in Hnz; lra.
  - apply SFdiv_finite_correct; exact Hb.
Qed.

(** Consequences used for the timer. *)

Lemma rounds_to_unique x r1 r2 : rounds_to x r1 -> rounds_to x r2 -> (SF2Q r1 == SF2Q r2)%Q.
Proof.
  intros H1 H2. apply Qle_antisym.
  - apply (rounds_to_mono x x); [assumption..|apply Qle_refl].
  - apply (rounds_to_mono x x); [assumption..|apply Qle_refl].
Qed.

Lemma SFmag_abs r : (SFmag r == if SFsign r then - SF2Q r else SF2Q r)%Q.
Proof. unfold SF2Q; destruct (SFsign r); ring. Qed.

Lemma SF2Q_sign r : (0 < SF2Q r)%Q -> SFsign r = false.
Proof.
  intros H. unfold SF2Q in H. pose proof (SFmag_nonneg r).
  destruct (SFsign r); [lra|reflexivity].
Qed.

(** ** Constants and integers *)

Lemma Rnd_pow2 k : -1022 <= k -> Rnd (pow2 k) (pow2 k).
Proof.
  intros Hk.
  apply (Rnd_compat (inject_Z (2 ^ 52) * pow2 (k - 52)) _ (inject_Z (2 ^ 52) * pow2 (k - 52))).
  - rewrite inject_Z_pow2 by lia. replace (52 + (k - 52)) with k by lia. reflexivity.
  - rewrite inject_Z_pow2 by lia. replace (52 + (k - 52)) with k by lia. reflexivity.
  - apply Rnd_exact; lia.
Qed.

Lemma Rnd_int k : 0 <= k <= 2 ^ 53 -> Rnd (inject_Z k) (inject_Z k).
Proof.
  intros Hk.
  destruct (Z.eq_dec k 0) as [->|Hnz]; [exact Rnd_0|].
  destruct (Z.eq_dec k (2 ^ 53)) as [->|Hne].
  - apply (Rnd_compat (pow2 53) _ (pow2 53));
      [apply pow2_Z; lia|apply pow2_Z; lia|apply Rnd_pow2; lia].
  - assert (0 < k) as Hpos by lia.
    pose proof (Zdigits2_bounds k Hpos) as [Hlo Hhi].
    pose proof (Zdigits2_pos k Hpos) as Hd.
    set (d := Zdigits2 k) in *.
    assert (d <= 53) as Hd53.
    { destruct (Z_le_gt_dec d 53) as [|Hgt]; [assumption|exfalso].
      assert (2 ^ 53 <= 2 ^ (d - 1)) by (apply Z.pow_le_mono_r; lia). lia. }
    assert (0 < 2 ^ (53 - d)) as Hp by (apply Z.pow_pos_nonneg; lia).
    assert (2 ^ (d - 1) * 2 ^ (53 - d) = 2 ^ 52) as E1
      by (rewrite <- Z.pow_add_r by lia; f_equal; lia).
    assert (2 ^ d * 2 ^ (53 - d) = 2 ^ 53) as E2
      by (rewrite <- Z.pow_add_r by lia; f_equal; lia).
    assert (inject_Z (k * 2 ^ (53 - d)) * pow2 (d - 53) == inject_Z k)%Q as E.
    { rewrite inject_Z_mult, <- Qmult_assoc, inject_Z_pow2 by lia.
      replace (53 - d + (d - 53)) with 0 by lia. change (pow2 0) with 1%Q. ring. }
    apply (Rnd_compat (inject_Z (k * 2 ^ (53 - d)) * pow2 (d - 53)) _
             (inject_Z (k * 2 ^ (53 - d)) * pow2 (d - 53))); [exact E|exact E|].
    apply Rnd_exact; [lia|nia|right; nia].
Qed.

Lemma RndS_int k : Z.abs k <= 2 ^ 53 -> RndS (inject_Z k) (inject_Z k).
Proof.
  intros Hk. destruct (Z_lt_le_dec k 0) as [Hneg|Hpos].
  - right. split; [change 0%Q with (inject_Z 0); rewrite <- Zlt_Qlt; exact Hneg|].
    rewrite <- inject_Z_opp. apply Rnd_int. lia.
  - left. split; [change 0%Q with (inject_Z 0); rewrite <- Zle_Qle; exact Hpos|].
    apply Rnd_int. lia.
Qed.

Lemma RndS_unique x v1 v2 : RndS x v1 -> RndS x v2 -> (v1 == v2)%Q.
Proof.
  intros H1 H2. apply Qle_antisym.
  - apply (RndS_mono x x); [assumption..|apply Qle_refl].
  - apply (RndS_mono x x); [assumption..|apply Qle_refl].
Qed.

(** Integers of magnitude up to [2^53] convert exactly. *)
Lemma of_long_exact k : Z.abs k <= 2 ^ 53 -> (SF2Q (b64_of_long k) == inject_Z k)%Q.
Proof.
  intros Hk.
  destruct (of_long_correct k) as [_ R].
  { assert (2 ^ 53 < 2 ^ 1023) by (apply Z.pow_lt_mono_r; lia). lia. }
  exact (RndS_unique _ _ _ R (RndS_int k Hk)).
Qed.

Lemma RndS_pow2 k : -1022 <= k -> RndS (pow2 k) (pow2 k).
Proof. intros Hk; left; split; [pose proof (pow2_pos k); lra|apply Rnd_pow2; exact Hk]. Qed.

(** What rounds from within [[-2^k, 2^k]] stays there. *)
Lemma rounds_to_bounded k x r :
  -1022 <= k -> rounds_to x r -> (- pow2 k <= x <= pow2 k)%Q ->
  (- pow2 k <= SF2Q r <= pow2 k)%Q.
Proof.
  intros Hk [_ R] [Hlo Hhi]. split.
  - assert (- pow2 k <= SF2Q r)%Q; [|assumption].
    apply (RndS_mono (- pow2 k) x); [apply RndS_opp, RndS_pow2; exact Hk|exact R|exact Hlo].
  - apply (RndS_mono x (pow2 k)); [exact R|apply RndS_pow2; exact Hk|exact Hhi].
Qed.

Lemma rounds_to_nonneg x r : rounds_to x r -> (0 <= x)%Q -> (0 <= SF2Q r)%Q.
Proof. intros [_ R] Hx. apply (RndS_sign _ _ R); exact Hx. Qed.

Lemma int64_Q z : int64 z -> (- pow2 63 <= inject_Z z <= pow2 63)%Q.
Proof.
  intros [Hlo Hhi]. rewrite (pow2_Z 63) by lia. rewrite <- inject_Z_opp, <- !Zle_Qle. lia.
Qed.

Lemma of_long_int64 z :
  int64 z ->
  rounds_to (inject_Z z) (b64_of_long z) /\ (- pow2 63 <= SF2Q (b64_of_long z) <= pow2 63)%Q.
Proof.
  intros Hz.
  assert (rounds_to (inject_Z z) (b64_of_long z)) as R.
  { apply of_long_correct. destruct Hz.
    assert (2 ^ 63 < 2 ^ 1023) by (apply Z.pow_lt_mono_r; lia). lia. }
  split; [exact R|].
  apply (rounds_to_bounded 63 (inject_Z z)); [lia|exact R|apply int64_Q; exact Hz].
Qed.

(** ** Subtraction of ordered values is nonnegative *)


(** ** The counter variant: ticks over a positive frequency *)

Section Counter.
Variable f : Z.
Hypothesis Hf : 0 < f < 2 ^ 63.

Let F := b64_of_long f.

Lemma frequency_value :
  SFfinite F = true /\ (1 <= SF2Q F <= pow2 63)%Q /\ (SFmag F == SF2Q F)%Q.
Proof.
  destruct (of_long_int64 f) as [R B]; [unfold int64; lia|].
  fold F in R, B.
  assert (1 <= SF2Q F)%Q as H1.
  { destruct R as [_ R].
    apply (RndS_mono 1 (inject_Z f)); [exact (RndS_pow2 0 ltac:(lia))|exact R|].
    change 1%Q with (inject_Z 1). rewrite <- Zle_Qle. lia. }
  split; [exact (proj1 R)|]. split; [lra|].
  rewrite SFmag_abs, (SF2Q_sign F) by lra. reflexivity.
Qed.

Lemma ticks_over_frequency c :
  int64 c ->
  rounds_to (SF2Q (b64_of_long c) / SF2Q F) (SFdiv prec emax (b64_of_long c) F) /\
  (- pow2 63 <= SF2Q (b64_of_long c) / SF2Q F <= pow2 63)%Q.
Proof.
  intros Hc.
  destruct frequency_value as (FF & [HF1 HF2] & HFm).
  destruct (of_long_int64 c Hc) as [[FC RC] [BC1 BC2]].
  pose proof (pow2_pos 63) as Hp. pose proof (pow2_lt 63 1023 ltac:(lia)) as Hlt.
  set (C := b64_of_long c) in *.
  assert (forall a : Q, - pow2 63 <= a <= pow2 63 -> - pow2 63 <= a / SF2Q F <= pow2 63)%Q as Hq.
  { intros a [Ha1 Ha2]. split.
    - apply Qle_shift_div_l; [lra|]. nra.
    - apply Qle_shift_div_r; [lra|]. nra. }
  split; [|apply Hq; lra].
  apply SFdiv_correct; [exact FC|exact FF|lra|].
  rewrite HFm. apply Qlt_shift_div_r; [lra|].
  assert (SFmag C <= pow2 63)%Q; [|nra].
  rewrite SFmag_abs. destruct (SFsign C); lra.
Qed.

End Counter.

(** ** The wall-clock variant: seconds plus microseconds over a million *)

#[local] Abbreviation b64_timestamp sec usec :=
  (Posix.timestamp (D := double) {| tv_sec := sec; tv_usec := usec |}).

Lemma b64_timestamp_eq sec usec :
  b64_timestamp sec usec =
  SFadd prec emax (b64_of_long sec)
    (SFdiv prec emax (b64_of_long usec) (b64_of_long 1000000)).
Proof. reflexivity. Qed.

(** The largest fraction, [999999 / 1000000], stays below [1 - 2^-20], which
    is representable; so the rounded fraction is strictly below one. *)
Lemma micros_fraction usec :
  0 <= usec <= 999999 ->
  rounds_to (inject_Z usec / 1000000) (SFdiv prec emax (b64_of_long usec) (b64_of_long 1000000)) /\
  (0 <= SF2Q (SFdiv prec emax (b64_of_long usec) (b64_of_long 1000000)) < 1)%Q.
Proof.
  intros Hu.
  destruct (ticks_over_frequency 1000000 ltac:(lia) usec ltac:(unfold int64; lia)) as [R _].
  assert (rounds_to (inject_Z usec / 1000000)
            (SFdiv prec emax (b64_of_long usec) (b64_of_long 1000000))) as R'.
  { eapply rounds_to_compat; [|exact R].
    rewrite (of_long_exact usec), (of_long_exact 1000000) by lia. reflexivity. }
  split; [exact R'|].
  assert (0 <= inject_Z usec)%Q as H0 by (change 0%Q with (inject_Z 0); rewrite <- Zle_Qle; lia).
  assert (inject_Z usec <= 999999)%Q as H1
    by (change 999999%Q with (inject_Z 999999); rewrite <- Zle_Qle; lia).
  split.
  - apply (rounds_to_nonneg _ _ R'). apply Qle_shift_div_l; [reflexivity|]. lra.
  - destruct R' as [_ R'].
    assert (Rnd (inject_Z ((2 ^ 20 - 1) * 2 ^ 33) * pow2 (-53))
                (inject_Z ((2 ^ 20 - 1) * 2 ^ 33) * pow2 (-53))) as Rc
      by (apply Rnd_exact; lia).
    assert (inject_Z ((2 ^ 20 - 1) * 2 ^ 33) * pow2 (-53) == 1048575 # 1048576)%Q as Ec
      by reflexivity.
    assert (SF2Q (SFdiv prec emax (b64_of_long usec) (b64_of_long 1000000))
            <= inject_Z ((2 ^ 20 - 1) * 2 ^ 33) * pow2 (-53))%Q as Hle.
    { apply (RndS_mono (inject_Z usec / 1000000) (inject_Z ((2 ^ 20 - 1) * 2 ^ 33) * pow2 (-53)));
        [exact R'|left; split; [rewrite Ec; discriminate|exact Rc]|].
      rewrite Ec. apply Qle_shift_div_r; [reflexivity|].
      apply (Qle_trans _ 999999); [exact H1|discriminate]. }
    rewrite Ec in Hle. apply (Qle_lt_trans _ _ _ Hle). reflexivity.
Qed.


Lemma timestamp_correct sec usec :
  int64 sec -> 0 <= usec <= 999999 ->
  rounds_to (SF2Q (b64_of_long sec) +
             SF2Q (SFdiv prec emax (b64_of_long usec) (b64_of_long 1000000)))
            (b64_timestamp sec usec) /\
  (- pow2 64 <= SF2Q (b64_timestamp sec usec) <= pow2 64)%Q.
Proof.
  intros Hs Hu.
  destruct (micros_fraction usec Hu) as [Rf [Hf0 Hf1]].
  destruct (of_long_int64 sec Hs) as [RS BS].
  pose proof (pow2_succ 63) as E64. change (63 + 1) with 64 in E64.
  pose proof (pow2_le 0 63 ltac:(lia)) as H063. change (pow2 0) with 1%Q in H063.
  pose proof (pow2_lt 64 1023 ltac:(lia)) as H64.
  assert (rounds_to (SF2Q (b64_of_long sec) +
                     SF2Q (SFdiv prec emax (b64_of_long usec) (b64_of_long 1000000)))
            (b64_timestamp sec usec)) as R.
  { rewrite b64_timestamp_eq. apply SFadd_correct.
    - exact (rounds_to_representable _ _ RS).
    - exact (rounds_to_representable _ _ Rf).
    - lra. }
  split; [exact R|].
  apply (rounds_to_bounded 64 _ _ ltac:(lia) R). lra.
Qed.



(** * Properties *)

(** ** Step lemmas of the wall-clock variant *)

Section PosixFacts.
Context {D : Type} `{DoubleOps D}.
Variable gettimeofday : nat -> Z * timeval.
#[local] Abbreviation GET_TIME := (Posix.GET_TIME gettimeofday).
#[local] Abbreviation run := (Posix.run gettimeofday).
#[local] Abbreviation next_reading := (Posix.next_reading gettimeofday).

Lemma posix_GET_TIME_unfold now s :
  GET_TIME now s =
  {| Posix.vars := <[now := Posix.timestamp (next_reading s)]> (Posix.vars s);
     Posix.clock_calls := S (Posix.clock_calls s) |}.
Proof.
  unfold Posix.GET_TIME, Posix.gettimeofday_call, Posix.next_reading.
  destruct (gettimeofday (Posix.clock_calls s)) as [rc t]; reflexivity.
Qed.

Lemma posix_run_cons now nows s : run (now :: nows) s = run nows (GET_TIME now s).
Proof. reflexivity. Qed.

Lemma posix_run_app l1 l2 s : run (l1 ++ l2) s = run l2 (run l1 s).
Proof. unfold Posix.run; apply fold_left_app. Qed.

Lemma posix_run_calls nows s :
  Posix.clock_calls (run nows s) = (length nows + Posix.clock_calls s)%nat.
Proof.
  revert s; induction nows as [|now nows IH]; intros s; [reflexivity|].
  rewrite posix_run_cons, IH, posix_GET_TIME_unfold; simpl; lia.
Qed.

Lemma posix_run_frame nows x s :
  x ∉ nows -> Posix.vars (run nows s) !! x = Posix.vars s !! x.
Proof.
  revert s; induction nows as [|now nows IH]; intros s Hx; [reflexivity|].
  apply not_elem_of_cons in Hx as [Hne Hx].
  rewrite posix_run_cons, IH, posix_GET_TIME_unfold by exact Hx; simpl.
  apply lookup_insert_ne; congruence.
Qed.
End PosixFacts.

(** ** Step lemmas of the counter-with-frequency variant *)

Section Win32Facts.
Context {D : Type} `{DoubleOps D}.
Variable QPF QPC : nat -> Z * Z.
#[local] Abbreviation GET_TIME := (Win32.GET_TIME QPF QPC).
#[local] Abbreviation run := (Win32.run QPF QPC).
#[local] Abbreviation lazy_init := (Win32.lazy_init QPF).
#[local] Abbreviation divisor := (Win32.divisor QPF QPC).
#[local] Abbreviation next_ticks := (Win32.next_ticks QPF QPC).

(** *** Name lookup *)

Lemma win32_denotes_static_other x (s : @Win32.state D) :
  x <> "frequency" -> Win32.denotes_static x s = false.
Proof.
  intros Hx. unfold Win32.denotes_static.
  destruct (Win32.vars s !! "frequency"); [reflexivity|].
  apply bool_decide_eq_false; exact Hx.
Qed.

Lemma win32_denotes_static_hidden x (s : @Win32.state D) v :
  Win32.vars s !! "frequency" = Some v -> Win32.denotes_static x s = false.
Proof. intros Hv. unfold Win32.denotes_static. rewrite Hv. reflexivity. Qed.

Lemma win32_denotes_static_vars x (s s' : @Win32.state D) :
  Win32.vars s' !! "frequency" = Win32.vars s !! "frequency" ->
  Win32.denotes_static x s' = Win32.denotes_static x s.
Proof. intros E. unfold Win32.denotes_static. rewrite E. reflexivity. Qed.

Lemma win32_frequency_static u (s : @Win32.state D) :
  Win32.vars s !! "frequency" = None -> Win32.frequency u s = Win32.static_frequency u s.
Proof. intros Hv. unfold Win32.frequency. rewrite Hv. reflexivity. Qed.

Lemma win32_frequency_hidden u (s : @Win32.state D) v :
  Win32.vars s !! "frequency" = Some v -> Win32.frequency u s = v.
Proof. intros Hv. unfold Win32.frequency. rewrite Hv. reflexivity. Qed.

Lemma win32_value_var u x (s : @Win32.state D) :
  Win32.denotes_static x s = false -> Win32.value u x s = Win32.vars s !! x.
Proof. intros E. unfold Win32.value. rewrite E. reflexivity. Qed.

(** *** The guard *)

Lemma win32_lazy_init_unfold u s :
  lazy_init u s =
  if feq0 (Win32.frequency u s)
  then {| Win32.statics := <[u := of_long (snd (QPF (Win32.qpf_calls s)))]> (Win32.statics s);
          Win32.vars := Win32.vars s;
          Win32.qpf_calls := S (Win32.qpf_calls s);
          Win32.qpc_calls := Win32.qpc_calls s |}
  else s.
Proof.
  unfold Win32.lazy_init, Win32.init_frequency.
  destruct (QPF (Win32.qpf_calls s)) as [rc li]; reflexivity.
Qed.

Lemma win32_lazy_init_vars u s : Win32.vars (lazy_init u s) = Win32.vars s.
Proof. rewrite win32_lazy_init_unfold. destruct (feq0 (Win32.frequency u s)); reflexivity. Qed.

Lemma win32_lazy_init_qpc_calls u s : Win32.qpc_calls (lazy_init u s) = Win32.qpc_calls s.
Proof. rewrite win32_lazy_init_unfold. destruct (feq0 (Win32.frequency u s)); reflexivity. Qed.

Lemma win32_lazy_init_qpf_calls u s :
  Win32.qpf_calls (lazy_init u s) =
  if feq0 (Win32.frequency u s) then S (Win32.qpf_calls s) else Win32.qpf_calls s.
Proof. rewrite win32_lazy_init_unfold. destruct (feq0 (Win32.frequency u s)); reflexivity. Qed.

Lemma win32_lazy_init_static u s :
  Win32.static_frequency u (lazy_init u s) =
  if feq0 (Win32.frequency u s) then of_long (snd (QPF (Win32.qpf_calls s)))
  else Win32.static_frequency u s.
Proof.
  rewrite win32_lazy_init_unfold. destruct (feq0 (Win32.frequency u s)); [|reflexivity].
  unfold Win32.static_frequency; cbn [Win32.statics]. rewrite lookup_insert_eq. reflexivity.
Qed.

Lemma win32_lazy_init_statics_other u u' s :
  u' <> u -> Win32.statics (lazy_init u s) !! u' = Win32.statics s !! u'.
Proof.
  intros Hu. rewrite win32_lazy_init_unfold. destruct (feq0 (Win32.frequency u s)); [|reflexivity].
  cbn [Win32.statics]. apply lookup_insert_ne. congruence.
Qed.

Lemma win32_next_ticks_unfold u s : next_ticks u s = snd (QPC (Win32.qpc_calls s)).
Proof. unfold Win32.next_ticks. rewrite win32_lazy_init_qpc_calls. reflexivity. Qed.

Lemma win32_divisor_unfold u s : divisor u s = Win32.frequency u (lazy_init u s).
Proof.
  unfold Win32.divisor, Win32.QueryPerformanceCounter_call.
  destruct (QPC (Win32.qpc_calls (lazy_init u s))) as [rc li]; reflexivity.
Qed.

(** The divisor in terms of the state the call starts from: the caller's
    [frequency] if there is one, and otherwise the unit's static after the
    guard. *)
Lemma win32_divisor_cases u s :
  divisor u s =
  match Win32.vars s !! "frequency" with
  | Some v => v
  | None => if feq0 (Win32.static_frequency u s) then of_long (snd (QPF (Win32.qpf_calls s)))
            else Win32.static_frequency u s
  end.
Proof.
  rewrite win32_divisor_unfold.
  destruct (Win32.vars s !! "frequency") as [v|] eqn:Hv.
  - apply win32_frequency_hidden. rewrite win32_lazy_init_vars. exact Hv.
  - rewrite win32_frequency_static by (rewrite win32_lazy_init_vars; exact Hv).
    rewrite win32_lazy_init_static, (win32_frequency_static u s Hv). reflexivity.
Qed.

(** *** One call *)

Lemma win32_GET_TIME_unfold u now s :
  let v := fdiv (of_long (next_ticks u s)) (divisor u s) in
  GET_TIME u now s =
  if Win32.denotes_static now s
  then {| Win32.statics := <[u := v]> (Win32.statics (lazy_init u s));
          Win32.vars := Win32.vars s;
          Win32.qpf_calls := Win32.qpf_calls (lazy_init u s);
          Win32.qpc_calls := S (Win32.qpc_calls s) |}
  else {| Win32.statics := Win32.statics (lazy_init u s);
          Win32.vars := <[now := v]> (Win32.vars s);
          Win32.qpf_calls := Win32.qpf_calls (lazy_init u s);
          Win32.qpc_calls := S (Win32.qpc_calls s) |}.
Proof.
  intros v; subst v. rewrite win32_divisor_unfold.
  unfold Win32.GET_TIME, Win32.QueryPerformanceCounter_call, Win32.next_ticks.
  destruct (QPC (Win32.qpc_calls (lazy_init u s))) as [rc li]; cbn [snd].
  unfold Win32.assign, Win32.denotes_static, Win32.frequency, Win32.static_frequency;
    cbn [Win32.vars Win32.statics Win32.qpf_calls Win32.qpc_calls].
  rewrite win32_lazy_init_vars, win32_lazy_init_qpc_calls. reflexivity.
Qed.

Lemma win32_GET_TIME_qpc_calls u now s :
  Win32.qpc_calls (GET_TIME u now s) = S (Win32.qpc_calls s).
Proof.
  rewrite win32_GET_TIME_unfold. destruct (Win32.denotes_static now s); reflexivity.
Qed.

Lemma win32_GET_TIME_qpf_calls u now s :
  Win32.qpf_calls (GET_TIME u now s) =
  if feq0 (Win32.frequency u s) then S (Win32.qpf_calls s) else Win32.qpf_calls s.
Proof.
  rewrite win32_GET_TIME_unfold.
  destruct (Win32.denotes_static now s); cbn [Win32.qpf_calls]; apply win32_lazy_init_qpf_calls.
Qed.

(** Among the caller's variables a call writes at most [now]. *)
Lemma win32_GET_TIME_vars_other u now x s :
  x <> now -> Win32.vars (GET_TIME u now s) !! x = Win32.vars s !! x.
Proof.
  intros Hx. rewrite win32_GET_TIME_unfold.
  destruct (Win32.denotes_static now s); cbn [Win32.vars]; [reflexivity|].
  apply lookup_insert_ne. congruence.
Qed.

(** A call does not give the caller a variable [frequency], nor takes one away. *)
Lemma win32_GET_TIME_hidden u now s :
  Win32.vars s !! "frequency" = None -> Win32.vars (GET_TIME u now s) !! "frequency" = None.
Proof.
  intros Hv. rewrite win32_GET_TIME_unfold.
  destruct (Win32.denotes_static now s) eqn:E; cbn [Win32.vars]; [exact Hv|].
  unfold Win32.denotes_static in E. rewrite Hv in E. apply bool_decide_eq_false in E.
  rewrite lookup_insert_ne by congruence. exact Hv.
Qed.

Lemma win32_GET_TIME_denotes_static u now x s :
  Win32.denotes_static x (GET_TIME u now s) = Win32.denotes_static x s.
Proof.
  destruct (Win32.vars s !! "frequency") as [v|] eqn:Hv.
  - rewrite (win32_denotes_static_hidden x s v Hv).
    rewrite win32_GET_TIME_unfold, (win32_denotes_static_hidden now s v Hv).
    unfold Win32.denotes_static; cbn [Win32.vars].
    destruct (decide (now = "frequency")) as [->|Hne].
    + rewrite lookup_insert_eq. reflexivity.
    + rewrite lookup_insert_ne, Hv by congruence. reflexivity.
  - apply win32_denotes_static_vars. rewrite Hv. apply win32_GET_TIME_hidden, Hv.
Qed.

(** Every call stores the quotient in what [now] denotes. *)
Lemma win32_GET_TIME_value u now s :
  Win32.value u now (GET_TIME u now s) =
  Some (fdiv (of_long (next_ticks u s)) (divisor u s)).
Proof.
  unfold Win32.value. rewrite win32_GET_TIME_denotes_static, win32_GET_TIME_unfold.
  destruct (Win32.denotes_static now s).
  - unfold Win32.static_frequency; cbn [Win32.statics]. rewrite lookup_insert_eq. reflexivity.
  - cbn [Win32.vars]. apply lookup_insert_eq.
Qed.

(** The static of another unit is never written. *)
Lemma win32_GET_TIME_statics_other u u' now s :
  u' <> u -> Win32.statics (GET_TIME u now s) !! u' = Win32.statics s !! u'.
Proof.
  intros Hu. rewrite win32_GET_TIME_unfold.
  destruct (Win32.denotes_static now s); cbn [Win32.statics].
  - rewrite lookup_insert_ne by congruence. apply win32_lazy_init_statics_other, Hu.
  - apply win32_lazy_init_statics_other, Hu.
Qed.

(** The unit's own static: assigned when it is what [now] denotes, else
    calibrated when the guard fires, else left alone. *)
Lemma win32_GET_TIME_static u now s :
  Win32.static_frequency u (GET_TIME u now s) =
  if Win32.denotes_static now s then fdiv (of_long (next_ticks u s)) (divisor u s)
  else if feq0 (Win32.frequency u s) then of_long (snd (QPF (Win32.qpf_calls s)))
  else Win32.static_frequency u s.
Proof.
  rewrite win32_GET_TIME_unfold.
  destruct (Win32.denotes_static now s).
  - unfold Win32.static_frequency; cbn [Win32.statics]. rewrite lookup_insert_eq. reflexivity.
  - apply win32_lazy_init_static.
Qed.

(** A call made where no variable of the caller hides the static, with an
    argument other than [frequency]. *)
Lemma win32_GET_TIME_plain u now s :
  Win32.vars s !! "frequency" = None -> now <> "frequency" ->
  let calibrate := feq0 (Win32.static_frequency u s) in
  let reply := of_long (snd (QPF (Win32.qpf_calls s))) in
  GET_TIME u now s =
  {| Win32.statics := if calibrate then <[u := reply]> (Win32.statics s) else Win32.statics s;
     Win32.vars := <[now := fdiv (of_long (snd (QPC (Win32.qpc_calls s))))
                              (if calibrate then reply else Win32.static_frequency u s)]>
                     (Win32.vars s);
     Win32.qpf_calls := if calibrate then S (Win32.qpf_calls s) else Win32.qpf_calls s;
     Win32.qpc_calls := S (Win32.qpc_calls s) |}.
Proof.
  intros Hv Hnow calibrate reply.
  rewrite win32_GET_TIME_unfold, win32_next_ticks_unfold, win32_divisor_cases, Hv.
  rewrite (win32_denotes_static_other now) by exact Hnow.
  rewrite win32_lazy_init_unfold, (win32_frequency_static u s Hv).
  fold calibrate reply. destruct calibrate; reflexivity.
Qed.

(** *** Runs *)

Lemma win32_run_cons c calls s : run (c :: calls) s = run calls (GET_TIME (fst c) (snd c) s).
Proof. reflexivity. Qed.

Lemma win32_run_app l1 l2 s : run (l1 ++ l2) s = run l2 (run l1 s).
Proof. unfold Win32.run; apply fold_left_app. Qed.

Lemma win32_run_qpc_calls calls s :
  Win32.qpc_calls (run calls s) = (length calls + Win32.qpc_calls s)%nat.
Proof.
  revert s; induction calls as [|c calls IH]; intros s; [reflexivity|].
  rewrite win32_run_cons, IH, win32_GET_TIME_qpc_calls; simpl; lia.
Qed.

Lemma win32_run_vars_frame calls x s :
  x ∉ calls.*2 -> Win32.vars (run calls s) !! x = Win32.vars s !! x.
Proof.
  revert s; induction calls as [|c calls IH]; intros s Hx; [reflexivity|].
  rewrite fmap_cons in Hx. apply not_elem_of_cons in Hx as [Hne Hx].
  rewrite win32_run_cons, IH by exact Hx.
  apply win32_GET_TIME_vars_other, Hne.
Qed.

Lemma win32_run_hidden calls s :
  Win32.vars s !! "frequency" = None -> Win32.vars (run calls s) !! "frequency" = None.
Proof.
  revert s; induction calls as [|c calls IH]; intros s Hv; [exact Hv|].
  rewrite win32_run_cons. apply IH, win32_GET_TIME_hidden, Hv.
Qed.

Lemma win32_run_denotes_static calls x s :
  Win32.denotes_static x (run calls s) = Win32.denotes_static x s.
Proof.
  revert s; induction calls as [|c calls IH]; intros s; [reflexivity|].
  rewrite win32_run_cons, IH. apply win32_GET_TIME_denotes_static.
Qed.

(** Calls written in other units leave a unit's static alone. *)
Lemma win32_run_statics_other calls u s :
  u ∉ calls.*1 -> Win32.statics (run calls s) !! u = Win32.statics s !! u.
Proof.
  revert s; induction calls as [|c calls IH]; intros s Hu; [reflexivity|].
  rewrite fmap_cons in Hu. apply not_elem_of_cons in Hu as [Hne Hu].
  rewrite win32_run_cons, IH by exact Hu.
  apply win32_GET_TIME_statics_other, Hne.
Qed.

(** Once a unit's static is nonzero, no call changes it, unless a caller's
    variable hides it from the guard or it is itself passed as argument. *)
Lemma win32_run_static_kept calls u s :
  Win32.vars s !! "frequency" = None ->
  feq0 (Win32.static_frequency u s) = false ->
  (u, "frequency") ∉ calls ->
  Win32.statics (run calls s) !! u = Win32.statics s !! u.
Proof.
  revert s; induction calls as [|[u' x] calls IH]; intros s Hv Hnz Hc; [reflexivity|].
  apply not_elem_of_cons in Hc as [Hne Hc].
  rewrite win32_run_cons; cbn [fst snd].
  assert (Win32.statics (GET_TIME u' x s) !! u = Win32.statics s !! u) as E.
  { destruct (decide (u' = u)) as [->|Hu].
    - assert (x <> "frequency") as Hx by congruence.
      rewrite (win32_GET_TIME_plain u x s Hv Hx); cbn [Win32.statics].
      rewrite Hnz. reflexivity.
    - apply win32_GET_TIME_statics_other. congruence. }
  rewrite IH; [exact E|apply win32_GET_TIME_hidden, Hv| |exact Hc].
  unfold Win32.static_frequency in *. rewrite E. exact Hnz.
Qed.

(** And the calls of that unit make no frequency query. *)
Lemma win32_run_no_query nows u s :
  Win32.vars s !! "frequency" = None ->
  feq0 (Win32.static_frequency u s) = false ->
  "frequency" ∉ nows ->
  Win32.qpf_calls (run (Win32.calls_in u nows) s) = Win32.qpf_calls s /\
  Win32.statics (run (Win32.calls_in u nows) s) = Win32.statics s.
Proof.
  revert s; induction nows as [|x nows IH]; intros s Hv Hnz Hc; [split; reflexivity|].
  apply not_elem_of_cons in Hc as [Hne Hc].
  unfold Win32.calls_in. rewrite fmap_cons, win32_run_cons; cbn [fst snd].
  fold (Win32.calls_in u nows).
  pose proof (win32_GET_TIME_plain u x s Hv ltac:(congruence)) as E.
  cbv zeta in E. rewrite Hnz in E.
  destruct (IH (GET_TIME u x s)) as [IH1 IH2];
    [apply win32_GET_TIME_hidden, Hv|rewrite E; exact Hnz|exact Hc|].
  rewrite IH1, IH2, E. split; reflexivity.
Qed.

(** While a nonzero variable [frequency] of the caller is in scope and is
    not assigned, no call queries or writes a static. *)
Lemma win32_run_own_frequency calls s own :
  Win32.vars s !! "frequency" = Some own -> feq0 own = false ->
  "frequency" ∉ calls.*2 ->
  Win32.qpf_calls (run calls s) = Win32.qpf_calls s /\
  Win32.statics (run calls s) = Win32.statics s /\
  Win32.vars (run calls s) !! "frequency" = Some own.
Proof.
  intros Hown Hnz Hc.
  split; [|split; [|rewrite win32_run_vars_frame by exact Hc; exact Hown]];
    revert s Hown Hc; induction calls as [|c calls IH]; intros s Hown Hc; try reflexivity;
    rewrite fmap_cons in Hc; apply not_elem_of_cons in Hc as [Hx Hc];
    rewrite win32_run_cons, IH
      by (try exact Hc; rewrite win32_GET_TIME_vars_other by exact Hx; exact Hown).
  - rewrite win32_GET_TIME_qpf_calls, (win32_frequency_hidden (fst c) s own Hown), Hnz.
    reflexivity.
  - rewrite win32_GET_TIME_unfold, (win32_denotes_static_hidden (snd c) s own Hown).
    cbn [Win32.statics].
    rewrite win32_lazy_init_unfold, (win32_frequency_hidden (fst c) s own Hown), Hnz.
    reflexivity.
Qed.

Lemma win32_calls_in_frequency u nows :
  "frequency" ∉ nows -> (u, "frequency") ∉ Win32.calls_in u nows.
Proof.
  intros Hn Hin. apply Hn. unfold Win32.calls_in in Hin.
  apply list_elem_of_fmap in Hin as (x & E & Hx). injection E as <-. exact Hx.
Qed.

Lemma win32_calls_in_names u nows : (Win32.calls_in u nows).*2 = nows.
Proof.
  unfold Win32.calls_in. induction nows as [|x nows IH]; [reflexivity|].
  rewrite !fmap_cons, IH. reflexivity.
Qed.

Lemma win32_calls_in_length u nows : length (Win32.calls_in u nows) = length nows.
Proof. apply length_fmap. Qed.
End Win32Facts.

(** ** Both arithmetics are lawful *)

#[export] Instance b64_laws : DoubleLaws double.
Proof.
  split; [reflexivity|]. exact of_long_eq0.
Qed.

#[export] Instance exact_laws : DoubleLaws Q.
Proof.
  split; [reflexivity|]. intros z. cbn [feq0 of_long Exact.exact_ops].
  apply Bool.eq_iff_eq_true. rewrite Qeq_bool_iff, Z.eqb_eq.
  change 0%Q with (inject_Z 0). apply inject_Z_injective.
Qed.

(** ** The calibration state over a run *)

Section Win32Calibration.
Context {D : Type} `{DoubleLaws D}.
Variable QPF QPC : nat -> Z * Z.
#[local] Abbreviation GET_TIME := (Win32.GET_TIME QPF QPC).
#[local] Abbreviation run := (Win32.run QPF QPC).
#[local] Abbreviation divisor := (Win32.divisor QPF QPC).

(** At program start every unit's static compares equal to zero, and calls
    written in other units do not change that. *)
Lemma win32_initial_static u (vs : gmap string D) :
  feq0 (Win32.static_frequency u (Win32.initial vs)) = true.
Proof. apply feq0_dzero. Qed.

Lemma win32_run_fresh_unit calls u (vs : gmap string D) :
  u ∉ calls.*1 -> feq0 (Win32.static_frequency u (run calls (Win32.initial vs))) = true.
Proof.
  intros Hu. unfold Win32.static_frequency.
  rewrite win32_run_statics_other by exact Hu. apply feq0_dzero.
Qed.

(** The first call of a unit, made where nothing hides its static: one
    query, and the static holds the converted reply. *)
Lemma win32_GET_TIME_calibrates u now (s : @Win32.state D) :
  Win32.vars s !! "frequency" = None -> now <> "frequency" ->
  feq0 (Win32.static_frequency u s) = true ->
  Win32.qpf_calls (GET_TIME u now s) = S (Win32.qpf_calls s) /\
  Win32.static_frequency u (GET_TIME u now s) = of_long (snd (QPF (Win32.qpf_calls s))).
Proof.
  intros Hv Hnow Hz.
  rewrite win32_GET_TIME_qpf_calls, win32_GET_TIME_static.
  rewrite (win32_denotes_static_other now s Hnow), (win32_frequency_static u s Hv), Hz.
  split; reflexivity.
Qed.

(** What a call divides by stays the unit's static for all later calls,
    provided it is nonzero. *)
Lemma win32_divisor_stable u now later (s : @Win32.state D) :
  Win32.vars s !! "frequency" = None -> now <> "frequency" ->
  (u, "frequency") ∉ later ->
  feq0 (divisor u s) = false ->
  let s2 := run later (GET_TIME u now s) in
  Win32.static_frequency u (GET_TIME u now s) = divisor u s /\
  Win32.static_frequency u s2 = divisor u s /\
  divisor u s2 = divisor u s /\
  Win32.vars s2 !! "frequency" = None.
Proof.
  intros Hv Hnow Hl Hnz s2.
  assert (Win32.static_frequency u (GET_TIME u now s) = divisor u s) as E1.
  { rewrite win32_GET_TIME_static, win32_divisor_cases, Hv.
    rewrite (win32_denotes_static_other now s Hnow), (win32_frequency_static u s Hv).
    reflexivity. }
  assert (Win32.vars (GET_TIME u now s) !! "frequency" = None) as Hv1
    by (apply win32_GET_TIME_hidden, Hv).
  assert (Win32.static_frequency u s2 = divisor u s) as E2.
  { rewrite <- E1. unfold Win32.static_frequency. subst s2.
    rewrite win32_run_static_kept; [reflexivity|exact Hv1| |exact Hl].
    rewrite E1. exact Hnz. }
  assert (Win32.vars s2 !! "frequency" = None) as Hv2 by (apply win32_run_hidden, Hv1).
  split; [exact E1|split; [exact E2|split; [|exact Hv2]]].
  rewrite (win32_divisor_cases QPF QPC u s2), Hv2, E2, Hnz. reflexivity.
Qed.



(** One unit, from program start, with a nonzero first reply: every call
    divides by the conversion of that reply. *)
Lemma win32_reachable_divisor u pre (vs : gmap string D) :
  vs !! "frequency" = None -> "frequency" ∉ pre -> snd (QPF 0%nat) <> 0 ->
  let s := run (Win32.calls_in u pre) (Win32.initial vs) in
  divisor u s = of_long (snd (QPF 0%nat)) /\
  Win32.vars s !! "frequency" = None /\
  Win32.qpf_calls s = (match pre with [] => 0 | _ :: _ => 1 end)%nat.
Proof.
  intros Hv Hpre Hnz s.
  assert (feq0 (of_long (snd (QPF 0%nat))) = false) as Hnz'
    by (rewrite feq0_of_long; apply Z.eqb_neq; exact Hnz).
  assert (divisor u (Win32.initial vs) = of_long (snd (QPF 0%nat))) as Hd0.
  { rewrite win32_divisor_cases. cbn [Win32.initial Win32.vars Win32.qpf_calls].
    rewrite Hv, win32_initial_static. reflexivity. }
  destruct pre as [|now pre]; [split; [exact Hd0|split; [exact Hv|reflexivity]]|].
  apply not_elem_of_cons in Hpre as [Hnow Hpre].
  subst s. unfold Win32.calls_in. rewrite fmap_cons, win32_run_cons; cbn [fst snd].
  fold (Win32.calls_in u pre).
  destruct (win32_divisor_stable u now (Win32.calls_in u pre) (Win32.initial vs))
    as (E1 & E2 & E3 & Hv2);
    [exact Hv|congruence|apply win32_calls_in_frequency; exact Hpre|rewrite Hd0; exact Hnz'|].
  cbv zeta in E2, E3, Hv2.
  split; [rewrite E3; exact Hd0|split; [exact Hv2|]].
  destruct (win32_run_no_query QPF QPC pre u (GET_TIME u now (Win32.initial vs))) as [Hq _];
    [apply win32_GET_TIME_hidden; exact Hv|rewrite E1, Hd0; exact Hnz'|exact Hpre|].
  rewrite Hq.
  apply (win32_GET_TIME_calibrates u now (Win32.initial vs) Hv ltac:(congruence)).
  apply win32_initial_static.
Qed.

(** While the platform keeps storing zero, every call queries again. *)
Lemma win32_run_uncalibrated calls (s : @Win32.state D) :
  (forall n, snd (QPF n) = 0) ->
  Win32.vars s !! "frequency" = None -> "frequency" ∉ calls.*2 ->
  (forall u, feq0 (Win32.static_frequency u s) = true) ->
  Win32.qpf_calls (run calls s) = (length calls + Win32.qpf_calls s)%nat /\
  (forall u, feq0 (Win32.static_frequency u (run calls s)) = true) /\
  Win32.vars (run calls s) !! "frequency" = None.
Proof.
  intros Hz. revert s; induction calls as [|[u' x] calls IH]; intros s Hv Hc Hs;
    [split; [reflexivity|split; [exact Hs|exact Hv]]|].
  rewrite fmap_cons in Hc. apply not_elem_of_cons in Hc as [Hne Hc]. cbn [snd] in Hne.
  rewrite win32_run_cons; cbn [fst snd].
  pose proof (win32_GET_TIME_plain QPF QPC u' x s Hv ltac:(congruence)) as E.
  cbv zeta in E. rewrite (Hs u'), Hz in E.
  destruct (IH (GET_TIME u' x s)) as (IH1 & IH2 & IH3);
    [apply win32_GET_TIME_hidden; exact Hv|exact Hc| |].
  - intros u. rewrite E. unfold Win32.static_frequency; cbn [Win32.statics].
    destruct (decide (u = u')) as [->|Hu].
    + rewrite lookup_insert_eq. cbn [from_option id]. rewrite feq0_of_long. reflexivity.
    + rewrite lookup_insert_ne by congruence. apply Hs.
  - split; [|split; [exact IH2|exact IH3]].
    rewrite IH1, E; cbn [Win32.qpf_calls length]. lia.
Qed.
End Win32Calibration.

(** ** The claims that do not depend on the arithmetic *)

(** C1. On the wall-clock variant every call of [GET_TIME] obtains exactly one
    seconds/microseconds reading from the platform clock, and the value it
    stores is [seconds + microseconds / 1000000.0] for that reading. *)
Theorem C1_posix_single_reading :
  forall (D : Type) (ops : DoubleOps D) (gettimeofday : nat -> Z * timeval)
         (now : string) (s : Posix.state),
    let t := snd (gettimeofday (Posix.clock_calls s)) in
    let s' := Posix.GET_TIME gettimeofday now s in
    Posix.clock_calls s' = S (Posix.clock_calls s) /\
    Posix.vars s' !! now =
      Some (fadd (of_long (tv_sec t)) (fdiv (of_long (tv_usec t)) (of_long 1000000))).
Proof.
  intros D ops gettimeofday now s t s'; subst t s'.
  rewrite posix_GET_TIME_unfold; simpl; split; [reflexivity|].
  rewrite lookup_insert_eq; reflexivity.
Qed.

(** C2, as it holds.  On the counter-with-frequency variant every call of
    [GET_TIME] reads the tick count once, and the value it stores is that
    tick count divided by what [frequency] names where the macro is used:
    a variable [frequency] of the caller if one is in scope, and otherwise
    the unit's cached frequency, which is the converted reply of the
    frequency query made by this very call when the cache was still zero,
    and the value cached earlier when it was not.  In the second case, and
    unless [frequency] itself is the argument, that value is what the cache
    holds when the call ends. *)
Theorem C2_win32_ticks_over_frequency :
  forall (D : Type) (ops : DoubleOps D) (QPF QPC : nat -> Z * Z)
         (u : nat) (now : string) (s : Win32.state),
    let s' := Win32.GET_TIME QPF QPC u now s in
    let ticks := snd (QPC (Win32.qpc_calls s)) in
    let cached := if feq0 (Win32.static_frequency u s)
                  then of_long (snd (QPF (Win32.qpf_calls s)))
                  else Win32.static_frequency u s in
    Win32.qpc_calls s' = S (Win32.qpc_calls s) /\
    Win32.value u now s' =
      Some (fdiv (of_long ticks)
              (match Win32.vars s !! "frequency" with
               | Some own => own
               | None => cached
               end)) /\
    (Win32.vars s !! "frequency" = None ->
     Win32.qpf_calls s' =
       (if feq0 (Win32.static_frequency u s) then S (Win32.qpf_calls s)
        else Win32.qpf_calls s) /\
     (now <> "frequency" -> Win32.static_frequency u s' = cached)).
Proof.
  intros D ops QPF QPC u now s s' ticks cached; subst s' ticks cached.
  split; [apply win32_GET_TIME_qpc_calls|split].
  - rewrite win32_GET_TIME_value, win32_next_ticks_unfold, win32_divisor_cases. reflexivity.
  - intros Hv. rewrite win32_GET_TIME_qpf_calls, (win32_frequency_static u s Hv).
    split; [reflexivity|]. intros Hnow.
    rewrite win32_GET_TIME_static, (win32_denotes_static_other now s Hnow).
    rewrite (win32_frequency_static u s Hv). reflexivity.
Qed.

(** C5. [GET_TIME] signals no error: whatever the platform calls return,
    failure indications included, a value is stored in [now], and the return
    codes have no influence on the resulting state: two platforms that leave
    the same contents in [t] (resp. [li]) but return different codes are
    indistinguishable. *)
Theorem C5_return_codes_ignored :
  forall (D : Type) (ops : DoubleOps D),
    (forall (rc1 rc2 : nat -> Z) (reading : nat -> timeval)
            (now : string) (s : Posix.state),
        is_Some (Posix.vars (Posix.GET_TIME (fun n => (rc1 n, reading n)) now s) !! now) /\
        Posix.GET_TIME (fun n => (rc1 n, reading n)) now s =
        Posix.GET_TIME (fun n => (rc2 n, reading n)) now s) /\
    (forall (ok1 ok2 ok1' ok2' : nat -> Z) (freq ticks : nat -> Z)
            (u : nat) (now : string) (s : Win32.state),
        is_Some (Win32.value u now
                   (Win32.GET_TIME (fun n => (ok1 n, freq n))
                      (fun n => (ok2 n, ticks n)) u now s)) /\
        Win32.GET_TIME (fun n => (ok1 n, freq n)) (fun n => (ok2 n, ticks n)) u now s =
        Win32.GET_TIME (fun n => (ok1' n, freq n)) (fun n => (ok2' n, ticks n)) u now s).
Proof.
  intros D ops; split.
  - intros rc1 rc2 reading now s.
    rewrite !posix_GET_TIME_unfold; simpl; split; [|reflexivity].
    rewrite lookup_insert_eq; eauto.
  - intros ok1 ok2 ok1' ok2' freq ticks u now s. split.
    + rewrite win32_GET_TIME_value. eauto.
    + rewrite !win32_GET_TIME_unfold.
      rewrite !win32_next_ticks_unfold, !win32_divisor_cases, !win32_lazy_init_unfold.
      reflexivity.
Qed.


(** C7, as it holds.  The result of [GET_TIME] depends on the platform and,
    on the counter variant, on what [frequency] names at the call: two calls
    that obtain the same platform reading store the same value, whatever
    else the caller's variables hold and whichever variable is passed,
    provided that on the counter variant they agree on a variable
    [frequency] of the caller (both have none, or both have one of the
    same value), start from the same cached frequency and, while that is
    still zero, obtain the same frequency reply. *)
Theorem C7_result_depends_on_platform_only :
  forall (D : Type) (ops : DoubleOps D),
    (forall (g1 g2 : nat -> Z * timeval) (now1 now2 : string) (s1 s2 : Posix.state),
        snd (g1 (Posix.clock_calls s1)) = snd (g2 (Posix.clock_calls s2)) ->
        Posix.vars (Posix.GET_TIME g1 now1 s1) !! now1 =
        Posix.vars (Posix.GET_TIME g2 now2 s2) !! now2) /\
    (forall (QPF1 QPC1 QPF2 QPC2 : nat -> Z * Z) (u1 u2 : nat) (now1 now2 : string)
            (s1 s2 : Win32.state),
        Win32.vars s1 !! "frequency" = Win32.vars s2 !! "frequency" ->
        Win32.static_frequency u1 s1 = Win32.static_frequency u2 s2 ->
        (feq0 (Win32.static_frequency u1 s1) = true ->
         snd (QPF1 (Win32.qpf_calls s1)) = snd (QPF2 (Win32.qpf_calls s2))) ->
        snd (QPC1 (Win32.qpc_calls s1)) = snd (QPC2 (Win32.qpc_calls s2)) ->
        Win32.value u1 now1 (Win32.GET_TIME QPF1 QPC1 u1 now1 s1) =
        Win32.value u2 now2 (Win32.GET_TIME QPF2 QPC2 u2 now2 s2)).
Proof.
  intros D ops; split.
  - intros g1 g2 now1 now2 s1 s2 Hr.
    rewrite !posix_GET_TIME_unfold; simpl; rewrite !lookup_insert_eq.
    unfold Posix.next_reading; rewrite Hr; reflexivity.
  - intros QPF1 QPC1 QPF2 QPC2 u1 u2 now1 now2 s1 s2 Hown Hf Hq Hc.
    rewrite !win32_GET_TIME_value, !win32_next_ticks_unfold, !win32_divisor_cases.
    rewrite Hown, Hc, <- Hf.
    destruct (Win32.vars s2 !! "frequency"); [reflexivity|].
    destruct (feq0 (Win32.static_frequency u1 s1)); [rewrite Hq by reflexivity|]; reflexivity.
Qed.

(** ** The lazy calibration *)

(** C8, as it holds.  The guard [frequency == 0] cannot tell "not yet
    initialised" from "the platform stored zero": a call runs
    [init_frequency], querying the platform, exactly when what [frequency]
    names at the call is zero when the call starts: the unit's static, unless
    a variable of the caller hides it.  Hence, where nothing hides the static
    and it is not itself the argument, the calls of one unit query at most
    once from program start if the first reply is nonzero, whereas a
    platform that keeps storing zero is queried by every call. *)
Theorem C8_guard_is_zero_test :
  forall (D : Type) (ops : DoubleOps D) (laws : DoubleLaws D) (QPF QPC : nat -> Z * Z),
    (forall (u : nat) (now : string) (s : Win32.state),
        let s' := Win32.GET_TIME QPF QPC u now s in
        (Win32.qpf_calls s' = S (Win32.qpf_calls s) <-> feq0 (Win32.frequency u s) = true) /\
        (Win32.qpf_calls s' = Win32.qpf_calls s <-> feq0 (Win32.frequency u s) = false) /\
        (Win32.vars s !! "frequency" = None ->
         Win32.frequency u s = Win32.static_frequency u s) /\
        (Win32.denotes_static now s = false ->
         Win32.static_frequency u s' =
           if feq0 (Win32.frequency u s) then of_long (snd (QPF (Win32.qpf_calls s)))
           else Win32.static_frequency u s)) /\
    (forall (vs : gmap string D) (u : nat) (nows : list string),
        vs !! "frequency" = None -> "frequency" ∉ nows ->
        snd (QPF 0%nat) <> 0 ->
        (Win32.qpf_calls (Win32.run QPF QPC (Win32.calls_in u nows) (Win32.initial vs)) <= 1)%nat) /\
    (forall (vs : gmap string D) (calls : list (nat * string)),
        vs !! "frequency" = None -> "frequency" ∉ calls.*2 ->
        (forall n, snd (QPF n) = 0) ->
        Win32.qpf_calls (Win32.run QPF QPC calls (Win32.initial vs)) = length calls).
Proof.
  intros D ops laws QPF QPC; split; [|split].
  - intros u now s s'; subst s'.
    rewrite win32_GET_TIME_qpf_calls, win32_GET_TIME_static.
    split; [|split; [|split]].
    + destruct (feq0 (Win32.frequency u s)); split; intros; try reflexivity; try discriminate; lia.
    + destruct (feq0 (Win32.frequency u s)); split; intros; try reflexivity; try discriminate; lia.
    + apply win32_frequency_static.
    + intros ->. reflexivity.
  - intros vs u nows Hv Hn Hnz.
    destruct (win32_reachable_divisor QPF QPC u nows vs Hv Hn Hnz) as (_ & _ & ->).
    destruct nows; lia.
  - intros vs calls Hv Hn Hz.
    destruct (win32_run_uncalibrated QPF QPC calls (Win32.initial vs) Hz Hv Hn) as [Hq _];
      [intros u; apply win32_initial_static|].
    rewrite Hq; simpl; lia.
Qed.

(** C3, as it holds.  Take the first call of a translation unit, made after
    any calls of other units, where no variable of the caller hides the
    unit's [frequency] and with an argument other than [frequency]; let the
    reply to its frequency query be nonzero.  That call queries once and
    caches the converted reply.  Over any later calls, none of which passes
    [frequency] as argument in this unit, the cached value never changes and
    no call of this unit queries again; if all later calls are of this unit,
    the platform is never queried again.  Where instead a variable
    [frequency] of the caller is in scope, of nonzero value and not passed
    as argument, no call queries the platform frequency or writes a cached
    value at all. *)
Theorem C3_calibration_queried_once :
  forall (D : Type) (ops : DoubleOps D) (laws : DoubleLaws D) (QPF QPC : nat -> Z * Z),
    (forall (vs : gmap string D) (u : nat) (now : string) (pre later : list (nat * string)),
        vs !! "frequency" = None -> now <> "frequency" ->
        u ∉ pre.*1 -> (u, "frequency") ∉ later ->
        let s0 := Win32.run QPF QPC pre (Win32.initial vs) in
        snd (QPF (Win32.qpf_calls s0)) <> 0 ->
        let s1 := Win32.GET_TIME QPF QPC u now s0 in
        let s2 := Win32.run QPF QPC later s1 in
        Win32.qpf_calls s1 = S (Win32.qpf_calls s0) /\
        Win32.static_frequency u s1 = of_long (snd (QPF (Win32.qpf_calls s0))) /\
        Win32.static_frequency u s2 = Win32.static_frequency u s1 /\
        (forall x, Win32.qpf_calls (Win32.GET_TIME QPF QPC u x s2) = Win32.qpf_calls s2) /\
        ((forall c, c ∈ later -> fst c = u) -> Win32.qpf_calls s2 = Win32.qpf_calls s1)) /\
    (forall (s : Win32.state) (own : D) (calls : list (nat * string)),
        Win32.vars s !! "frequency" = Some own -> feq0 own = false ->
        "frequency" ∉ calls.*2 ->
        Win32.qpf_calls (Win32.run QPF QPC calls s) = Win32.qpf_calls s /\
        Win32.statics (Win32.run QPF QPC calls s) = Win32.statics s).
Proof.
  intros D ops laws QPF QPC. split.
  - intros vs u now pre later Hv Hnow Hpre Hlater s0 Hnz s1 s2.
    assert (Win32.vars s0 !! "frequency" = None) as Hv0 by (apply win32_run_hidden; exact Hv).
    assert (feq0 (Win32.static_frequency u s0) = true) as Hz
      by (apply win32_run_fresh_unit; exact Hpre).
    destruct (win32_GET_TIME_calibrates QPF QPC u now s0 Hv0 Hnow Hz) as [Hq Hs].
    fold s1 in Hq, Hs.
    assert (feq0 (Win32.static_frequency u s1) = false) as Hnz1
      by (rewrite Hs, feq0_of_long; apply Z.eqb_neq; exact Hnz).
    assert (Win32.vars s1 !! "frequency" = None) as Hv1
      by (apply win32_GET_TIME_hidden; exact Hv0).
    assert (Win32.vars s2 !! "frequency" = None) as Hv2
      by (apply win32_run_hidden; exact Hv1).
    assert (Win32.static_frequency u s2 = Win32.static_frequency u s1) as Hk.
    { unfold Win32.static_frequency. subst s2.
      rewrite (win32_run_static_kept QPF QPC later u s1 Hv1 Hnz1 Hlater). reflexivity. }
    split; [exact Hq|split; [exact Hs|split; [exact Hk|split]]].
    + intros x. rewrite win32_GET_TIME_qpf_calls, (win32_frequency_static u s2 Hv2), Hk, Hnz1.
      reflexivity.
    + intros Hu.
      assert (later = Win32.calls_in u later.*2) as E.
      { clear - Hu. unfold Win32.calls_in. induction later as [|[u' x] later IH]; [reflexivity|].
        rewrite !fmap_cons; cbn [snd]. f_equal.
        - f_equal. apply (Hu (u', x)). apply elem_of_cons. left. reflexivity.
        - apply IH. intros c Hc. apply Hu. apply elem_of_cons. right. exact Hc. }
      assert ("frequency" ∉ later.*2) as Hn.
      { intros Hin. apply Hlater. apply list_elem_of_fmap in Hin as ([u' x] & Hx & Hin).
        cbn [snd] in Hx; subst x. rewrite <- (Hu _ Hin). exact Hin. }
      subst s2. rewrite E.
      apply (win32_run_no_query QPF QPC later.*2 u s1 Hv1 Hnz1 Hn).
  - intros s own calls Hown Hnz Hc.
    destruct (win32_run_own_frequency QPF QPC calls s own Hown Hnz Hc) as (Hq & Hs & _).
    split; assumption.
Qed.

(** C9, as it holds.  When the frequency query yields a positive value, the
    divisor of the division in [now = (double)li.QuadPart / frequency] is
    nonzero in every call made where no variable of the caller hides the
    unit's [frequency], from whatever state the call starts; where such a
    variable is in scope the divisor is that variable, zero or not. *)
Theorem C9_divisor_nonzero :
  forall (D : Type) (ops : DoubleOps D) (laws : DoubleLaws D) (QPF QPC : nat -> Z * Z),
    (forall n, 0 < snd (QPF n)) ->
    forall (u : nat) (now : string) (s : Win32.state),
      Win32.value u now (Win32.GET_TIME QPF QPC u now s) =
        Some (fdiv (of_long (Win32.next_ticks QPF QPC u s)) (Win32.divisor QPF QPC u s)) /\
      (Win32.vars s !! "frequency" = None -> feq0 (Win32.divisor QPF QPC u s) = false) /\
      (forall own, Win32.vars s !! "frequency" = Some own -> Win32.divisor QPF QPC u s = own).
Proof.
  intros D ops laws QPF QPC Hpos u now s.
  split; [apply win32_GET_TIME_value|]. rewrite win32_divisor_cases. split.
  - intros ->. destruct (feq0 (Win32.static_frequency u s)) eqn:E; [|exact E].
    rewrite feq0_of_long. apply Z.eqb_neq. specialize (Hpos (Win32.qpf_calls s)). lia.
  - intros own ->. reflexivity.
Qed.

(** ** Numerical claims *)

(** C10. Over exact rational arithmetic, for a reading with
    [0 <= tv_usec <= 999999] the term [tv_usec / 1000000] lies in [[0, 1)],
    and the value the wall-clock variant stores lies in
    [[tv_sec, tv_sec + 1)]. *)
Theorem C10_posix_timestamp_within_second :
  forall (gettimeofday : nat -> Z * timeval) (now : string) (s : Posix.state),
    let t := snd (gettimeofday (Posix.clock_calls s)) in
    0 <= tv_usec t <= 999999 ->
    (0 <= fdiv (of_long (tv_usec t)) (d1000000 : Q) < 1)%Q /\
    exists v : Q,
      Posix.vars (Posix.GET_TIME gettimeofday now s) !! now = Some v /\
      (inject_Z (tv_sec t) <= v < inject_Z (tv_sec t) + 1)%Q.
Proof.
  intros gettimeofday now s t Hu.
  assert (0 <= inject_Z (tv_usec t) / 1000000 < 1)%Q as Hfrac.
  { assert (0 <= inject_Z (tv_usec t))%Q
      by (change 0%Q with (inject_Z 0); rewrite <- Zle_Qle; lia).
    assert (inject_Z (tv_usec t) < 1000000)%Q
      by (change 1000000%Q with (inject_Z 1000000); rewrite <- Zlt_Qlt; lia).
    split.
    - apply Qle_shift_div_l; [reflexivity|]. lra.
    - apply Qlt_shift_div_r; [reflexivity|]. lra. }
  split; [exact Hfrac|].
  rewrite posix_GET_TIME_unfold; simpl. rewrite lookup_insert_eq.
  eexists; split; [reflexivity|].
  unfold Posix.timestamp, Posix.next_reading; fold t.
  change (fadd (of_long (tv_sec t)) (fdiv (of_long (tv_usec t)) d1000000))
    with (inject_Z (tv_sec t) + inject_Z (tv_usec t) / 1000000)%Q.
  change (inject_Z 1000000) with 1000000%Q.
  lra.
Qed.


(** * Evaluations in binary64 *)

Example d1000000_binary64 :
  (d1000000 : double) = S754_finite false 8589934592000000 (-33) /\
  (SF2Q (d1000000 : double) == 1000000)%Q.
Proof. split; reflexivity. Qed.

Example posix_timestamp_binary64 :
  Posix.timestamp (D := double) {| tv_sec := 1700000000; tv_usec := 999999 |}
  = S754_finite false 7130316804194300 (-22).
Proof. reflexivity. Qed.

Example win32_quarter_second :
  let s := Win32.run (D := double) qpf_10MHz qpc_ticks
             [(main_c, "start"); (main_c, "finish")] (Win32.initial ∅) in
  Win32.value main_c "start" s = Some (S754_zero false) /\
  Win32.value main_c "finish" s = Some (S754_finite false 4503599627370496 (-54)) /\
  Win32.qpf_calls s = 1%nat /\ Win32.qpc_calls s = 2%nat.
Proof. vm_compute. repeat split. Qed.

Example win32_unsupported_counter :
  let s := Win32.run (D := double) qpf_unsupported qpc_ticks
             [(main_c, "start"); (main_c, "finish")] (Win32.initial ∅) in
  Win32.value main_c "start" s = Some S754_nan /\
  Win32.value main_c "finish" s = Some (S754_infinity false) /\
  Win32.qpf_calls s = 2%nat.
Proof. vm_compute. repeat split. Qed.

(** A caller with [double frequency = 4.0] in scope: the macro tests and
    divides by that variable; the platform frequency is never queried and
    the unit's static stays zero. *)
Example win32_caller_frequency :
  let s := Win32.run (D := double) qpf_10MHz qpc_ticks
             [(main_c, "start"); (main_c, "finish")]
             (Win32.initial {["frequency" := of_long 4]}) in
  Win32.value main_c "finish" s = Some (of_long 625000) /\
  Win32.qpf_calls s = 0%nat /\ Win32.statics s = ∅.
Proof. vm_compute. repeat split. Qed.

(** [GET_TIME(frequency)] where nothing hides the static: the quotient
    [2500000 / 1e7] replaces the cached frequency, and the next call divides
    by it. *)
Example win32_frequency_as_argument :
  let s := Win32.run (D := double) qpf_10MHz qpc_ticks
             [(main_c, "start"); (main_c, "frequency"); (main_c, "finish")]
             (Win32.initial ∅) in
  Win32.static_frequency main_c s = S754_finite false 4503599627370496 (-54) /\
  Win32.value main_c "finish" s = Some (of_long 20000000) /\
  Win32.vars s !! "frequency" = None.
Proof. vm_compute. repeat split. Qed.

(** Two translation units: each has a static of its own and calibrates it
    in its own first call, here from different replies. *)
Example win32_two_units :
  let s := Win32.run (D := double) qpf_drifting qpc_ticks
             [(main_c, "start"); (worker_c, "finish")] (Win32.initial ∅) in
  Win32.qpf_calls s = 2%nat /\
  Win32.static_frequency main_c s = of_long 10000000 /\
  Win32.static_frequency worker_c s = of_long 3579545 /\
  Win32.value worker_c "finish" s = Some (fdiv (of_long 2500000) (of_long 3579545)).
Proof. vm_compute. repeat split. Qed.

(** In binary64 the upper bound of C10 is not strict: from [2^52] seconds on
    a fraction above one half rounds up to the next second. *)
Example posix_timestamp_reaches_next_second :
  Posix.timestamp (D := double) {| tv_sec := 2 ^ 52 + 1; tv_usec := 999999 |}
  = of_long (2 ^ 52 + 2).
Proof. reflexivity. Qed.

(** Below [-2^53] seconds the conversion of [tv_sec] rounds, and the order of
    two readings can be lost: one microsecond before [-2^53] seconds reads as
    later than [-2^53] seconds. *)
Example posix_seconds_beyond_2_53 :
  let t1 := {| tv_sec := - 2 ^ 53 - 1; tv_usec := 999999 |} in
  let t2 := {| tv_sec := - 2 ^ 53; tv_usec := 0 |} in
  micros t1 <= micros t2 /\
  fge0 (fsub (Posix.timestamp (D := double) t2) (Posix.timestamp (D := double) t1)) = false.
Proof. split; [vm_compute; discriminate|reflexivity]. Qed.

(** * Where the statements of the specification fail *)

(** C2 without its condition: with [double frequency = 4.0] of the caller in
    scope, the second call of a program stores [2500000 / 4.0 = 625000], not
    the tick count over the cached frequency: the cache was never queried
    and is still zero. *)
Lemma C2_counterexample_caller_frequency :
  let s := Win32.run (D := double) qpf_10MHz qpc_ticks [(main_c, "warm"); (main_c, "x")]
             (Win32.initial {["frequency" := of_long 4]}) in
  Win32.value main_c "x" s = Some (of_long 625000) /\
  Win32.qpf_calls s = 0%nat /\
  Win32.static_frequency main_c s = S754_zero false /\
  Win32.value main_c "x" s <>
    Some (fdiv (of_long (snd (qpc_ticks 1))) (Win32.static_frequency main_c s)).
Proof. vm_compute. repeat split. discriminate. Qed.

(** C3 without its conditions: after the first call [GET_TIME(start)] of a
    program the frequency is queried again, or the cached constant changes,
    (1) when the platform's frequency query stores zero, (2) when a variable
    [frequency] of the caller holds zero, (3) when [frequency] is passed as
    the argument, (4) when another translation unit makes its first call. *)
Lemma C3_counterexample_requeried :
  (let s1 := Win32.GET_TIME (D := double) qpf_unsupported qpc_ticks main_c "start"
               (Win32.initial ∅) in
   Win32.qpf_calls s1 = 1%nat /\
   Win32.qpf_calls (Win32.run qpf_unsupported qpc_ticks [(main_c, "finish")] s1) = 2%nat) /\
  (let s1 := Win32.GET_TIME (D := double) qpf_10MHz qpc_ticks main_c "start"
               (Win32.initial {["frequency" := dzero]}) in
   Win32.qpf_calls s1 = 1%nat /\
   Win32.qpf_calls (Win32.run qpf_10MHz qpc_ticks [(main_c, "finish")] s1) = 2%nat) /\
  (let s1 := Win32.GET_TIME (D := double) qpf_10MHz qpc_ticks main_c "start"
               (Win32.initial ∅) in
   Win32.static_frequency main_c s1 = of_long 10000000 /\
   Win32.static_frequency main_c
     (Win32.run qpf_10MHz qpc_ticks [(main_c, "frequency")] s1) <> of_long 10000000) /\
  (let s1 := Win32.GET_TIME (D := double) qpf_10MHz qpc_ticks main_c "start"
               (Win32.initial ∅) in
   Win32.qpf_calls s1 = 1%nat /\
   Win32.qpf_calls (Win32.run qpf_10MHz qpc_ticks [(worker_c, "finish")] s1) = 2%nat).
Proof. vm_compute. repeat split. discriminate. Qed.



(** C7 without its conditions: two calls obtain the same tick count with
    the same cached frequency state, and store different values.  (1) The
    first calls of a unit on two platforms, after one call of another unit:
    the cache is zero for both, the tick count is [2500000], the frequency
    replies are [1e7] and [3579545].  (2) The first calls of two programs
    on one platform, tick count [10^15]; one caller has
    [double frequency = 4.0] in scope. *)
Lemma C7_counterexample_same_reading :
  (let s1 := Win32.run (D := double) qpf_10MHz qpc_ticks [(worker_c, "w")] (Win32.initial ∅) in
   let s2 := Win32.run (D := double) qpf_drifting qpc_ticks [(worker_c, "w")] (Win32.initial ∅) in
   Win32.static_frequency main_c s1 = Win32.static_frequency main_c s2 /\
   snd (qpc_ticks (Win32.qpc_calls s1)) = snd (qpc_ticks (Win32.qpc_calls s2)) /\
   Win32.value main_c "t" (Win32.GET_TIME qpf_10MHz qpc_ticks main_c "t" s1) <>
   Win32.value main_c "t" (Win32.GET_TIME qpf_drifting qpc_ticks main_c "t" s2)) /\
  (let s1 := Win32.initial (D := double) ∅ in
   let s2 := Win32.initial (D := double) {["frequency" := of_long 4]} in
   Win32.static_frequency main_c s1 = Win32.static_frequency main_c s2 /\
   Win32.value main_c "t" (Win32.GET_TIME qpf_10MHz qpc_long_uptime main_c "t" s1) =
     Some (of_long 100000000) /\
   Win32.value main_c "t" (Win32.GET_TIME qpf_10MHz qpc_long_uptime main_c "t" s2) =
     Some (of_long 250000000000000)).
Proof. vm_compute. repeat split. discriminate. Qed.

(** C8 without its condition: the guard tests what [frequency] names at the
    call.  (1) The static is zero and the caller's [frequency] is [4.0]: the
    call makes no query.  (2) The static is calibrated and the caller's
    [frequency] is zero: the call queries again.  (3) Two translation units:
    two queries, although every reply is nonzero. *)
Lemma C8_counterexample_guard_on_caller_variable :
  (let s := Win32.initial (D := double) {["frequency" := of_long 4]} in
   feq0 (Win32.static_frequency main_c s) = true /\
   Win32.qpf_calls (Win32.GET_TIME qpf_10MHz qpc_ticks main_c "x" s) = Win32.qpf_calls s) /\
  (let s := Win32.GET_TIME (D := double) qpf_10MHz qpc_ticks main_c "x"
              (Win32.initial {["frequency" := dzero]}) in
   feq0 (Win32.static_frequency main_c s) = false /\
   Win32.qpf_calls (Win32.GET_TIME qpf_10MHz qpc_ticks main_c "y" s) = S (Win32.qpf_calls s)) /\
  Win32.qpf_calls (Win32.run (D := double) qpf_10MHz qpc_ticks
                     [(main_c, "a"); (worker_c, "b")] (Win32.initial ∅)) = 2%nat.
Proof. vm_compute. repeat split. Qed.

(** C9 without its condition: every frequency reply is positive, yet with a
    variable [frequency = 0.0] of the caller in scope the call divides by
    zero and stores [+infinity]. *)
Lemma C9_counterexample_zero_caller_frequency :
  (forall n, 0 < snd (qpf_10MHz n)) /\
  let s := Win32.initial (D := double) {["frequency" := dzero]} in
  feq0 (Win32.divisor qpf_10MHz qpc_long_uptime main_c s) = true /\
  Win32.value main_c "t" (Win32.GET_TIME qpf_10MHz qpc_long_uptime main_c "t" s) =
    Some (S754_infinity false).
Proof. split; [intros n; reflexivity|]. vm_compute. repeat split. Qed.

(** * The conditional statements at the concrete platforms *)

Lemma C2_witness :
  let s := Win32.initial (D := double) ∅ in
  let s' := Win32.GET_TIME qpf_10MHz qpc_long_uptime main_c "start" s in
  Win32.qpc_calls s' = 1%nat /\
  Win32.value main_c "start" s' =
    Some (fdiv (of_long 1000000000000000) (of_long 10000000)) /\
  Win32.qpf_calls s' = 1%nat /\
  Win32.static_frequency main_c s' = of_long 10000000.
Proof.
  intros s s'.
  destruct (C2_win32_ticks_over_frequency double _ qpf_10MHz qpc_long_uptime main_c "start" s)
    as (H1 & H2 & H3).
  destruct (H3 eq_refl) as [H4 H5].
  split; [exact H1|split; [exact H2|split; [exact H4|]]].
  apply H5. discriminate.
Defined.

Lemma C3_witness :
  (let pre := [(worker_c, "boot")] in
   let later := [(main_c, "lap"); (worker_c, "frequency"); (main_c, "finish")] in
   let s0 := Win32.run (D := double) qpf_drifting qpc_ticks pre (Win32.initial ∅) in
   snd (qpf_drifting (Win32.qpf_calls s0)) <> 0 /\
   let s1 := Win32.GET_TIME qpf_drifting qpc_ticks main_c "start" s0 in
   let s2 := Win32.run qpf_drifting qpc_ticks later s1 in
   Win32.qpf_calls s1 = S (Win32.qpf_calls s0) /\
   Win32.static_frequency main_c s1 = of_long (snd (qpf_drifting (Win32.qpf_calls s0))) /\
   Win32.static_frequency main_c s2 = Win32.static_frequency main_c s1 /\
   (forall x, Win32.qpf_calls (Win32.GET_TIME qpf_drifting qpc_ticks main_c x s2) =
              Win32.qpf_calls s2) /\
   ((forall c, c ∈ later -> fst c = main_c) -> Win32.qpf_calls s2 = Win32.qpf_calls s1)) /\
  (let s := Win32.initial (D := double) {["frequency" := of_long 4]} in
   let calls := [(main_c, "start"); (worker_c, "finish")] in
   Win32.qpf_calls (Win32.run qpf_10MHz qpc_ticks calls s) = Win32.qpf_calls s /\
   Win32.statics (Win32.run qpf_10MHz qpc_ticks calls s) = Win32.statics s).
Proof.
  split.
  - intros pre later s0.
    split; [vm_compute; discriminate|].
    apply (proj1 (C3_calibration_queried_once double _ _ qpf_drifting qpc_ticks)
             ∅ main_c "start" pre later).
    + reflexivity.
    + discriminate.
    + by_evaluation.
    + by_evaluation.
    + vm_compute; discriminate.
  - intros s calls.
    apply (proj2 (C3_calibration_queried_once double _ _ qpf_10MHz qpc_ticks)
             s (of_long 4) calls).
    + reflexivity.
    + reflexivity.
    + by_evaluation.
Defined.



Lemma C7_witness :
  (Posix.vars (Posix.GET_TIME (D := double) clock_2023 "a"
                 {| Posix.vars := ∅; Posix.clock_calls := 3 |}) !! "a" =
   Posix.vars (Posix.GET_TIME (D := double) clock_2023 "b"
                 {| Posix.vars := {["a" := S754_nan]}; Posix.clock_calls := 3 |}) !! "b") /\
  (let s1 := Win32.run (D := double) qpf_10MHz qpc_ticks [(main_c, "warm")] (Win32.initial ∅) in
   let s2 := Win32.run (D := double) qpf_10MHz qpc_ticks [(worker_c, "warm")]
               (Win32.initial {["a" := S754_nan; "b" := of_long 7]}) in
   Win32.value main_c "a" (Win32.GET_TIME qpf_10MHz qpc_ticks main_c "a" s1) =
   Win32.value worker_c "b" (Win32.GET_TIME qpf_drifting qpc_ticks worker_c "b" s2)) /\
  (Win32.value main_c "a"
     (Win32.GET_TIME (D := double) qpf_10MHz qpc_long_uptime main_c "a" (Win32.initial ∅)) =
   Win32.value worker_c "frequency"
     (Win32.GET_TIME (D := double) qpf_drifting qpc_long_uptime worker_c "frequency"
        (Win32.initial {["a" := S754_nan]}))).
Proof.
  split; [|split].
  - apply (proj1 (C7_result_depends_on_platform_only double _)). reflexivity.
  - apply (proj2 (C7_result_depends_on_platform_only double _)
             qpf_10MHz qpc_ticks qpf_drifting qpc_ticks main_c worker_c "a" "b").
    + reflexivity.
    + reflexivity.
    + vm_compute; discriminate.
    + reflexivity.
  - apply (proj2 (C7_result_depends_on_platform_only double _)
             qpf_10MHz qpc_long_uptime qpf_drifting qpc_long_uptime main_c worker_c
             "a" "frequency").
    + reflexivity.
    + reflexivity.
    + reflexivity.
    + reflexivity.
Defined.

Lemma C8_witness :
  (let s := Win32.initial (D := double) ∅ in
   let s' := Win32.GET_TIME qpf_10MHz qpc_ticks main_c "a" s in
   Win32.qpf_calls s' = S (Win32.qpf_calls s) /\
   Win32.qpf_calls (Win32.GET_TIME qpf_10MHz qpc_ticks main_c "b" s') = Win32.qpf_calls s' /\
   Win32.static_frequency main_c s' = of_long 10000000) /\
  (Win32.qpf_calls (Win32.run (D := double) qpf_10MHz qpc_ticks
                      (Win32.calls_in main_c ["a"; "b"; "c"]) (Win32.initial ∅)) <= 1)%nat /\
  Win32.qpf_calls (Win32.run (D := double) qpf_unsupported qpc_ticks
                     [(main_c, "a"); (worker_c, "b"); (main_c, "c")] (Win32.initial ∅)) =
    length [(main_c, "a"); (worker_c, "b"); (main_c, "c")].
Proof.
  split; [|split].
  - intros s s'.
    pose proof (proj1 (C8_guard_is_zero_test double _ _ qpf_10MHz qpc_ticks) main_c "a" s)
      as Ha.
    pose proof (proj1 (C8_guard_is_zero_test double _ _ qpf_10MHz qpc_ticks) main_c "b" s')
      as Hb.
    cbv zeta in Ha, Hb.
    destruct Ha as (Hq & _ & _ & Hst). destruct Hb as (_ & Hq' & _ & _).
    split; [apply Hq; reflexivity|split; [apply Hq'; reflexivity|]].
    apply Hst. reflexivity.
  - apply (proj1 (proj2 (C8_guard_is_zero_test double _ _ qpf_10MHz qpc_ticks))).
    + reflexivity.
    + by_evaluation.
    + discriminate.
  - apply (proj2 (proj2 (C8_guard_is_zero_test double _ _ qpf_unsupported qpc_ticks))).
    + reflexivity.
    + by_evaluation.
    + intros n; reflexivity.
Defined.

Lemma C9_witness :
  (forall n, 0 < snd (qpf_10MHz n)) /\
  (let s := Win32.initial (D := double) ∅ in
   Win32.value main_c "start" (Win32.GET_TIME qpf_10MHz qpc_ticks main_c "start" s) =
     Some (fdiv (of_long (Win32.next_ticks qpf_10MHz qpc_ticks main_c s))
                (Win32.divisor qpf_10MHz qpc_ticks main_c s)) /\
   feq0 (Win32.divisor qpf_10MHz qpc_ticks main_c s) = false) /\
  (let s := Win32.initial (D := double) {["frequency" := of_long 4]} in
   Win32.divisor qpf_10MHz qpc_ticks main_c s = of_long 4).
Proof.
  assert (forall n, 0 < snd (qpf_10MHz n)) as Hpos by (intros n; reflexivity).
  split; [exact Hpos|split].
  - intros s.
    destruct (C9_divisor_nonzero double _ _ qpf_10MHz qpc_ticks Hpos main_c "start" s)
      as (Hv & Hnz & _).
    split; [exact Hv|apply Hnz; reflexivity].
  - intros s.
    destruct (C9_divisor_nonzero double _ _ qpf_10MHz qpc_ticks Hpos main_c "start" s)
      as (_ & _ & Hown).
    apply Hown. reflexivity.
Defined.

Lemma C10_witness :
  0 <= 5000 <= 999999 /\
  (0 <= fdiv (of_long 5000) (d1000000 : Q) < 1)%Q /\
  exists v : Q,
    Posix.vars (Posix.GET_TIME clock_2023 "start"
                  {| Posix.vars := ∅; Posix.clock_calls := 5 |}) !! "start" = Some v /\
    (inject_Z 1700000000 <= v < inject_Z 1700000000 + 1)%Q.
Proof.
  split; [lia|].
  apply (C10_posix_timestamp_within_second clock_2023 "start"
           {| Posix.vars := ∅; Posix.clock_calls := 5 |}).
  simpl; lia.
Defined.

(** * Further properties of the macro *)

(** ** The error of one rounding *)

Lemma rne_error x m e l :
  inbetween x m e l ->
  (x - (1 # 2) * pow2 e <= inject_Z (round_nearest_even m l) * pow2 e <= x + (1 # 2) * pow2 e)%Q.
Proof.
  pose proof (pow2_pos e) as Hp.
  destruct l as [|[| |]]; cbn [inbetween round_nearest_even]; try destruct (Z.even m);
    rewrite ?inject_Z_plus; change (inject_Z 1) with 1%Q;
    revert Hp; generalize (pow2 e) (inject_Z m); intros p a Hp H; split; lra.
Qed.

(** Below [2^k] a rounding moves a value by at most [2^(k-54)]. *)
Lemma Rnd_error k x v :
  -1021 <= k -> Rnd x v -> (x < pow2 k)%Q ->
  (x - pow2 (k - 54) <= v <= x + pow2 (k - 54))%Q.
Proof.
  intros Hk (e & m & l & Hc & Hm & Hx & Hv) Hlt.
  pose proof (rne_error _ _ _ _ Hx) as Herr.
  assert (e <= k - 53) as He.
  { destruct Hc as (_ & _ & [->|Hb]); [lia|].
    assert (e + 52 < k); [|lia]. apply pow2_lt_inv. lra. }
  pose proof (pow2_le e (k - 53) He) as Hle.
  pose proof (pow2_succ (k - 54)) as E. replace (k - 54 + 1) with (k - 53) in E by lia.
  lra.
Qed.

Lemma RndS_error k x v :
  -1021 <= k -> RndS x v -> (- pow2 k < x < pow2 k)%Q ->
  (x - pow2 (k - 54) <= v <= x + pow2 (k - 54))%Q.
Proof.
  intros Hk [[P R]|[N R]] Hb.
  - apply (Rnd_error k); [exact Hk|exact R|lra].
  - pose proof (Rnd_error k _ _ Hk R ltac:(lra)). lra.
Qed.

(** ** Accuracy of the wall-clock variant in binary64 *)

Lemma b64_gt0_spec r : SFfinite r = true -> (b64_gt0 r = true <-> (0 < SF2Q r)%Q).
Proof.
  destruct r as [s|s| |s m e]; cbn [SFfinite]; try discriminate; intros _.
  - unfold SF2Q; cbn [SFsign SFmag]. split; [discriminate|destruct s; intros H; lra].
  - pose proof (SFmag_finite_pos s m e) as Hp.
    cbn [SFmag] in Hp. unfold b64_gt0, SF2Q; cbn [SFsign SFmag SFltb SFcompare].
    destruct s; split; intros H; try reflexivity; try discriminate; lra.
Qed.

(** The microseconds as a rational fraction of a second. *)
Lemma micros_fraction_exact usec :
  (inject_Z usec == 1000000 * (inject_Z usec / 1000000))%Q.
Proof. field. Qed.

Lemma micros_fraction_error usec :
  0 <= usec <= 999999 ->
  (inject_Z usec / 1000000 - pow2 (-54)
   <= SF2Q (SFdiv prec emax (b64_of_long usec) (b64_of_long 1000000))
   <= inject_Z usec / 1000000 + pow2 (-54))%Q.
Proof.
  intros Hu. destruct (micros_fraction usec Hu) as [[_ R] _].
  apply (RndS_error 0); [lia|exact R|].
  change (pow2 0) with 1%Q.
  pose proof (micros_fraction_exact usec) as E.
  assert (0 <= inject_Z usec)%Q by (change 0%Q with (inject_Z 0); rewrite <- Zle_Qle; lia).
  assert (inject_Z usec <= 999999)%Q
    by (change 999999%Q with (inject_Z 999999); rewrite <- Zle_Qle; lia).
  lra.
Qed.

(** For a realistic reading the stored double is within
    [2^-21 + 2^-54] seconds of the exact sum, at or above the seconds and
    below the next second. *)
Lemma timestamp_error sec usec :
  0 <= sec < 2 ^ 32 -> 0 <= usec <= 999999 ->
  SFfinite (b64_timestamp sec usec) = true /\
  (inject_Z sec + inject_Z usec / 1000000 - (pow2 (-21) + pow2 (-54))
   <= SF2Q (b64_timestamp sec usec)
   <= inject_Z sec + inject_Z usec / 1000000 + (pow2 (-21) + pow2 (-54)))%Q /\
  (inject_Z sec <= SF2Q (b64_timestamp sec usec) < inject_Z sec + 1)%Q.
Proof.
  intros Hs Hu.
  assert (2 ^ 32 < 2 ^ 53) as H3253 by (apply Z.pow_lt_mono_r; lia).
  destruct (timestamp_correct sec usec ltac:(unfold int64; lia) Hu) as [[F R] _].
  pose proof (micros_fraction_error usec Hu) as Hf.
  destruct (micros_fraction usec Hu) as [_ [Hf0 Hf1]].
  pose proof (of_long_exact sec ltac:(lia)) as Es.
  pose proof (micros_fraction_exact usec) as E.
  assert (0 <= inject_Z usec)%Q as Hu0 by (change 0%Q with (inject_Z 0); rewrite <- Zle_Qle; lia).
  assert (inject_Z usec <= 999999)%Q as Hu1
    by (change 999999%Q with (inject_Z 999999); rewrite <- Zle_Qle; lia).
  assert (0 <= inject_Z sec)%Q as Hs0 by (change 0%Q with (inject_Z 0); rewrite <- Zle_Qle; lia).
  assert (inject_Z sec + 1 <= pow2 32)%Q as Hs1.
  { rewrite (pow2_Z 32) by lia. apply inject_Z_succ_le. lia. }
  pose proof (pow2_succ 32) as E33. change (32 + 1) with 33 in E33.
  pose proof (pow2_pos 32) as Hp32.
  assert (pow2 (-21) == 1 # 2097152)%Q as E21 by reflexivity.
  assert (pow2 (-54) == 1 # 18014398509481984)%Q as E54 by reflexivity.
  pose proof (RndS_error 33 _ _ ltac:(lia) R ltac:(lra)) as Herr.
  change (33 - 54) with (-21) in Herr.
  split; [exact F|split; [lra|split]].
  - assert (RndS (SF2Q (b64_of_long sec)) (SF2Q (b64_of_long sec))) as Rs.
    { apply (RndS_compat (inject_Z sec) _ (inject_Z sec));
        [symmetry; exact Es|symmetry; exact Es|apply RndS_int; lia]. }
    rewrite <- Es. apply (RndS_mono _ _ _ _ Rs R). lra.
  - lra.
Qed.

(** ** The header's example, step by step *)

Lemma posix_example_unfold {D : Type} `{DoubleOps D} (g : nat -> Z * timeval) (s : Posix.state) :
  let t1 := Posix.timestamp (snd (g (Posix.clock_calls s))) in
  let t2 := Posix.timestamp (snd (g (S (Posix.clock_calls s)))) in
  posix_example g s =
  {| Posix.vars := <["elapsed" := fsub t2 t1]>
                     (<["finish" := t2]> (<["start" := t1]> (Posix.vars s)));
     Posix.clock_calls := S (S (Posix.clock_calls s)) |}.
Proof.
  intros t1 t2. unfold posix_example.
  rewrite !posix_GET_TIME_unfold; unfold Posix.next_reading; simpl.
  rewrite lookup_insert_eq, lookup_insert_ne by discriminate.
  rewrite lookup_insert_eq. reflexivity.
Qed.

Lemma SFsub_diag x : SFfinite x = true -> SFsub prec emax x x = S754_zero false.
Proof.
  destruct x as [s|s| |s m e]; cbn [SFfinite]; try discriminate; intros _.
  - destruct s; reflexivity.
  - cbn [SFsub]. rewrite Z.sub_diag. reflexivity.
Qed.

(** X1. On the wall-clock variant in binary64, for a reading with seconds
    below [2^32] and normalised microseconds, the stored double is finite and
    less than half a microsecond away from the exact value
    [tv_sec + tv_usec / 1000000] (the macro body in exact arithmetic). *)
Theorem X1_posix_half_microsecond_accuracy :
  forall (gettimeofday : nat -> Z * timeval) (now : string) (s : @Posix.state double),
    let t := snd (gettimeofday (Posix.clock_calls s)) in
    realistic_reading t ->
    exists v : double,
      Posix.vars (Posix.GET_TIME gettimeofday now s) !! now = Some v /\
      SFfinite v = true /\
      (Posix.timestamp (D := Q) t - (1 # 2000000) < SF2Q v
       < Posix.timestamp (D := Q) t + (1 # 2000000))%Q.
Proof.
  intros g now s t [Hs Hu].
  rewrite posix_GET_TIME_unfold; cbn [Posix.vars]. rewrite lookup_insert_eq.
  eexists; split; [reflexivity|].
  unfold Posix.next_reading; fold t.
  destruct (timestamp_error (tv_sec t) (tv_usec t) Hs Hu) as (F & Herr & _).
  destruct t as [sec usec]; cbn [tv_sec tv_usec] in *.
  split; [exact F|].
  change (Posix.timestamp (D := Q) {| tv_sec := sec; tv_usec := usec |})
    with (inject_Z sec + inject_Z usec / inject_Z 1000000)%Q.
  change (inject_Z 1000000) with 1000000%Q.
  assert (pow2 (-21) == 1 # 2097152)%Q as E21 by reflexivity.
  assert (pow2 (-54) == 1 # 18014398509481984)%Q as E54 by reflexivity.
  lra.
Qed.

(** X2. In binary64 the stored double of such a reading is a finite number
    that lies in [[tv_sec, tv_sec + 1)]: truncating it gives back the
    seconds. *)
Theorem X2_posix_binary64_within_second :
  forall (gettimeofday : nat -> Z * timeval) (now : string) (s : @Posix.state double),
    let t := snd (gettimeofday (Posix.clock_calls s)) in
    realistic_reading t ->
    exists v : double,
      Posix.vars (Posix.GET_TIME gettimeofday now s) !! now = Some v /\
      SFfinite v = true /\
      (inject_Z (tv_sec t) <= SF2Q v < inject_Z (tv_sec t) + 1)%Q.
Proof.
  intros g now s t [Hs Hu].
  rewrite posix_GET_TIME_unfold; cbn [Posix.vars]. rewrite lookup_insert_eq.
  eexists; split; [reflexivity|].
  unfold Posix.next_reading; fold t.
  destruct (timestamp_error (tv_sec t) (tv_usec t) Hs Hu) as (F & _ & Hb).
  destruct t as [sec usec]; split; [exact F|exact Hb].
Qed.

(** X3. Microsecond resolution of the header's example in binary64: when
    the two readings are realistic and the clock advanced by at least one
    microsecond, [elapsed > 0]; when the clock did not advance, [elapsed]
    is exactly [+0.0]. *)
Theorem X3_posix_example_resolution :
  forall (gettimeofday : nat -> Z * timeval) (s : @Posix.state double),
    let r1 := snd (gettimeofday (Posix.clock_calls s)) in
    let r2 := snd (gettimeofday (S (Posix.clock_calls s))) in
    realistic_reading r1 -> realistic_reading r2 ->
    exists elapsed : double,
      Posix.vars (posix_example gettimeofday s) !! "elapsed" = Some elapsed /\
      (micros r1 < micros r2 -> b64_gt0 elapsed = true) /\
      (r1 = r2 -> elapsed = S754_zero false).
Proof.
  intros g s r1 r2 [Hs1 Hu1] [Hs2 Hu2].
  rewrite posix_example_unfold; cbn [Posix.vars]. rewrite lookup_insert_eq.
  eexists; split; [reflexivity|]. fold r1 r2.
  change (@fsub double b64_ops) with (SFsub prec emax).
  destruct (timestamp_error (tv_sec r1) (tv_usec r1) Hs1 Hu1) as (F1 & E1 & B1).
  destruct (timestamp_error (tv_sec r2) (tv_usec r2) Hs2 Hu2) as (F2 & E2 & B2).
  split.
  - intros Hlt. unfold micros in Hlt.
    destruct r1 as [sec1 usec1], r2 as [sec2 usec2]; cbn [tv_sec tv_usec] in *.
    assert (2 ^ 32 < 2 ^ 63) as H3263 by (apply Z.pow_lt_mono_r; lia).
    destruct (timestamp_correct sec1 usec1 ltac:(unfold int64; lia) Hu1) as [R1 _].
    destruct (timestamp_correct sec2 usec2 ltac:(unfold int64; lia) Hu2) as [R2 _].
    assert (inject_Z sec1 + 1 <= pow2 32)%Q as Hs1'
      by (rewrite (pow2_Z 32) by lia; apply inject_Z_succ_le; lia).
    assert (inject_Z sec2 + 1 <= pow2 32)%Q as Hs2'
      by (rewrite (pow2_Z 32) by lia; apply inject_Z_succ_le; lia).
    assert (0 <= inject_Z sec1)%Q as Hs10
      by (change 0%Q with (inject_Z 0); rewrite <- Zle_Qle; lia).
    assert (0 <= inject_Z sec2)%Q as Hs20
      by (change 0%Q with (inject_Z 0); rewrite <- Zle_Qle; lia).
    pose proof (pow2_lt 32 1023 ltac:(lia)) as H1023. pose proof (pow2_pos 32) as Hp32.
    destruct (SFsub_correct _ _ (rounds_to_representable _ _ R2)
                (rounds_to_representable _ _ R1)) as [F R]; [lra|].
    apply b64_gt0_spec; [exact F|].
    assert (pow2 (-25) <= SF2Q (SFsub prec emax (b64_timestamp sec2 usec2)
                                  (b64_timestamp sec1 usec1)))%Q as Hge.
    { apply (RndS_mono (pow2 (-25)) _ _ _ (RndS_pow2 (-25) ltac:(lia)) R).
      pose proof (micros_fraction_exact usec1) as X1.
      pose proof (micros_fraction_exact usec2) as X2.
      assert (inject_Z (sec1 * 1000000 + usec1) + 1 <= inject_Z (sec2 * 1000000 + usec2))%Q as Hq
        by (apply inject_Z_succ_le; lia).
      rewrite !inject_Z_plus, !inject_Z_mult in Hq.
      change (inject_Z 1000000) with 1000000%Q in Hq.
      assert (pow2 (-21) == 1 # 2097152)%Q as E21 by reflexivity.
      assert (pow2 (-54) == 1 # 18014398509481984)%Q as E54 by reflexivity.
      assert (pow2 (-25) == 1 # 33554432)%Q as E25 by reflexivity.
      lra. }
    pose proof (pow2_pos (-25)). lra.
  - intros <-. apply SFsub_diag.
    destruct r1 as [sec1 usec1]; exact F1.
Qed.

(** X4. Accuracy of the header's example in binary64: for two realistic
    readings, [elapsed] is finite and within 1.5 microseconds of the exact
    difference of the two readings. *)
Theorem X4_posix_example_accuracy :
  forall (gettimeofday : nat -> Z * timeval) (s : @Posix.state double),
    let r1 := snd (gettimeofday (Posix.clock_calls s)) in
    let r2 := snd (gettimeofday (S (Posix.clock_calls s))) in
    realistic_reading r1 -> realistic_reading r2 ->
    exists elapsed : double,
      Posix.vars (posix_example gettimeofday s) !! "elapsed" = Some elapsed /\
      SFfinite elapsed = true /\
      (Posix.timestamp (D := Q) r2 - Posix.timestamp (D := Q) r1 - (3 # 2000000)
       < SF2Q elapsed
       < Posix.timestamp (D := Q) r2 - Posix.timestamp (D := Q) r1 + (3 # 2000000))%Q.
Proof.
  intros g s r1 r2 [Hs1 Hu1] [Hs2 Hu2].
  rewrite posix_example_unfold; cbn [Posix.vars]. rewrite lookup_insert_eq.
  eexists; split; [reflexivity|]. fold r1 r2.
  change (@fsub double b64_ops) with (SFsub prec emax).
  destruct (timestamp_error (tv_sec r1) (tv_usec r1) Hs1 Hu1) as (F1 & E1 & B1).
  destruct (timestamp_error (tv_sec r2) (tv_usec r2) Hs2 Hu2) as (F2 & E2 & B2).
  destruct r1 as [sec1 usec1], r2 as [sec2 usec2]; cbn [tv_sec tv_usec] in *.
  assert (2 ^ 32 < 2 ^ 63) as H3263 by (apply Z.pow_lt_mono_r; lia).
  destruct (timestamp_correct sec1 usec1 ltac:(unfold int64; lia) Hu1) as [R1 _].
  destruct (timestamp_correct sec2 usec2 ltac:(unfold int64; lia) Hu2) as [R2 _].
  assert (inject_Z sec1 + 1 <= pow2 32)%Q as Hs1'
    by (rewrite (pow2_Z 32) by lia; apply inject_Z_succ_le; lia).
  assert (inject_Z sec2 + 1 <= pow2 32)%Q as Hs2'
    by (rewrite (pow2_Z 32) by lia; apply inject_Z_succ_le; lia).
  assert (0 <= inject_Z sec1)%Q as Hs10 by (change 0%Q with (inject_Z 0); rewrite <- Zle_Qle; lia).
  assert (0 <= inject_Z sec2)%Q as Hs20 by (change 0%Q with (inject_Z 0); rewrite <- Zle_Qle; lia).
  pose proof (pow2_lt 32 1023 ltac:(lia)) as H1023. pose proof (pow2_pos 32) as Hp32.
  pose proof (pow2_succ 32) as E33. change (32 + 1) with 33 in E33.
  destruct (SFsub_correct _ _ (rounds_to_representable _ _ R2)
              (rounds_to_representable _ _ R1)) as [F R]; [lra|].
  split; [exact F|].
  pose proof (RndS_error 33 _ _ ltac:(lia) R ltac:(lra)) as Herr.
  change (33 - 54) with (-21) in Herr.
  change (Posix.timestamp (D := Q) {| tv_sec := sec1; tv_usec := usec1 |})
    with (inject_Z sec1 + inject_Z usec1 / inject_Z 1000000)%Q.
  change (Posix.timestamp (D := Q) {| tv_sec := sec2; tv_usec := usec2 |})
    with (inject_Z sec2 + inject_Z usec2 / inject_Z 1000000)%Q.
  change (inject_Z 1000000) with 1000000%Q.
  assert (pow2 (-21) == 1 # 2097152)%Q as E21 by reflexivity.
  assert (pow2 (-54) == 1 # 18014398509481984)%Q as E54 by reflexivity.
  lra.
Qed.

(** ** Further properties of the counter variant *)

Lemma SF2Q_sign_neg r : (SF2Q r < 0)%Q -> SFsign r = true.
Proof.
  intros H. unfold SF2Q in H. pose proof (SFmag_nonneg r).
  destruct (SFsign r); [reflexivity|lra].
Qed.

(** A nonzero 64-bit integer converts to a finite nonzero double of its sign. *)
Lemma of_long_shape c :
  int64 c -> c <> 0 -> exists m e, b64_of_long c = S754_finite (c <? 0) m e.
Proof.
  intros Hc Hnz. destruct (of_long_int64 c Hc) as [[F R] _].
  assert (RndS 1 1) as R1 by exact (RndS_pow2 0 ltac:(lia)).
  destruct (Z.ltb_spec c 0) as [Hneg|Hpos].
  - assert (SF2Q (b64_of_long c) <= - (1))%Q as Hle.
    { apply (RndS_mono (inject_Z c) (- (1)) _ _ R (RndS_opp _ _ R1)).
      change (- (1))%Q with (inject_Z (-1)). rewrite <- Zle_Qle. lia. }
    pose proof (SF2Q_sign_neg (b64_of_long c) ltac:(lra)) as Hs.
    destruct (b64_of_long c) as [s|s| |s m e]; try discriminate F.
    + rewrite SF2Q_zero in Hle. lra.
    + cbn [SFsign] in Hs. subst s. eauto.
  - assert (1 <= SF2Q (b64_of_long c))%Q as Hle.
    { apply (RndS_mono 1 (inject_Z c) _ _ R1 R).
      change 1%Q with (inject_Z 1). rewrite <- Zle_Qle. lia. }
    pose proof (SF2Q_sign (b64_of_long c) ltac:(lra)) as Hs.
    destruct (b64_of_long c) as [s|s| |s m e]; try discriminate F.
    + rewrite SF2Q_zero in Hle. lra.
    + cbn [SFsign] in Hs. subst s. eauto.
Qed.

(** The quotient of a tick count by a positive frequency has the sign of
    the tick count: it cannot round to zero. *)
Lemma quotient_sign f c :
  0 < f < 2 ^ 63 -> int64 c ->
  let v := SFdiv prec emax (b64_of_long c) (b64_of_long f) in
  (0 < c -> (0 < SF2Q v)%Q) /\ (c < 0 -> (SF2Q v < 0)%Q) /\ (c = 0 -> v = S754_zero false).
Proof.
  intros Hf Hc v.
  destruct (frequency_value f Hf) as (_ & [HF1 HF2] & _).
  destruct (ticks_over_frequency f Hf c Hc) as [[_ R] _]. fold v in R.
  destruct (of_long_int64 c Hc) as [[_ RC] _].
  assert (RndS 1 1) as R1 by exact (RndS_pow2 0 ltac:(lia)).
  pose proof (RndS_pow2 (-63) ltac:(lia)) as Rp.
  pose proof (pow2_pos (-63)) as Hp. pose proof (pow2_pos 63) as Hp63.
  assert (pow2 (-63) * pow2 63 == 1)%Q as E by (rewrite <- pow2_add; reflexivity).
  split; [|split].
  - intros Hpos.
    assert (1 <= SF2Q (b64_of_long c))%Q as Hle.
    { apply (RndS_mono 1 (inject_Z c) _ _ R1 RC).
      change 1%Q with (inject_Z 1). rewrite <- Zle_Qle. lia. }
    assert (pow2 (-63) <= SF2Q v)%Q; [|lra].
    apply (RndS_mono _ _ _ _ Rp R).
    apply Qle_shift_div_l; [lra|]. nra.
  - intros Hneg.
    assert (SF2Q (b64_of_long c) <= - (1))%Q as Hle.
    { apply (RndS_mono (inject_Z c) (- (1)) _ _ RC (RndS_opp _ _ R1)).
      change (- (1))%Q with (inject_Z (-1)). rewrite <- Zle_Qle. lia. }
    assert (SF2Q v <= - pow2 (-63))%Q; [|lra].
    apply (RndS_mono _ _ _ _ R (RndS_opp _ _ Rp)).
    apply Qle_shift_div_r; [lra|]. nra.
  - intros ->. subst v.
    destruct (of_long_shape f ltac:(unfold int64; lia) ltac:(lia)) as (m & e & ->).
    replace (f <? 0) with false by (symmetry; apply Z.ltb_ge; lia).
    reflexivity.
Qed.

(** X5. On the counter variant in binary64, in a program of one translation
    unit where no variable of the caller hides [frequency] and [frequency] is
    not passed as argument, with a positive 64-bit frequency and 64-bit tick
    counts: every call stores a finite double (never NaN or an infinity) of
    magnitude at most [2^63], positive for a positive tick count, negative
    for a negative one, and [+0.0] for zero. *)
Theorem X5_win32_result_finite :
  forall (QPF QPC : nat -> Z * Z) (u : nat) (now : string) (pre : list string)
         (vs : gmap string double),
    vs !! "frequency" = None -> "frequency" ∉ pre ->
    0 < snd (QPF 0%nat) < 2 ^ 63 ->
    (forall n, int64 (snd (QPC n))) ->
    let s := Win32.run QPF QPC (Win32.calls_in u pre) (Win32.initial vs) in
    let ticks := snd (QPC (Win32.qpc_calls s)) in
    exists v : double,
      Win32.value u now (Win32.GET_TIME QPF QPC u now s) = Some v /\
      SFfinite v = true /\
      (- inject_Z (2 ^ 63) <= SF2Q v <= inject_Z (2 ^ 63))%Q /\
      (0 < ticks -> (0 < SF2Q v)%Q) /\
      (ticks < 0 -> (SF2Q v < 0)%Q) /\
      (ticks = 0 -> v = S754_zero false).
Proof.
  intros QPF QPC u now pre vs Hv Hpre Hf Hint s ticks.
  rewrite win32_GET_TIME_value.
  eexists; split; [reflexivity|].
  destruct (win32_reachable_divisor QPF QPC u pre vs Hv Hpre ltac:(lia)) as (Hd & _ & _).
  fold s in Hd. rewrite Hd, win32_next_ticks_unfold. fold ticks.
  change (fdiv (of_long ticks) (of_long (snd (QPF 0%nat))))
    with (SFdiv prec emax (b64_of_long ticks) (b64_of_long (snd (QPF 0%nat)))).
  destruct (ticks_over_frequency _ Hf ticks (Hint _)) as [R B].
  pose proof (rounds_to_bounded 63 _ _ ltac:(lia) R B) as HB.
  rewrite (pow2_Z 63) in HB by lia.
  split; [exact (proj1 R)|split; [exact HB|]].
  exact (quotient_sign (snd (QPF 0%nat)) ticks Hf (Hint _)).
Qed.

(** X6. Under the same conditions on the program, when tick count and
    frequency are of magnitude at most [2^53] (so both convert exactly),
    the double stored is the correctly rounded quotient
    [ticks / frequency]; in particular a tick count that is a whole
    multiple [q] of the frequency gives exactly [q] seconds. *)
Theorem X6_win32_correctly_rounded :
  forall (QPF QPC : nat -> Z * Z) (u : nat) (now : string) (pre : list string)
         (vs : gmap string double),
    vs !! "frequency" = None -> "frequency" ∉ pre ->
    let s := Win32.run QPF QPC (Win32.calls_in u pre) (Win32.initial vs) in
    let ticks := snd (QPC (Win32.qpc_calls s)) in
    let f := snd (QPF 0%nat) in
    0 < f <= 2 ^ 53 -> Z.abs ticks <= 2 ^ 53 ->
    exists v : double,
      Win32.value u now (Win32.GET_TIME QPF QPC u now s) = Some v /\
      rounds_to (inject_Z ticks / inject_Z f) v /\
      (forall q, ticks = q * f -> (SF2Q v == inject_Z q)%Q).
Proof.
  intros QPF QPC u now pre vs Hv Hpre s ticks f Hf Hc.
  assert (2 ^ 53 < 2 ^ 63) as H5363 by (apply Z.pow_lt_mono_r; lia).
  rewrite win32_GET_TIME_value.
  eexists; split; [reflexivity|].
  destruct (win32_reachable_divisor QPF QPC u pre vs Hv Hpre ltac:(fold f; lia)) as (Hd & _ & _).
  fold s in Hd. rewrite Hd, win32_next_ticks_unfold. fold ticks f.
  change (fdiv (of_long ticks) (of_long f))
    with (SFdiv prec emax (b64_of_long ticks) (b64_of_long f)).
  destruct (ticks_over_frequency f ltac:(lia) ticks ltac:(unfold int64; lia)) as [R _].
  assert (rounds_to (inject_Z ticks / inject_Z f)
            (SFdiv prec emax (b64_of_long ticks) (b64_of_long f))) as R'.
  { eapply rounds_to_compat; [|exact R].
    rewrite (of_long_exact ticks Hc), (of_long_exact f) by lia. reflexivity. }
  split; [exact R'|].
  intros q Hq. destruct R' as [_ R'].
  assert (0 < inject_Z f)%Q as Hfq by (change 0%Q with (inject_Z 0); rewrite <- Zlt_Qlt; lia).
  assert (inject_Z ticks / inject_Z f == inject_Z q)%Q as E.
  { rewrite Hq, inject_Z_mult. field. lra. }
  assert (Z.abs q <= 2 ^ 53) as Hqb by nia.
  apply (RndS_unique (inject_Z q)); [|apply RndS_int; exact Hqb].
  exact (RndS_compat _ _ _ _ E (Qeq_refl _) R').
Qed.

(** X7. When the frequency query keeps storing zero, no call stores a
    number, in whatever translation units the calls are written: where no
    variable of the caller hides [frequency] and [frequency] has not been
    passed as argument, the result is NaN for a tick count of zero and
    otherwise the infinity of the sign of the tick count. *)
Theorem X7_win32_zero_frequency_not_finite :
  forall (QPF QPC : nat -> Z * Z) (u : nat) (now : string) (pre : list (nat * string))
         (vs : gmap string double),
    vs !! "frequency" = None -> "frequency" ∉ pre.*2 ->
    (forall n, snd (QPF n) = 0) ->
    (forall n, int64 (snd (QPC n))) ->
    let s := Win32.run QPF QPC pre (Win32.initial vs) in
    let ticks := snd (QPC (Win32.qpc_calls s)) in
    Win32.value u now (Win32.GET_TIME QPF QPC u now s) =
      Some (if ticks =? 0 then S754_nan else S754_infinity (ticks <? 0)).
Proof.
  intros QPF QPC u now pre vs Hv Hpre Hz Hint s ticks.
  rewrite win32_GET_TIME_value. f_equal.
  rewrite win32_next_ticks_unfold. fold ticks.
  destruct (win32_run_uncalibrated QPF QPC pre (Win32.initial vs) Hz Hv Hpre)
    as (_ & Hfz & Hvs); [intros u'; apply win32_initial_static|]. fold s in Hfz, Hvs.
  rewrite win32_divisor_cases, Hvs, (Hfz u), Hz.
  change (fdiv (of_long ticks) (of_long 0))
    with (SFdiv prec emax (b64_of_long ticks) (S754_zero false)).
  destruct (Z.eqb_spec ticks 0) as [->|Hnz]; [reflexivity|].
  destruct (of_long_shape ticks (Hint _) Hnz) as (m & e & ->).
  cbn [SFdiv]. rewrite xorb_false_r. reflexivity.
Qed.

(** ** Runs of calls *)

(** X8. On the wall-clock variant the calls of a run obtain the platform's
    readings in order, one each, and a variable holds the result of the last
    call that named it: after the calls [pre], [GET_TIME(x)], [post], where
    [post] does not name [x], the variable [x] holds the timestamp of reading
    number [length pre] counted from the start of the run. *)
Theorem X8_posix_run_last_call_wins :
  forall (D : Type) (ops : DoubleOps D) (gettimeofday : nat -> Z * timeval)
         (pre post : list string) (x : string) (s : Posix.state),
    x ∉ post ->
    let s' := Posix.run gettimeofday (pre ++ x :: post) s in
    Posix.clock_calls s' = (Posix.clock_calls s + length pre + 1 + length post)%nat /\
    Posix.vars s' !! x =
      Some (Posix.timestamp (snd (gettimeofday (Posix.clock_calls s + length pre)%nat))).
Proof.
  intros D ops g pre post x s Hx s'. subst s'.
  rewrite posix_run_app, posix_run_cons. split.
  - rewrite posix_run_calls, posix_GET_TIME_unfold; cbn [Posix.clock_calls].
    rewrite posix_run_calls. lia.
  - rewrite posix_run_frame by exact Hx.
    rewrite posix_GET_TIME_unfold; cbn [Posix.vars]. rewrite lookup_insert_eq.
    unfold Posix.next_reading. rewrite posix_run_calls.
    rewrite (Nat.add_comm (length pre)). reflexivity.
Qed.

Section Win32Runs.
Context {D : Type} `{DoubleLaws D}.

(** A call that finds its unit's static nonzero, where nothing hides it,
    does not consult the frequency query. *)
Lemma win32_GET_TIME_calibrated (QPF QPF' QPC : nat -> Z * Z) u now (s : @Win32.state D) :
  Win32.vars s !! "frequency" = None -> now <> "frequency" ->
  feq0 (Win32.static_frequency u s) = false ->
  Win32.GET_TIME QPF QPC u now s = Win32.GET_TIME QPF' QPC u now s /\
  feq0 (Win32.static_frequency u (Win32.GET_TIME QPF QPC u now s)) = false /\
  Win32.vars (Win32.GET_TIME QPF QPC u now s) !! "frequency" = None.
Proof.
  intros Hv Hnow Hnz.
  pose proof (win32_GET_TIME_plain QPF QPC u now s Hv Hnow) as E.
  pose proof (win32_GET_TIME_plain QPF' QPC u now s Hv Hnow) as E'.
  cbv zeta in E, E'. rewrite Hnz in E, E'.
  split; [rewrite E, E'; reflexivity|split].
  - rewrite E. exact Hnz.
  - apply win32_GET_TIME_hidden; exact Hv.
Qed.

Lemma win32_run_calibrated_same (QPF QPF' QPC : nat -> Z * Z) u nows (s : @Win32.state D) :
  Win32.vars s !! "frequency" = None -> "frequency" ∉ nows ->
  feq0 (Win32.static_frequency u s) = false ->
  Win32.run QPF QPC (Win32.calls_in u nows) s = Win32.run QPF' QPC (Win32.calls_in u nows) s.
Proof.
  revert s; induction nows as [|now nows IH]; intros s Hv Hn Hnz; [reflexivity|].
  apply not_elem_of_cons in Hn as [Hnow Hn].
  unfold Win32.calls_in. rewrite fmap_cons, !win32_run_cons; cbn [fst snd].
  fold (Win32.calls_in u nows).
  destruct (win32_GET_TIME_calibrated QPF QPF' QPC u now s Hv ltac:(congruence) Hnz)
    as (E & Hnz' & Hv').
  rewrite <- E. apply IH; assumption.
Qed.
End Win32Runs.

(** X9. The calibration is frozen at the first call: in a program of one
    translation unit, where no variable of the caller hides [frequency] and
    [frequency] is not passed as argument, two platforms whose frequency
    queries agree on a nonzero first reply, whatever they would reply later,
    lead every run from program start to the same state. *)
Theorem X9_win32_later_frequency_replies_ignored :
  forall (D : Type) (ops : DoubleOps D) (laws : DoubleLaws D)
         (QPF QPF' QPC : nat -> Z * Z) (u : nat) (nows : list string) (vs : gmap string D),
    vs !! "frequency" = None -> "frequency" ∉ nows ->
    snd (QPF 0%nat) = snd (QPF' 0%nat) -> snd (QPF 0%nat) <> 0 ->
    Win32.run QPF QPC (Win32.calls_in u nows) (Win32.initial vs) =
    Win32.run QPF' QPC (Win32.calls_in u nows) (Win32.initial vs).
Proof.
  intros D ops laws QPF QPF' QPC u nows vs Hv Hn Heq Hnz.
  destruct nows as [|now nows]; [reflexivity|].
  apply not_elem_of_cons in Hn as [Hnow Hn].
  unfold Win32.calls_in. rewrite fmap_cons, !win32_run_cons; cbn [fst snd].
  fold (Win32.calls_in u nows).
  assert (Win32.GET_TIME QPF QPC u now (Win32.initial vs) =
          Win32.GET_TIME QPF' QPC u now (Win32.initial vs)) as E.
  { rewrite (win32_GET_TIME_plain QPF QPC u now (Win32.initial vs) Hv ltac:(congruence)).
    rewrite (win32_GET_TIME_plain QPF' QPC u now (Win32.initial vs) Hv ltac:(congruence)).
    cbn [Win32.initial Win32.qpf_calls]. rewrite Heq. reflexivity. }
  rewrite <- E.
  destruct (win32_GET_TIME_calibrates QPF QPC u now (Win32.initial vs) Hv ltac:(congruence))
    as [_ Hs]; [apply win32_initial_static|].
  apply win32_run_calibrated_same;
    [apply win32_GET_TIME_hidden; exact Hv|exact Hn|].
  rewrite Hs, feq0_of_long. apply Z.eqb_neq. exact Hnz.
Qed.

(** X10. On the counter variant, in a program of one translation unit where
    no variable of the caller hides [frequency] and [frequency] is not
    passed as argument, with a nonzero first frequency reply: the frequency
    is queried once, the tick readings are obtained in order, one per call,
    and a variable holds the result of the last call that named it, that
    call's tick count divided by the conversion of the first frequency
    reply. *)
Theorem X10_win32_run_last_call_wins :
  forall (D : Type) (ops : DoubleOps D) (laws : DoubleLaws D)
         (QPF QPC : nat -> Z * Z) (u : nat) (pre post : list string) (x : string)
         (vs : gmap string D),
    vs !! "frequency" = None -> "frequency" ∉ (pre ++ x :: post) ->
    snd (QPF 0%nat) <> 0 -> x ∉ post ->
    let s' := Win32.run QPF QPC (Win32.calls_in u (pre ++ x :: post)) (Win32.initial vs) in
    Win32.qpc_calls s' = (length pre + 1 + length post)%nat /\
    Win32.qpf_calls s' = 1%nat /\
    Win32.value u x s' =
      Some (fdiv (of_long (snd (QPC (length pre)))) (of_long (snd (QPF 0%nat)))).
Proof.
  intros D ops laws QPF QPC u pre post x vs Hv Hn Hnz Hx s'. subst s'.
  assert (("frequency" ∉ pre) /\ x <> "frequency" /\ ("frequency" ∉ post))
    as (Hpre & Hxf & Hpost).
  { rewrite not_elem_of_app, not_elem_of_cons in Hn. destruct Hn as (? & ? & ?).
    repeat split; [assumption|congruence|assumption]. }
  split; [|split].
  - rewrite win32_run_qpc_calls, win32_calls_in_length, length_app;
      cbn [length Win32.initial Win32.qpc_calls]. lia.
  - destruct (win32_reachable_divisor QPF QPC u (pre ++ x :: post) vs Hv Hn Hnz) as (_ & _ & ->).
    destruct pre; reflexivity.
  - unfold Win32.calls_in. rewrite fmap_app, fmap_cons, win32_run_app, win32_run_cons.
    cbn [fst snd]. fold (Win32.calls_in u pre) (Win32.calls_in u post).
    rewrite win32_value_var by (rewrite win32_run_denotes_static, win32_GET_TIME_denotes_static;
                                apply win32_denotes_static_other; exact Hxf).
    rewrite win32_run_vars_frame by (rewrite win32_calls_in_names; exact Hx).
    rewrite <- (win32_value_var u x) by (rewrite win32_GET_TIME_denotes_static;
                                         apply win32_denotes_static_other; exact Hxf).
    rewrite win32_GET_TIME_value.
    destruct (win32_reachable_divisor QPF QPC u pre vs Hv Hpre Hnz) as (-> & _ & _).
    rewrite win32_next_ticks_unfold, win32_run_qpc_calls, win32_calls_in_length.
    cbn [Win32.initial Win32.qpc_calls]. rewrite Nat.add_0_r. reflexivity.
Qed.

(** ** The header's example on the counter variant *)

Lemma win32_example_unfold {D : Type} `{DoubleLaws D} (QPF QPC : nat -> Z * Z)
    (u : nat) (pre : list string) (vs : gmap string D) :
  vs !! "frequency" = None -> "frequency" ∉ pre ->
  snd (QPF 0%nat) <> 0 ->
  let s := Win32.run QPF QPC (Win32.calls_in u pre) (Win32.initial vs) in
  let t1 := fdiv (of_long (snd (QPC (Win32.qpc_calls s)))) (of_long (snd (QPF 0%nat))) in
  let t2 := fdiv (of_long (snd (QPC (S (Win32.qpc_calls s))))) (of_long (snd (QPF 0%nat))) in
  Win32.value u "elapsed" (win32_example QPF QPC u s) = Some (fsub t2 t1).
Proof.
  intros Hv Hpre Hnz s t1 t2. unfold win32_example.
  set (s1 := Win32.GET_TIME QPF QPC u "start" s).
  set (s2 := Win32.GET_TIME QPF QPC u "finish" s1).
  destruct (win32_reachable_divisor QPF QPC u pre vs Hv Hpre Hnz) as (Hd & Hvs & _).
  fold s in Hd, Hvs.
  assert ("frequency" ∉ (pre ++ ["start"])) as Hpre1.
  { rewrite not_elem_of_app. split; [exact Hpre|].
    apply not_elem_of_cons; split; [discriminate|apply not_elem_of_nil]. }
  destruct (win32_reachable_divisor QPF QPC u (pre ++ ["start"]) vs Hv Hpre1 Hnz)
    as (Hd1 & Hvs1 & _).
  unfold Win32.calls_in in Hd1, Hvs1.
  rewrite fmap_app, win32_run_app in Hd1, Hvs1.
  change (Win32.run QPF QPC (pair u <$> ["start"]) (Win32.run QPF QPC (pair u <$> pre)
            (Win32.initial vs))) with s1 in Hd1, Hvs1.
  assert (Win32.vars s2 !! "frequency" = None) as Hvs2
    by (apply win32_GET_TIME_hidden; exact Hvs1).
  assert (Win32.value u "start" s1 = Some t1) as Hs1.
  { subst s1. rewrite win32_GET_TIME_value, win32_next_ticks_unfold, Hd. reflexivity. }
  assert (Win32.value u "finish" s2 = Some t2) as Hf2.
  { subst s2. rewrite win32_GET_TIME_value, win32_next_ticks_unfold, Hd1.
    subst s1. rewrite win32_GET_TIME_qpc_calls. reflexivity. }
  assert (Win32.value u "start" s2 = Some t1) as Hs2.
  { rewrite <- Hs1. rewrite !win32_value_var by (apply win32_denotes_static_other; discriminate).
    subst s2. apply win32_GET_TIME_vars_other. discriminate. }
  rewrite Hf2, Hs2.
  unfold Win32.value, Win32.assign.
  rewrite (win32_denotes_static_other "elapsed" s2) by discriminate.
  rewrite win32_denotes_static_other by discriminate.
  cbn [Win32.vars]. apply lookup_insert_eq.
Qed.

(** A counter of at most [2^24] ticks per second (16.7 MHz), read within
    [2^28] seconds (8.5 years) of its start. *)
Lemma quotient_error f c :
  0 < f <= 2 ^ 24 -> 0 <= c < f * 2 ^ 28 ->
  rounds_to (inject_Z c / inject_Z f) (SFdiv prec emax (b64_of_long c) (b64_of_long f)) /\
  (0 <= inject_Z c / inject_Z f < pow2 28)%Q /\
  (inject_Z c / inject_Z f - pow2 (-26)
   <= SF2Q (SFdiv prec emax (b64_of_long c) (b64_of_long f))
   <= inject_Z c / inject_Z f + pow2 (-26))%Q /\
  (0 <= SF2Q (SFdiv prec emax (b64_of_long c) (b64_of_long f)) <= pow2 28)%Q.
Proof.
  intros Hf Hc.
  assert (f * 2 ^ 28 <= 2 ^ 24 * 2 ^ 28) as Hb by nia.
  change (2 ^ 24 * 2 ^ 28) with (2 ^ 52) in Hb.
  assert (2 ^ 52 < 2 ^ 53) as H5253 by (apply Z.pow_lt_mono_r; lia).
  assert (2 ^ 53 < 2 ^ 63) as H5363 by (apply Z.pow_lt_mono_r; lia).
  assert (2 ^ 24 < 2 ^ 53) as H2453 by (apply Z.pow_lt_mono_r; lia).
  destruct (ticks_over_frequency f ltac:(lia) c ltac:(unfold int64; lia)) as [R _].
  assert (rounds_to (inject_Z c / inject_Z f)
            (SFdiv prec emax (b64_of_long c) (b64_of_long f))) as R'.
  { eapply rounds_to_compat; [|exact R].
    rewrite (of_long_exact c), (of_long_exact f) by lia. reflexivity. }
  assert (0 < inject_Z f)%Q as Hfq by (change 0%Q with (inject_Z 0); rewrite <- Zlt_Qlt; lia).
  assert (0 <= inject_Z c / inject_Z f < pow2 28)%Q as Hq.
  { split.
    - apply Qle_shift_div_l; [exact Hfq|]. rewrite Qmult_0_l.
      change 0%Q with (inject_Z 0). rewrite <- Zle_Qle. lia.
    - apply Qlt_shift_div_r; [exact Hfq|].
      rewrite (pow2_Z 28) by lia. rewrite <- inject_Z_mult, <- Zlt_Qlt. lia. }
  pose proof (pow2_pos 28) as Hp.
  split; [exact R'|split; [exact Hq|split]].
  - destruct R' as [_ R']. pose proof (RndS_error 28 _ _ ltac:(lia) R' ltac:(lra)) as E.
    exact E.
  - split; [apply (rounds_to_nonneg _ _ R'); lra|].
    destruct R' as [_ R'].
    apply (RndS_mono _ (pow2 28) _ _ R' (RndS_pow2 28 ltac:(lia))). lra.
Qed.

Lemma win32_example_elapsed f c1 c2 :
  0 < f <= 2 ^ 24 -> 0 <= c1 < f * 2 ^ 28 -> 0 <= c2 < f * 2 ^ 28 ->
  let el := SFsub prec emax (SFdiv prec emax (b64_of_long c2) (b64_of_long f))
                            (SFdiv prec emax (b64_of_long c1) (b64_of_long f)) in
  SFfinite el = true /\
  (inject_Z (c2 - c1) / inject_Z f - pow2 (-24) <= SF2Q el
   <= inject_Z (c2 - c1) / inject_Z f + pow2 (-24))%Q /\
  (c1 < c2 -> b64_gt0 el = true).
Proof.
  intros Hf H1 H2 el.
  destruct (quotient_error f c1 Hf H1) as (R1 & Q1 & E1 & B1).
  destruct (quotient_error f c2 Hf H2) as (R2 & Q2 & E2 & B2).
  pose proof (pow2_lt 28 29 ltac:(lia)) as H2829.
  pose proof (pow2_lt 29 1023 ltac:(lia)) as H1023.
  pose proof (pow2_pos 28) as Hp28.
  destruct (SFsub_correct _ _ (rounds_to_representable _ _ R2)
              (rounds_to_representable _ _ R1)) as [F R]; [lra|].
  fold el in F, R.
  pose proof (RndS_error 29 _ _ ltac:(lia) R ltac:(lra)) as Herr.
  change (29 - 54) with (-25) in Herr.
  assert (0 < inject_Z f)%Q as Hfq by (change 0%Q with (inject_Z 0); rewrite <- Zlt_Qlt; lia).
  assert (inject_Z (c2 - c1) / inject_Z f == inject_Z c2 / inject_Z f - inject_Z c1 / inject_Z f)%Q
    as Ediff.
  { unfold Z.sub. rewrite inject_Z_plus, inject_Z_opp. field. lra. }
  assert (pow2 (-24) == 1 # 16777216)%Q as E24 by reflexivity.
  assert (pow2 (-25) == 1 # 33554432)%Q as E25 by reflexivity.
  assert (pow2 (-26) == 1 # 67108864)%Q as E26 by reflexivity.
  split; [exact F|split; [rewrite Ediff; lra|]].
  intros Hlt. apply b64_gt0_spec; [exact F|].
  assert (pow2 (-24) <= inject_Z (c2 - c1) / inject_Z f)%Q as Hstep.
  { apply Qle_shift_div_l; [exact Hfq|].
    assert (inject_Z f <= inject_Z (2 ^ 24))%Q as Hf24 by (apply inject_Z_le; lia).
    assert (1 <= inject_Z (c2 - c1))%Q as Hc
      by (change 1%Q with (inject_Z 1); rewrite <- Zle_Qle; lia).
    change (inject_Z (2 ^ 24)) with 16777216%Q in Hf24. rewrite E24. lra. }
  assert (pow2 (-25) <= SF2Q el)%Q; [|pose proof (pow2_pos (-25)); lra].
  apply (RndS_mono (pow2 (-25)) _ _ _ (RndS_pow2 (-25) ltac:(lia)) R).
  rewrite Ediff in Hstep. lra.
Qed.

(** X11. Tick resolution of the header's example on the counter variant in
    binary64, in a program of one translation unit where no variable of the
    caller hides [frequency] and [frequency] is not passed as argument: with
    a frequency of at most [2^24] ticks per second and both readings within
    [2^28] seconds of the counter's start, [elapsed > 0] whenever the
    counter advanced by at least one tick. *)
Theorem X11_win32_example_resolution :
  forall (QPF QPC : nat -> Z * Z) (u : nat) (pre : list string) (vs : gmap string double),
    vs !! "frequency" = None -> "frequency" ∉ pre ->
    let s := Win32.run QPF QPC (Win32.calls_in u pre) (Win32.initial vs) in
    let f := snd (QPF 0%nat) in
    let c1 := snd (QPC (Win32.qpc_calls s)) in
    let c2 := snd (QPC (S (Win32.qpc_calls s))) in
    0 < f <= 2 ^ 24 -> 0 <= c1 < f * 2 ^ 28 -> 0 <= c2 < f * 2 ^ 28 -> c1 < c2 ->
    exists elapsed : double,
      Win32.value u "elapsed" (win32_example QPF QPC u s) = Some elapsed /\
      b64_gt0 elapsed = true.
Proof.
  intros QPF QPC u pre vs Hv Hpre s f c1 c2 Hf H1 H2 Hlt.
  eexists; split; [apply win32_example_unfold; [exact Hv|exact Hpre|fold f; lia]|].
  exact (proj2 (proj2 (win32_example_elapsed f c1 c2 Hf H1 H2)) Hlt).
Qed.

(** X12. Accuracy of the header's example on the counter variant in
    binary64, under the same conditions: [elapsed] is finite and within
    [2^-24] seconds (60 nanoseconds) of the exact [(c2 - c1) / frequency]. *)
Theorem X12_win32_example_accuracy :
  forall (QPF QPC : nat -> Z * Z) (u : nat) (pre : list string) (vs : gmap string double),
    vs !! "frequency" = None -> "frequency" ∉ pre ->
    let s := Win32.run QPF QPC (Win32.calls_in u pre) (Win32.initial vs) in
    let f := snd (QPF 0%nat) in
    let c1 := snd (QPC (Win32.qpc_calls s)) in
    let c2 := snd (QPC (S (Win32.qpc_calls s))) in
    0 < f <= 2 ^ 24 -> 0 <= c1 < f * 2 ^ 28 -> 0 <= c2 < f * 2 ^ 28 ->
    exists elapsed : double,
      Win32.value u "elapsed" (win32_example QPF QPC u s) = Some elapsed /\
      SFfinite elapsed = true /\
      (inject_Z (c2 - c1) / inject_Z f - (1 # 16777216) <= SF2Q elapsed
       <= inject_Z (c2 - c1) / inject_Z f + (1 # 16777216))%Q.
Proof.
  intros QPF QPC u pre vs Hv Hpre s f c1 c2 Hf H1 H2.
  eexists; split; [apply win32_example_unfold; [exact Hv|exact Hpre|fold f; lia]|].
  destruct (win32_example_elapsed f c1 c2 Hf H1 H2) as (F & E & _).
  split; [exact F|].
  assert (pow2 (-24) == 1 # 16777216)%Q as E24 by reflexivity.
  cbv zeta in E. rewrite E24 in E. exact E.
Qed.

(** ** Translation units and hidden statics *)

Section Win32Units.
Context {D : Type} `{DoubleLaws D}.
Variable QPF QPC : nat -> Z * Z.

(** With nonzero replies, where nothing hides the statics and [frequency]
    is never the argument: the units whose static has been written are
    those that made a call, each static is nonzero, and each was written
    by one query. *)
Lemma win32_run_units calls (s : @Win32.state D) :
  Win32.vars s !! "frequency" = None -> "frequency" ∉ calls.*2 ->
  (forall n, snd (QPF n) <> 0) ->
  (forall u v, Win32.statics s !! u = Some v -> feq0 v = false) ->
  let s' := Win32.run QPF QPC calls s in
  (forall u v, Win32.statics s' !! u = Some v -> feq0 v = false) /\
  dom (Win32.statics s') = dom (Win32.statics s) ∪ list_to_set calls.*1 /\
  (Win32.qpf_calls s' + size (dom (Win32.statics s)) =
   Win32.qpf_calls s + size (dom (Win32.statics s')))%nat.
Proof.
  intros Hv Hc Hnz. revert s Hv Hc.
  induction calls as [|[u x] calls IH]; intros s Hv Hc Hs s'.
  - subst s'. cbn [Win32.run fold_left fmap list_fmap].
    rewrite list_to_set_nil, union_empty_r_L. split; [exact Hs|split; [reflexivity|lia]].
  - rewrite fmap_cons in Hc. apply not_elem_of_cons in Hc as [Hx Hc]. cbn [snd] in Hx.
    subst s'. rewrite win32_run_cons; cbn [fst snd].
    set (s1 := Win32.GET_TIME QPF QPC u x s).
    pose proof (win32_GET_TIME_plain QPF QPC u x s Hv ltac:(congruence)) as E.
    cbv zeta in E. fold s1 in E.
    assert (Win32.vars s1 !! "frequency" = None) as Hv1
      by (apply win32_GET_TIME_hidden; exact Hv).
    assert ((forall u' v, Win32.statics s1 !! u' = Some v -> feq0 v = false) /\
            dom (Win32.statics s1) = dom (Win32.statics s) ∪ {[u]} /\
            (Win32.qpf_calls s1 + size (dom (Win32.statics s)) =
             Win32.qpf_calls s + size (dom (Win32.statics s1)))%nat) as (Hs1 & Hd1 & Hq1).
    { unfold Win32.static_frequency in E.
      destruct (Win32.statics s !! u) as [v|] eqn:Hu; cbn [from_option id] in E.
      - rewrite (Hs u v Hu) in E. rewrite E; cbn [Win32.statics Win32.qpf_calls].
        split; [exact Hs|split; [|reflexivity]].
        apply elem_of_dom_2 in Hu. rewrite union_comm_L. symmetry.
        apply subseteq_union_1_L, singleton_subseteq_l, Hu.
      - rewrite feq0_dzero in E. rewrite E; cbn [Win32.statics Win32.qpf_calls].
        split; [|split].
        + intros u' v. destruct (decide (u' = u)) as [->|Hne].
          * rewrite lookup_insert_eq. intros [= <-].
            rewrite feq0_of_long. apply Z.eqb_neq, Hnz.
          * rewrite lookup_insert_ne by congruence. apply Hs.
        + rewrite dom_insert_L. apply union_comm_L.
        + rewrite dom_insert_L, size_union, size_singleton; [lia|].
          apply disjoint_singleton_l, not_elem_of_dom, Hu. }
    destruct (IH s1 Hv1 Hc Hs1) as (IH1 & IH2 & IH3).
    split; [exact IH1|split].
    + rewrite IH2, Hd1, fmap_cons, list_to_set_cons. cbn [fst].
      symmetry. apply union_assoc_L.
    + lia.
Qed.
End Win32Units.

(** X13. Every translation unit calibrates for itself: from program start,
    with nonzero frequency replies, where no variable of the caller hides
    [frequency] and [frequency] is never the argument, the platform
    frequency has been queried once for each unit that made a call, and the
    statics written are those of these units. *)
Theorem X13_win32_one_query_per_unit :
  forall (D : Type) (ops : DoubleOps D) (laws : DoubleLaws D) (QPF QPC : nat -> Z * Z)
         (calls : list (nat * string)) (vs : gmap string D),
    vs !! "frequency" = None -> "frequency" ∉ calls.*2 ->
    (forall n, snd (QPF n) <> 0) ->
    let s := Win32.run QPF QPC calls (Win32.initial vs) in
    Win32.qpf_calls s = length (remove_dups calls.*1) /\
    (forall u, is_Some (Win32.statics s !! u) <-> u ∈ calls.*1).
Proof.
  intros D ops laws QPF QPC calls vs Hv Hc Hnz s.
  destruct (win32_run_units QPF QPC calls (Win32.initial vs) Hv Hc Hnz) as (_ & Hd & Hq).
  { intros u v. cbn [Win32.initial Win32.statics]. rewrite lookup_empty. discriminate. }
  fold s in Hd, Hq. cbn [Win32.initial Win32.statics Win32.qpf_calls] in Hd, Hq.
  rewrite dom_empty_L in Hd, Hq. rewrite size_empty in Hq.
  split.
  - assert (Win32.qpf_calls s = size (dom (Win32.statics s))) as -> by lia.
    rewrite Hd, union_empty_l_L.
    rewrite <- (size_list_to_set (C := gset nat) (remove_dups calls.*1))
      by apply NoDup_remove_dups.
    f_equal. apply set_eq. intros u.
    rewrite !elem_of_list_to_set, elem_of_remove_dups. reflexivity.
  - intros u. rewrite <- elem_of_dom, Hd, union_empty_l_L. apply elem_of_list_to_set.
Qed.

(** X14. A variable [frequency] of the caller takes the place of the
    calibration: while such a variable, of nonzero value [own], is in scope
    and is not itself passed as argument, no call queries the platform
    frequency or writes a static, and every call stores its tick count
    divided by [own]. *)
Theorem X14_win32_caller_frequency_decides :
  forall (D : Type) (ops : DoubleOps D) (QPF QPC : nat -> Z * Z)
         (calls : list (nat * string)) (u : nat) (now : string) (s : Win32.state) (own : D),
    Win32.vars s !! "frequency" = Some own -> feq0 own = false ->
    "frequency" ∉ calls.*2 ->
    let s1 := Win32.run QPF QPC calls s in
    Win32.qpf_calls s1 = Win32.qpf_calls s /\
    Win32.statics s1 = Win32.statics s /\
    Win32.qpf_calls (Win32.GET_TIME QPF QPC u now s1) = Win32.qpf_calls s /\
    Win32.statics (Win32.GET_TIME QPF QPC u now s1) = Win32.statics s /\
    Win32.value u now (Win32.GET_TIME QPF QPC u now s1) =
      Some (fdiv (of_long (snd (QPC (length calls + Win32.qpc_calls s)%nat))) own).
Proof.
  intros D ops QPF QPC calls u now s own Hown Hnz Hc s1.
  destruct (win32_run_own_frequency QPF QPC calls s own Hown Hnz Hc) as (Hq & Hst & Hown1).
  fold s1 in Hq, Hst, Hown1.
  split; [exact Hq|split; [exact Hst|split; [|split]]].
  - rewrite win32_GET_TIME_qpf_calls, (win32_frequency_hidden u s1 own Hown1), Hnz.
    exact Hq.
  - rewrite win32_GET_TIME_unfold, (win32_denotes_static_hidden now s1 own Hown1).
    cbn [Win32.statics].
    rewrite win32_lazy_init_unfold, (win32_frequency_hidden u s1 own Hown1), Hnz.
    exact Hst.
  - rewrite win32_GET_TIME_value, win32_next_ticks_unfold, win32_divisor_cases, Hown1.
    subst s1. rewrite win32_run_qpc_calls. reflexivity.
Qed.

(** ** The further properties at the concrete platforms *)

Lemma clock_2023_realistic n : realistic_reading (snd (clock_2023 n)).
Proof. unfold realistic_reading, clock_2023; simpl; lia. Qed.

Lemma X1_witness :
  realistic_reading (snd (clock_2023 0)) /\
  exists v : double,
    Posix.vars (Posix.GET_TIME clock_2023 "start"
                  {| Posix.vars := ∅; Posix.clock_calls := 0 |}) !! "start" = Some v /\
    SFfinite v = true /\
    (Posix.timestamp (D := Q) (snd (clock_2023 0)) - (1 # 2000000) < SF2Q v
     < Posix.timestamp (D := Q) (snd (clock_2023 0)) + (1 # 2000000))%Q.
Proof.
  split; [apply clock_2023_realistic|].
  apply (X1_posix_half_microsecond_accuracy clock_2023 "start"
           {| Posix.vars := ∅; Posix.clock_calls := 0 |}).
  apply clock_2023_realistic.
Defined.

Lemma X2_witness :
  realistic_reading (snd (clock_2023 7)) /\
  exists v : double,
    Posix.vars (Posix.GET_TIME clock_2023 "start"
                  {| Posix.vars := ∅; Posix.clock_calls := 7 |}) !! "start" = Some v /\
    SFfinite v = true /\
    (inject_Z 1700000000 <= SF2Q v < inject_Z 1700000000 + 1)%Q.
Proof.
  split; [apply clock_2023_realistic|].
  apply (X2_posix_binary64_within_second clock_2023 "start"
           {| Posix.vars := ∅; Posix.clock_calls := 7 |}).
  apply clock_2023_realistic.
Defined.

Lemma X3_witness :
  realistic_reading (snd (clock_2023 0)) /\ realistic_reading (snd (clock_2023 1)) /\
  exists elapsed : double,
    Posix.vars (posix_example clock_2023 {| Posix.vars := ∅; Posix.clock_calls := 0 |})
      !! "elapsed" = Some elapsed /\
    (micros (snd (clock_2023 0)) < micros (snd (clock_2023 1)) -> b64_gt0 elapsed = true) /\
    (snd (clock_2023 0) = snd (clock_2023 1) -> elapsed = S754_zero false).
Proof.
  split; [apply clock_2023_realistic|split; [apply clock_2023_realistic|]].
  apply (X3_posix_example_resolution clock_2023 {| Posix.vars := ∅; Posix.clock_calls := 0 |});
    apply clock_2023_realistic.
Defined.

Lemma X4_witness :
  realistic_reading (snd (clock_2023 0)) /\ realistic_reading (snd (clock_2023 1)) /\
  exists elapsed : double,
    Posix.vars (posix_example clock_2023 {| Posix.vars := ∅; Posix.clock_calls := 0 |})
      !! "elapsed" = Some elapsed /\
    SFfinite elapsed = true /\
    (Posix.timestamp (D := Q) (snd (clock_2023 1)) - Posix.timestamp (D := Q) (snd (clock_2023 0))
       - (3 # 2000000)
     < SF2Q elapsed
     < Posix.timestamp (D := Q) (snd (clock_2023 1)) - Posix.timestamp (D := Q) (snd (clock_2023 0))
       + (3 # 2000000))%Q.
Proof.
  split; [apply clock_2023_realistic|split; [apply clock_2023_realistic|]].
  apply (X4_posix_example_accuracy clock_2023 {| Posix.vars := ∅; Posix.clock_calls := 0 |});
    apply clock_2023_realistic.
Defined.

Lemma qpc_ticks_int64 n : int64 (snd (qpc_ticks n)).
Proof. unfold qpc_ticks, int64; simpl; lia. Qed.

Lemma X5_witness :
  let s := Win32.run (D := double) qpf_10MHz qpc_ticks (Win32.calls_in main_c ["start"])
             (Win32.initial ∅) in
  let ticks := snd (qpc_ticks (Win32.qpc_calls s)) in
  (∅ : gmap string double) !! "frequency" = None /\ ("frequency" ∉ ["start"]) /\
  0 < snd (qpf_10MHz 0%nat) < 2 ^ 63 /\
  exists v : double,
    Win32.value main_c "finish" (Win32.GET_TIME qpf_10MHz qpc_ticks main_c "finish" s) = Some v /\
    SFfinite v = true /\
    (- inject_Z (2 ^ 63) <= SF2Q v <= inject_Z (2 ^ 63))%Q /\
    (0 < ticks -> (0 < SF2Q v)%Q) /\
    (ticks < 0 -> (SF2Q v < 0)%Q) /\
    (ticks = 0 -> v = S754_zero false).
Proof.
  intros s ticks.
  assert ("frequency" ∉ ["start"]) as Hn by by_evaluation.
  assert (0 < snd (qpf_10MHz 0%nat) < 2 ^ 63) as Hf by by_arithmetic.
  split; [reflexivity|split; [exact Hn|split; [exact Hf|]]].
  exact (X5_win32_result_finite qpf_10MHz qpc_ticks main_c "finish" ["start"] ∅
           eq_refl Hn Hf qpc_ticks_int64).
Defined.

Lemma X6_witness :
  let s := Win32.run (D := double) qpf_10MHz qpc_ticks
             (Win32.calls_in main_c ["a"; "b"; "c"; "d"]) (Win32.initial ∅) in
  let ticks := snd (qpc_ticks (Win32.qpc_calls s)) in
  let f := snd (qpf_10MHz 0%nat) in
  (∅ : gmap string double) !! "frequency" = None /\ ("frequency" ∉ ["a"; "b"; "c"; "d"]) /\
  0 < f <= 2 ^ 53 /\ Z.abs ticks <= 2 ^ 53 /\
  exists v : double,
    Win32.value main_c "finish" (Win32.GET_TIME qpf_10MHz qpc_ticks main_c "finish" s) = Some v /\
    rounds_to (inject_Z ticks / inject_Z f) v /\
    (forall q, ticks = q * f -> (SF2Q v == inject_Z q)%Q).
Proof.
  intros s ticks f.
  assert ("frequency" ∉ ["a"; "b"; "c"; "d"]) as Hn by by_evaluation.
  assert (0 < f <= 2 ^ 53) as Hf by by_arithmetic.
  assert (Z.abs ticks <= 2 ^ 53) as Hc by by_arithmetic.
  split; [reflexivity|split; [exact Hn|split; [exact Hf|split; [exact Hc|]]]].
  exact (X6_win32_correctly_rounded qpf_10MHz qpc_ticks main_c "finish" ["a"; "b"; "c"; "d"] ∅
           eq_refl Hn Hf Hc).
Defined.

Lemma X7_witness :
  let s := Win32.run (D := double) qpf_unsupported qpc_ticks [(worker_c, "start")]
             (Win32.initial ∅) in
  let ticks := snd (qpc_ticks (Win32.qpc_calls s)) in
  (∅ : gmap string double) !! "frequency" = None /\
  ("frequency" ∉ [(worker_c, "start")].*2) /\
  (forall n, snd (qpf_unsupported n) = 0) /\
  Win32.value main_c "finish" (Win32.GET_TIME qpf_unsupported qpc_ticks main_c "finish" s)
    = Some (if ticks =? 0 then S754_nan else S754_infinity (ticks <? 0)).
Proof.
  intros s ticks.
  assert ("frequency" ∉ [(worker_c, "start")].*2) as Hn by by_evaluation.
  split; [reflexivity|split; [exact Hn|split; [intros n; reflexivity|]]].
  exact (X7_win32_zero_frequency_not_finite qpf_unsupported qpc_ticks main_c "finish"
           [(worker_c, "start")] ∅ eq_refl Hn (fun n => eq_refl) qpc_ticks_int64).
Defined.

Lemma X8_witness :
  ("start" ∉ ["finish"]) /\
  let s' := Posix.run (D := double) clock_2023 (["warmup"; "start"] ++ "start" :: ["finish"])
              {| Posix.vars := ∅; Posix.clock_calls := 0 |} in
  Posix.clock_calls s' = (0 + 2 + 1 + 1)%nat /\
  Posix.vars s' !! "start" = Some (Posix.timestamp (snd (clock_2023 (0 + 2)%nat))).
Proof.
  assert ("start" ∉ ["finish"]) as Hx
    by (apply not_elem_of_cons; split; [discriminate|apply not_elem_of_nil]).
  split; [exact Hx|].
  exact (X8_posix_run_last_call_wins double _ clock_2023 ["warmup"; "start"] ["finish"] "start"
           {| Posix.vars := ∅; Posix.clock_calls := 0 |} Hx).
Defined.

Lemma X9_witness :
  (∅ : gmap string double) !! "frequency" = None /\ ("frequency" ∉ ["start"; "finish"]) /\
  snd (qpf_10MHz 0%nat) = snd (qpf_drifting 0%nat) /\ snd (qpf_10MHz 0%nat) <> 0 /\
  Win32.run (D := double) qpf_10MHz qpc_ticks (Win32.calls_in main_c ["start"; "finish"])
    (Win32.initial ∅) =
  Win32.run (D := double) qpf_drifting qpc_ticks (Win32.calls_in main_c ["start"; "finish"])
    (Win32.initial ∅).
Proof.
  assert ("frequency" ∉ ["start"; "finish"]) as Hn by by_evaluation.
  split; [reflexivity|split; [exact Hn|split; [reflexivity|split; [discriminate|]]]].
  apply (X9_win32_later_frequency_replies_ignored double _ _ qpf_10MHz qpf_drifting qpc_ticks);
    [reflexivity|exact Hn|reflexivity|discriminate].
Defined.

Lemma X10_witness :
  (∅ : gmap string double) !! "frequency" = None /\
  ("frequency" ∉ (["start"] ++ "start" :: ["finish"])) /\
  snd (qpf_10MHz 0%nat) <> 0 /\ ("start" ∉ ["finish"]) /\
  let s' := Win32.run (D := double) qpf_10MHz qpc_ticks
              (Win32.calls_in main_c (["start"] ++ "start" :: ["finish"])) (Win32.initial ∅) in
  Win32.qpc_calls s' = (1 + 1 + 1)%nat /\
  Win32.qpf_calls s' = 1%nat /\
  Win32.value main_c "start" s' =
    Some (fdiv (of_long (snd (qpc_ticks 1))) (of_long (snd (qpf_10MHz 0%nat)))).
Proof.
  assert ("frequency" ∉ (["start"] ++ "start" :: ["finish"])) as Hn by by_evaluation.
  assert ("start" ∉ ["finish"]) as Hx by by_evaluation.
  split; [reflexivity|split; [exact Hn|split; [discriminate|split; [exact Hx|]]]].
  apply (X10_win32_run_last_call_wins double _ _ qpf_10MHz qpc_ticks main_c ["start"] ["finish"]
           "start" ∅); [reflexivity|exact Hn|discriminate|exact Hx].
Defined.

Lemma X11_witness :
  let s := Win32.run (D := double) qpf_10MHz qpc_ticks (Win32.calls_in main_c ["warm"])
             (Win32.initial ∅) in
  let f := snd (qpf_10MHz 0%nat) in
  let c1 := snd (qpc_ticks (Win32.qpc_calls s)) in
  let c2 := snd (qpc_ticks (S (Win32.qpc_calls s))) in
  (∅ : gmap string double) !! "frequency" = None /\ ("frequency" ∉ ["warm"]) /\
  (0 < f <= 2 ^ 24 /\ 0 <= c1 < f * 2 ^ 28 /\ 0 <= c2 < f * 2 ^ 28 /\ c1 < c2) /\
  exists elapsed : double,
    Win32.value main_c "elapsed" (win32_example qpf_10MHz qpc_ticks main_c s) = Some elapsed /\
    b64_gt0 elapsed = true.
Proof.
  intros s f c1 c2.
  assert ("frequency" ∉ ["warm"]) as Hn by by_evaluation.
  assert (0 < f <= 2 ^ 24) as H1 by by_arithmetic.
  assert (0 <= c1 < f * 2 ^ 28) as H2 by by_arithmetic.
  assert (0 <= c2 < f * 2 ^ 28) as H3 by by_arithmetic.
  assert (c1 < c2) as H4 by by_arithmetic.
  split; [reflexivity|split; [exact Hn|split; [tauto|]]].
  exact (X11_win32_example_resolution qpf_10MHz qpc_ticks main_c ["warm"] ∅
           eq_refl Hn H1 H2 H3 H4).
Defined.

Lemma X12_witness :
  let s := Win32.run (D := double) qpf_10MHz qpc_ticks (Win32.calls_in main_c ["warm"])
             (Win32.initial ∅) in
  let f := snd (qpf_10MHz 0%nat) in
  let c1 := snd (qpc_ticks (Win32.qpc_calls s)) in
  let c2 := snd (qpc_ticks (S (Win32.qpc_calls s))) in
  (∅ : gmap string double) !! "frequency" = None /\ ("frequency" ∉ ["warm"]) /\
  (0 < f <= 2 ^ 24 /\ 0 <= c1 < f * 2 ^ 28 /\ 0 <= c2 < f * 2 ^ 28) /\
  exists elapsed : double,
    Win32.value main_c "elapsed" (win32_example qpf_10MHz qpc_ticks main_c s) = Some elapsed /\
    SFfinite elapsed = true /\
    (inject_Z (c2 - c1) / inject_Z f - (1 # 16777216) <= SF2Q elapsed
     <= inject_Z (c2 - c1) / inject_Z f + (1 # 16777216))%Q.
Proof.
  intros s f c1 c2.
  assert ("frequency" ∉ ["warm"]) as Hn by by_evaluation.
  assert (0 < f <= 2 ^ 24) as H1 by by_arithmetic.
  assert (0 <= c1 < f * 2 ^ 28) as H2 by by_arithmetic.
  assert (0 <= c2 < f * 2 ^ 28) as H3 by by_arithmetic.
  split; [reflexivity|split; [exact Hn|split; [tauto|]]].
  exact (X12_win32_example_accuracy qpf_10MHz qpc_ticks main_c ["warm"] ∅
           eq_refl Hn H1 H2 H3).
Defined.

Lemma X13_witness :
  (∅ : gmap string double) !! "frequency" = None /\
  ("frequency" ∉ [(main_c, "a"); (worker_c, "b"); (main_c, "c"); (worker_c, "d")].*2) /\
  (forall n, snd (qpf_drifting n) <> 0) /\
  let s := Win32.run (D := double) qpf_drifting qpc_ticks
             [(main_c, "a"); (worker_c, "b"); (main_c, "c"); (worker_c, "d")]
             (Win32.initial ∅) in
  Win32.qpf_calls s =
    length (remove_dups [(main_c, "a"); (worker_c, "b"); (main_c, "c"); (worker_c, "d")].*1) /\
  (forall u, is_Some (Win32.statics s !! u) <->
             u ∈ [(main_c, "a"); (worker_c, "b"); (main_c, "c"); (worker_c, "d")].*1).
Proof.
  assert ("frequency" ∉ [(main_c, "a"); (worker_c, "b"); (main_c, "c"); (worker_c, "d")].*2)
    as Hn by by_evaluation.
  assert (forall n, snd (qpf_drifting n) <> 0) as Hnz by (intros [|n]; discriminate).
  split; [reflexivity|split; [exact Hn|split; [exact Hnz|]]].
  exact (X13_win32_one_query_per_unit double _ _ qpf_drifting qpc_ticks
           [(main_c, "a"); (worker_c, "b"); (main_c, "c"); (worker_c, "d")] ∅ eq_refl Hn Hnz).
Defined.

Lemma X14_witness :
  let s := Win32.initial (D := double) {["frequency" := of_long 4]} in
  Win32.vars s !! "frequency" = Some (of_long 4) /\ feq0 (of_long 4 : double) = false /\
  ("frequency" ∉ [(main_c, "start"); (worker_c, "lap")].*2) /\
  let s1 := Win32.run qpf_10MHz qpc_ticks [(main_c, "start"); (worker_c, "lap")] s in
  Win32.qpf_calls s1 = Win32.qpf_calls s /\
  Win32.statics s1 = Win32.statics s /\
  Win32.qpf_calls (Win32.GET_TIME qpf_10MHz qpc_ticks main_c "finish" s1) = Win32.qpf_calls s /\
  Win32.statics (Win32.GET_TIME qpf_10MHz qpc_ticks main_c "finish" s1) = Win32.statics s /\
  Win32.value main_c "finish" (Win32.GET_TIME qpf_10MHz qpc_ticks main_c "finish" s1) =
    Some (fdiv (of_long (snd (qpc_ticks
                  (length [(main_c, "start"); (worker_c, "lap")] + Win32.qpc_calls s)%nat)))
               (of_long 4)).
Proof.
  intros s.
  assert ("frequency" ∉ [(main_c, "start"); (worker_c, "lap")].*2) as Hn by by_evaluation.
  split; [reflexivity|split; [reflexivity|split; [exact Hn|]]].
  exact (X14_win32_caller_frequency_decides double _ qpf_10MHz qpc_ticks
           [(main_c, "start"); (worker_c, "lap")] main_c "finish" s (of_long 4)
           eq_refl eq_refl Hn).
Defined.
